(** * Catto: the per-frame simulation of [game.js], embedded in Rocq

    The development follows [src/game.js] function by function.

    - JavaScript numbers are IEEE-754 binary64 values.  They are embedded as
      [spec_float] with precision 53 and exponent bound 1024, so that every
      [+], [-], [*], [/] and comparison below rounds exactly as the engine
      does.  Fields that only ever receive integers by construction ([++],
      [--], sums of such fields, results of [Math.floor]) are kept in [Z].
    - [Math.hypot], [Math.cos] and [Math.sin] are implementation-approximated
      by the language standard; they are the methods of the class [MathLib].
    - [Math.random] is an oracle stored in the world together with the
      number of draws already made.
    - Arrays of objects ([enemies], [projectiles], [xpOrbs], [particles]) are
      arrays of references into an object store, so that an object that was
      spliced out of its array while a callback still holds it behaves as in
      the source.
    - [localStorage] and the keyboard map [keys] are finite maps from strings.
    - Callbacks handed to [setTimeout] are kept in the world's [timers] and
      run by [runTimer].
    - Drawing ([render], the sprites), the heads-up display ([updateUI]) and
      the DOM of the modal are outside the simulation state and are left
      out; the modal's buttons are the list [upgradeChoices]. *)

From stdpp Require Import base option list strings gmap.
From Stdlib Require Import ZArith Lia SpecFloat Ascii.
From Stdlib Require Import Decimal DecimalString DecimalN DecimalPos DecimalZ.

Open Scope Z_scope.

(** ** Numbers *)

Module Num.

Definition prec : Z := 53.
Definition emax : Z := 1024.

Definition number : Type := spec_float.

(** The double nearest to an integer (exact below 2^53). *)
Definition of_Z (z : Z) : number := binary_normalize prec emax z 0 false.

Definition add : number -> number -> number := SFadd prec emax.
Definition sub : number -> number -> number := SFsub prec emax.
Definition mul : number -> number -> number := SFmul prec emax.
Definition div : number -> number -> number := SFdiv prec emax.
Definition sqrt : number -> number := SFsqrt prec emax.
Definition ltb : number -> number -> bool := SFltb.
Definition leb : number -> number -> bool := SFleb.
Definition NaN : number := S754_nan.

Definition is_nan (x : number) : bool :=
  match x with S754_nan => true | _ => false end.

(** Decimal literals.  [12.5] is read as the correctly rounded quotient of
    [125] by [10]; both are exact doubles as long as they stay below 2^53
    and 10^22, which the reader checks, so the result is the double nearest
    to the decimal, as for a literal of the source. *)
Definition of_decimal (d : Decimal.decimal) : option number :=
  match d with
  | Decimal.Decimal i f =>
      let digits := Decimal.app_int i f in
      let n := Z.of_int digits in
      let k := Z.of_nat (Decimal.nb_digits f) in
      if (Z.abs n <? 2 ^ 53) && (k <=? 22)
      then Some (match n with
                 | Z0 => match i with
                         | Decimal.Neg _ => S754_zero true
                         | Decimal.Pos _ => S754_zero false
                         end
                 | _ => div (of_Z n) (of_Z (10 ^ k))
                 end)
      else None
  | Decimal.DecimalExp _ _ _ => None
  end.

Definition of_number (n : Number.number) : option spec_float :=
  match n with
  | Number.Decimal d => of_decimal d
  | Number.Hexadecimal _ => None
  end.

Definition to_number (x : spec_float) : option Number.number := None.

End Num.

Declare Scope num_scope.
Delimit Scope num_scope with num.
Bind Scope num_scope with Num.number.
Bind Scope num_scope with spec_float.

Number Notation spec_float Num.of_number Num.to_number : num_scope.

Abbreviation number := Num.number.
Infix "+" := Num.add : num_scope.
Infix "-" := Num.sub : num_scope.
Infix "*" := Num.mul : num_scope.
Infix "/" := Num.div : num_scope.
Infix "<?" := Num.ltb : num_scope.
Infix "<=?" := Num.leb : num_scope.
Notation "x >? y" := (Num.ltb y x) (only parsing) : num_scope.
Notation "x >=? y" := (Num.leb y x) (only parsing) : num_scope.


(** ** The [Math] object

    [Math.floor], [Math.max] and [Math.min] follow the language standard:
    a NaN argument gives NaN, and [+0] is larger than [-0]. *)

(** [Math.floor] where the source stores the result in an integer field.
    The argument is finite at every use (a product of finite numbers of
    moderate size). *)
Definition floorZ (v : number) : Z :=
  match v with
  | S754_finite s m e =>
      let z := cond_Zopp s (Zpos m) in
      if 0 <=? e then z * 2 ^ e else z / 2 ^ (- e)
  | _ => 0
  end.

Definition Math_floor (v : number) : number :=
  match v with
  | S754_finite s m e =>
      if 0 <=? e then v else binary_normalize Num.prec Num.emax (floorZ v) 0 s
  | _ => v
  end.

Definition Math_max (a b : number) : number :=
  if Num.is_nan a || Num.is_nan b then Num.NaN
  else if (a <? b)%num then b
  else if (b <? a)%num then a
  else match a, b with
       | S754_zero true, S754_zero false => b
       | _, _ => a
       end.

Definition Math_min (a b : number) : number :=
  if Num.is_nan a || Num.is_nan b then Num.NaN
  else if (a <? b)%num then a
  else if (b <? a)%num then b
  else match a, b with
       | S754_zero false, S754_zero true => b
       | _, _ => a
       end.

Definition Math_PI : number := 3.141592653589793%num.

(** Arithmetic on numbers is computed on closed terms only. *)
Arguments Num.of_Z : simpl never.
Arguments Num.add : simpl never.
Arguments Num.sub : simpl never.
Arguments Num.mul : simpl never.
Arguments Num.div : simpl never.
Arguments Num.sqrt : simpl never.
Arguments Num.ltb : simpl never.
Arguments Num.leb : simpl never.
Arguments floorZ : simpl never.
Arguments Math_floor : simpl never.
Arguments Math_max : simpl never.
Arguments Math_min : simpl never.

(** The three methods whose results the standard leaves to the
    implementation. *)
Class MathLib := {
  Math_hypot : number -> number -> number;
  Math_cos : number -> number;
  Math_sin : number -> number
}.

(** ** Strings and numbers: [parseInt] and [String(n)] *)

(** The result of [parseInt]: an integer, or [NaN] when no digit was read. *)
Inductive jsint :=
  | IntNaN
  | Int (z : Z).

Definition is_whitespace (c : ascii) : bool :=
  let n := Z.of_N (N_of_ascii c) in
  (n =? 32) || ((9 <=? n) && (n <=? 13)).

Fixpoint trim_start (s : string) : string :=
  match s with
  | String c s' => if is_whitespace c then trim_start s' else s
  | EmptyString => s
  end.

(** The value of a character as a digit, in any radix up to 36. *)
Definition digit_value (c : ascii) : option Z :=
  let n := Z.of_N (N_of_ascii c) in
  if (48 <=? n) && (n <=? 57) then Some (n - 48)
  else if (97 <=? n) && (n <=? 122) then Some (n - 87)
  else if (65 <=? n) && (n <=? 90) then Some (n - 55)
  else None.

(** Reads the longest prefix of radix-[R] digits; [acc] is [None] until a
    digit has been read. *)
Fixpoint parse_digits (R : Z) (s : string) (acc : option Z) : option Z :=
  match s with
  | String c s' =>
      match digit_value c with
      | Some d =>
          if d <? R then parse_digits R s' (Some (default 0 acc * R + d))
          else acc
      | None => acc
      end
  | EmptyString => acc
  end.

(** [parseInt(s)] with no radix argument: leading white space is skipped, a
    sign is read, a [0x] or [0X] prefix selects radix 16, and the digits that
    follow are read up to the first character that is not one. *)
Definition parseInt (s : string) : jsint :=
  let s := trim_start s in
  let '(sign, s) :=
    match s with
    | String "-" s' => (-1, s')
    | String "+" s' => (1, s')
    | _ => (1, s)
    end in
  let '(R, s) :=
    match s with
    | String "0" (String "x" s') => (16, s')
    | String "0" (String "X" s') => (16, s')
    | _ => (10, s)
    end in
  match parse_digits R s None with
  | Some n => Int (sign * n)
  | None => IntNaN
  end.

(** [String(n)] for an integer [n], as [localStorage.setItem] applies it to
    its second argument. *)
Definition Number_toString (z : Z) : string :=
  DecimalString.NilZero.string_of_int (Z.to_int z).


(** ** Data model *)

Module Player.
Record t := mk {
  x : Z;
  y : Z;
  hp : number;
  maxHp : Z;
  level : Z;
  xp : Z;
  xpNext : Z;
  speed : Z;
  width : Z;
  height : Z;
  facingLeft : bool;
  (** [invulnerable] is absent from the object until the first hit or nap. *)
  invulnerable : option Z
}.

Definition set_x v p :=
  mk v (y p) (hp p) (maxHp p) (level p) (xp p) (xpNext p) (speed p)
     (width p) (height p) (facingLeft p) (invulnerable p).
Definition set_y v p :=
  mk (x p) v (hp p) (maxHp p) (level p) (xp p) (xpNext p) (speed p)
     (width p) (height p) (facingLeft p) (invulnerable p).
Definition set_hp v p :=
  mk (x p) (y p) v (maxHp p) (level p) (xp p) (xpNext p) (speed p)
     (width p) (height p) (facingLeft p) (invulnerable p).
Definition set_maxHp v p :=
  mk (x p) (y p) (hp p) v (level p) (xp p) (xpNext p) (speed p)
     (width p) (height p) (facingLeft p) (invulnerable p).
Definition set_level v p :=
  mk (x p) (y p) (hp p) (maxHp p) v (xp p) (xpNext p) (speed p)
     (width p) (height p) (facingLeft p) (invulnerable p).
Definition set_xp v p :=
  mk (x p) (y p) (hp p) (maxHp p) (level p) v (xpNext p) (speed p)
     (width p) (height p) (facingLeft p) (invulnerable p).
Definition set_xpNext v p :=
  mk (x p) (y p) (hp p) (maxHp p) (level p) (xp p) v (speed p)
     (width p) (height p) (facingLeft p) (invulnerable p).
Definition set_facingLeft v p :=
  mk (x p) (y p) (hp p) (maxHp p) (level p) (xp p) (xpNext p) (speed p)
     (width p) (height p) v (invulnerable p).
Definition set_invulnerable v p :=
  mk (x p) (y p) (hp p) (maxHp p) (level p) (xp p) (xpNext p) (speed p)
     (width p) (height p) (facingLeft p) v.

(** The object literal of [gameState.player], as [startGame] rebuilds it. *)
Definition initial : t :=
  mk 600 400 100%num 100 1 0 10 3 38 38 false None.
End Player.

Module GameState.
Record t := mk {
  player : Player.t;
  time : Z;
  kills : Z;
  paused : bool;
  gameOver : bool
}.

Definition set_player v g := mk v (time g) (kills g) (paused g) (gameOver g).
Definition set_time v g := mk (player g) v (kills g) (paused g) (gameOver g).
Definition set_kills v g := mk (player g) (time g) v (paused g) (gameOver g).
Definition set_paused v g := mk (player g) (time g) (kills g) v (gameOver g).
Definition set_gameOver v g := mk (player g) (time g) (kills g) (paused g) v.

Definition initial : t := mk Player.initial 0 0 false false.
End GameState.

(** The keys of the [abilities] object, in the order of the literal (the
    order in which [Object.entries] and [Object.values] enumerate them). *)
Inductive AbilityKey :=
  | ClawOrbit
  | WhiskerWhip
  | HairballBurst
  | PawSlam
  | CatNap.

#[global] Instance AbilityKey_eq_dec : EqDecision AbilityKey.
Proof. solve_decision. Defined.

Definition ability_keys : list AbilityKey :=
  [ClawOrbit; WhiskerWhip; HairballBurst; PawSlam; CatNap].

Module Claw.
Record t := mk {
  angle : number;
  distance : number;
  (** [x] and [y] are absent until [updateAbilities] writes them; an absent
      coordinate reads as NaN in the arithmetic that uses it. *)
  x : number;
  y : number
}.
End Claw.

(** The fields of [abilities] that the program writes.  The other fields of
    the literal are never assigned; they are the constants below. *)
Module Abilities.
Record t := mk {
  clawOrbit_level : Z;
  clawOrbit_claws : list Claw.t;
  clawOrbit_rotation : number;
  whiskerWhip_level : Z;
  whiskerWhip_cooldown : number;
  hairballBurst_level : Z;
  hairballBurst_cooldown : number;
  pawSlam_level : Z;
  pawSlam_cooldown : number;
  catNap_level : Z;
  catNap_cooldown : number
}.

Definition level (k : AbilityKey) (a : t) : Z :=
  match k with
  | ClawOrbit => clawOrbit_level a
  | WhiskerWhip => whiskerWhip_level a
  | HairballBurst => hairballBurst_level a
  | PawSlam => pawSlam_level a
  | CatNap => catNap_level a
  end.

Definition set_level (k : AbilityKey) (v : Z) (a : t) : t :=
  match k with
  | ClawOrbit =>
      mk v (clawOrbit_claws a) (clawOrbit_rotation a)
         (whiskerWhip_level a) (whiskerWhip_cooldown a)
         (hairballBurst_level a) (hairballBurst_cooldown a)
         (pawSlam_level a) (pawSlam_cooldown a)
         (catNap_level a) (catNap_cooldown a)
  | WhiskerWhip =>
      mk (clawOrbit_level a) (clawOrbit_claws a) (clawOrbit_rotation a)
         v (whiskerWhip_cooldown a)
         (hairballBurst_level a) (hairballBurst_cooldown a)
         (pawSlam_level a) (pawSlam_cooldown a)
         (catNap_level a) (catNap_cooldown a)
  | HairballBurst =>
      mk (clawOrbit_level a) (clawOrbit_claws a) (clawOrbit_rotation a)
         (whiskerWhip_level a) (whiskerWhip_cooldown a)
         v (hairballBurst_cooldown a)
         (pawSlam_level a) (pawSlam_cooldown a)
         (catNap_level a) (catNap_cooldown a)
  | PawSlam =>
      mk (clawOrbit_level a) (clawOrbit_claws a) (clawOrbit_rotation a)
         (whiskerWhip_level a) (whiskerWhip_cooldown a)
         (hairballBurst_level a) (hairballBurst_cooldown a)
         v (pawSlam_cooldown a)
         (catNap_level a) (catNap_cooldown a)
  | CatNap =>
      mk (clawOrbit_level a) (clawOrbit_claws a) (clawOrbit_rotation a)
         (whiskerWhip_level a) (whiskerWhip_cooldown a)
         (hairballBurst_level a) (hairballBurst_cooldown a)
         (pawSlam_level a) (pawSlam_cooldown a)
         v (catNap_cooldown a)
  end.

(** [cooldown] of an ability; Claw Orbit has none in the literal and a
    zero after [startGame], which read alike in [cooldown > 0]. *)
Definition cooldown (k : AbilityKey) (a : t) : number :=
  match k with
  | ClawOrbit => 0%num
  | WhiskerWhip => whiskerWhip_cooldown a
  | HairballBurst => hairballBurst_cooldown a
  | PawSlam => pawSlam_cooldown a
  | CatNap => catNap_cooldown a
  end.

Definition set_cooldown (k : AbilityKey) (v : number) (a : t) : t :=
  match k with
  | ClawOrbit => a
  | WhiskerWhip =>
      mk (clawOrbit_level a) (clawOrbit_claws a) (clawOrbit_rotation a)
         (whiskerWhip_level a) v
         (hairballBurst_level a) (hairballBurst_cooldown a)
         (pawSlam_level a) (pawSlam_cooldown a)
         (catNap_level a) (catNap_cooldown a)
  | HairballBurst =>
      mk (clawOrbit_level a) (clawOrbit_claws a) (clawOrbit_rotation a)
         (whiskerWhip_level a) (whiskerWhip_cooldown a)
         (hairballBurst_level a) v
         (pawSlam_level a) (pawSlam_cooldown a)
         (catNap_level a) (catNap_cooldown a)
  | PawSlam =>
      mk (clawOrbit_level a) (clawOrbit_claws a) (clawOrbit_rotation a)
         (whiskerWhip_level a) (whiskerWhip_cooldown a)
         (hairballBurst_level a) (hairballBurst_cooldown a)
         (pawSlam_level a) v
         (catNap_level a) (catNap_cooldown a)
  | CatNap =>
      mk (clawOrbit_level a) (clawOrbit_claws a) (clawOrbit_rotation a)
         (whiskerWhip_level a) (whiskerWhip_cooldown a)
         (hairballBurst_level a) (hairballBurst_cooldown a)
         (pawSlam_level a) (pawSlam_cooldown a)
         (catNap_level a) v
  end.

Definition set_claws (v : list Claw.t) (a : t) : t :=
  mk (clawOrbit_level a) v (clawOrbit_rotation a)
     (whiskerWhip_level a) (whiskerWhip_cooldown a)
     (hairballBurst_level a) (hairballBurst_cooldown a)
     (pawSlam_level a) (pawSlam_cooldown a)
     (catNap_level a) (catNap_cooldown a).

Definition set_rotation (v : number) (a : t) : t :=
  mk (clawOrbit_level a) (clawOrbit_claws a) v
     (whiskerWhip_level a) (whiskerWhip_cooldown a)
     (hairballBurst_level a) (hairballBurst_cooldown a)
     (pawSlam_level a) (pawSlam_cooldown a)
     (catNap_level a) (catNap_cooldown a).

(** The constant fields of the literal. *)
Definition name (k : AbilityKey) : string :=
  match k with
  | ClawOrbit => "Claw Orbit"
  | WhiskerWhip => "Whisker Whip"
  | HairballBurst => "Hairball Burst"
  | PawSlam => "Paw Slam"
  | CatNap => "Cat Nap"
  end.

Definition maxLevel (k : AbilityKey) : Z := 5.

Definition descriptions (k : AbilityKey) : list string :=
  match k with
  | ClawOrbit =>
      ["2 claws rotate steadily"; "Claws rotate faster, +25% damage";
       "Adds 2 more claws (total 4)"; "Claws grow larger, +30% damage";
       "Max speed, claws leave damaging afterimages"]
  | WhiskerWhip =>
      ["Fires a whip forward every 2 seconds"; "Cooldown reduced";
       "Whip length increased"; "Hits pierce through multiple enemies";
       "Whip splits into two directions"]
  | HairballBurst =>
      ["Fires one hairball in random direction"; "Damage increased";
       "+1 extra hairball"; "Hairballs bounce once after hitting";
       "Hairballs explode into fragments"]
  | PawSlam =>
      ["Small AoE slam around the cat"; "Damage +20%"; "Larger radius";
       "Leaves burning paw print"; "Double slam (hits twice)"]
  | CatNap =>
      ["Recover small HP after 30 sec"; "Also reduces damage taken by 5%";
       "Heal amount increased"; "Gain brief invulnerability after napping";
       "Auto-heal every 20 sec"]
  end.

Definition clawOrbit_damage : number := 12.
Definition clawOrbit_speed : number := 2.2.
Definition whiskerWhip_maxCooldown : number := 120.
Definition whiskerWhip_damage : number := 25.
Definition hairballBurst_maxCooldown : number := 180.
Definition hairballBurst_damage : number := 20.
Definition pawSlam_maxCooldown : number := 150.
Definition pawSlam_damage : number := 30.
Definition pawSlam_radius : number := 60.
Definition catNap_maxCooldown : number := 1800.
Definition catNap_healing : number := 20.

(** The literal: Claw Orbit at level 1, the others at level 0. *)
Definition initial : t := mk 1 [] 0 0 0 0 0 0 0 0 0.
End Abilities.

Inductive EnemyType :=
  | rat
  | dog
  | crow.

#[global] Instance EnemyType_eq_dec : EqDecision EnemyType.
Proof. solve_decision. Defined.

(** The blueprints of [enemyTypes]. *)
Module EnemyTemplate.
Record t := mk {
  name : string;
  hp : number;
  speed : number;
  damage : number;
  color : string;
  size : number;
  xpValue : number
}.
End EnemyTemplate.

Definition enemyTypes (ty : EnemyType) : EnemyTemplate.t :=
  match ty with
  | rat => EnemyTemplate.mk "Street Rat" 12 0.7 2 "#8B4513" 8 2
  | dog => EnemyTemplate.mk "Stray Dog" 30 1.5 6 "#654321" 12 4
  | crow => EnemyTemplate.mk "Cursed Crow" 40 1.2 5 "#2F2F2F" 10 6
  end.

Module Enemy.
Record t := mk {
  x : number;
  y : number;
  hp : number;
  maxHp : number;
  speed : number;
  damage : number;
  color : string;
  size : number;
  xpValue : Z;
  type : EnemyType;
  wave : Z;
  facingLeft : bool
}.

Definition set_x v e :=
  mk v (y e) (hp e) (maxHp e) (speed e) (damage e) (color e) (size e)
     (xpValue e) (type e) (wave e) (facingLeft e).
Definition set_y v e :=
  mk (x e) v (hp e) (maxHp e) (speed e) (damage e) (color e) (size e)
     (xpValue e) (type e) (wave e) (facingLeft e).
Definition set_hp v e :=
  mk (x e) (y e) v (maxHp e) (speed e) (damage e) (color e) (size e)
     (xpValue e) (type e) (wave e) (facingLeft e).
Definition set_facingLeft v e :=
  mk (x e) (y e) (hp e) (maxHp e) (speed e) (damage e) (color e) (size e)
     (xpValue e) (type e) (wave e) v.
End Enemy.

Inductive ProjectileType :=
  | whip
  | hairball.

Module Projectile.
Record t := mk {
  x : number;
  y : number;
  dx : number;
  dy : number;
  damage : number;
  (** Hairballs have no [range]; a comparison with an absent range is
      false. *)
  range : option Z;
  (** An absent flag reads as false. *)
  pierce : bool;
  bounce : bool;
  explode : bool;
  type : ProjectileType;
  life : Z
}.

Definition set_x v p :=
  mk v (y p) (dx p) (dy p) (damage p) (range p) (pierce p) (bounce p)
     (explode p) (type p) (life p).
Definition set_y v p :=
  mk (x p) v (dx p) (dy p) (damage p) (range p) (pierce p) (bounce p)
     (explode p) (type p) (life p).
Definition set_life v p :=
  mk (x p) (y p) (dx p) (dy p) (damage p) (range p) (pierce p) (bounce p)
     (explode p) (type p) v.
End Projectile.

Module XPOrb.
Record t := mk {
  x : number;
  y : number;
  value : Z;
  life : Z
}.

Definition set_x v o := mk v (y o) (value o) (life o).
Definition set_y v o := mk (x o) v (value o) (life o).
Definition set_life v o := mk (x o) (y o) (value o) v.
End XPOrb.

Module Particle.
Record t := mk {
  x : Z;
  y : Z;
  radius : number;
  life : Z
  (** [type] is always ['slam']. *)
}.

Definition set_life v p := mk (x p) (y p) (radius p) v.
End Particle.

(** A button of the level-up modal. *)
Module Upgrade.
Record t := mk {
  key : AbilityKey;
  name : string;
  (** [descriptions[level]], absent when [level] is not an index. *)
  description : option string;
  isNew : bool
}.
End Upgrade.

Module Canvas.
Record t := mk {
  width : Z;
  height : Z
}.
End Canvas.

(** ** Arrays of objects

    An array holds references; the objects live in a store that only grows.
    [splice] removes a reference and leaves the object where it is, so a
    callback that still holds the object goes on reading and writing it. *)
Module Arr.
Record t (A : Type) := mk {
  store : list A;
  refs : list nat
}.
Arguments mk {A} _ _.
Arguments store {A} _.
Arguments refs {A} _.

Section Ops.
Context {A : Type}.

Definition empty : t A := mk [] [].

(** [a.length] *)
Definition length (a : t A) : nat := List.length (refs a).

(** The object behind a reference. *)
Definition get (r : nat) (a : t A) : option A := store a !! r.

(** A write to a field of the object behind [r]. *)
Definition modify (r : nat) (f : A -> A) (a : t A) : t A :=
  mk (alter f r (store a)) (refs a).

(** [a.push(x)] with [x] a fresh object. *)
Definition push (x : A) (a : t A) : t A :=
  mk (store a ++ [x]) (refs a ++ [List.length (store a)]).

(** [a.splice(i, 1)] for an index [i >= 0]; nothing is removed when
    [i] is not below the length. *)
Definition splice (i : nat) (a : t A) : t A :=
  mk (store a) (delete i (refs a)).

(** [a.length = 0] *)
Definition clear (a : t A) : t A := mk (store a) [].

(** The objects of the array, in order. *)
Definition elems (a : t A) : list A :=
  omap (fun r => store a !! r) (refs a).
End Ops.
End Arr.

(** ** The world: every variable of the script that the simulation uses *)

Module World.
Record t := mk {
  gameState : GameState.t;
  abilities : Abilities.t;
  enemies : Arr.t Enemy.t;
  projectiles : Arr.t Projectile.t;
  xpOrbs : Arr.t XPOrb.t;
  particles : Arr.t Particle.t;
  (** The callbacks handed to [setTimeout] and not yet run: the enemy
      each one captured and the amount it will take from its [hp]. *)
  timers : list (nat * number);
  keys : gmap string bool;
  localStorage : gmap string string;
  (** The size of the canvas element, from the page that hosts the game. *)
  canvas : Canvas.t;
  (** [Math.random]: the value of each draw, and the draws made so far. *)
  random : nat -> number;
  randomCalls : nat;
  (** The buttons of the level-up modal; each one calls [selectUpgrade]
      with its key. *)
  upgradeChoices : list Upgrade.t
}.

Definition set_gameState (v : GameState.t) (w : t) : t :=
  mk v (abilities w) (enemies w) (projectiles w) (xpOrbs w) (particles w)
     (timers w) (keys w) (localStorage w) (canvas w) (random w)
     (randomCalls w) (upgradeChoices w).
Definition set_abilities (v : Abilities.t) (w : t) : t :=
  mk (gameState w) v (enemies w) (projectiles w) (xpOrbs w) (particles w)
     (timers w) (keys w) (localStorage w) (canvas w) (random w)
     (randomCalls w) (upgradeChoices w).
Definition set_enemies (v : Arr.t Enemy.t) (w : t) : t :=
  mk (gameState w) (abilities w) v (projectiles w) (xpOrbs w)
     (particles w) (timers w) (keys w) (localStorage w) (canvas w)
     (random w) (randomCalls w) (upgradeChoices w).
Definition set_projectiles (v : Arr.t Projectile.t) (w : t) : t :=
  mk (gameState w) (abilities w) (enemies w) v (xpOrbs w) (particles w)
     (timers w) (keys w) (localStorage w) (canvas w) (random w)
     (randomCalls w) (upgradeChoices w).
Definition set_xpOrbs (v : Arr.t XPOrb.t) (w : t) : t :=
  mk (gameState w) (abilities w) (enemies w) (projectiles w) v
     (particles w) (timers w) (keys w) (localStorage w) (canvas w)
     (random w) (randomCalls w) (upgradeChoices w).
Definition set_particles (v : Arr.t Particle.t) (w : t) : t :=
  mk (gameState w) (abilities w) (enemies w) (projectiles w) (xpOrbs w) v
     (timers w) (keys w) (localStorage w) (canvas w) (random w)
     (randomCalls w) (upgradeChoices w).
Definition set_timers (v : list (nat * number)) (w : t) : t :=
  mk (gameState w) (abilities w) (enemies w) (projectiles w) (xpOrbs w)
     (particles w) v (keys w) (localStorage w) (canvas w) (random w)
     (randomCalls w) (upgradeChoices w).
Definition set_localStorage (v : gmap string string) (w : t) : t :=
  mk (gameState w) (abilities w) (enemies w) (projectiles w) (xpOrbs w)
     (particles w) (timers w) (keys w) v (canvas w) (random w)
     (randomCalls w) (upgradeChoices w).
Definition set_randomCalls (v : nat) (w : t) : t :=
  mk (gameState w) (abilities w) (enemies w) (projectiles w) (xpOrbs w)
     (particles w) (timers w) (keys w) (localStorage w) (canvas w)
     (random w) v (upgradeChoices w).
Definition set_upgradeChoices (v : list Upgrade.t) (w : t) : t :=
  mk (gameState w) (abilities w) (enemies w) (projectiles w) (xpOrbs w)
     (particles w) (timers w) (keys w) (localStorage w) (canvas w)
     (random w) (randomCalls w) v.
End World.

(** ** Access paths used throughout *)

Definition player (w : World.t) : Player.t :=
  GameState.player (World.gameState w).

Definition set_player (p : Player.t) (w : World.t) : World.t :=
  World.set_gameState (GameState.set_player p (World.gameState w)) w.

Definition time (w : World.t) : Z := GameState.time (World.gameState w).
Definition kills (w : World.t) : Z := GameState.kills (World.gameState w).
Definition paused (w : World.t) : bool := GameState.paused (World.gameState w).

Definition set_paused (b : bool) (w : World.t) : World.t :=
  World.set_gameState (GameState.set_paused b (World.gameState w)) w.

Definition level_of (k : AbilityKey) (w : World.t) : Z :=
  Abilities.level k (World.abilities w).

Definition modify_enemy (r : nat) (f : Enemy.t -> Enemy.t) (w : World.t) : World.t :=
  World.set_enemies (Arr.modify r f (World.enemies w)) w.

Definition modify_projectile (r : nat) (f : Projectile.t -> Projectile.t)
    (w : World.t) : World.t :=
  World.set_projectiles (Arr.modify r f (World.projectiles w)) w.

Definition modify_xpOrb (r : nat) (f : XPOrb.t -> XPOrb.t) (w : World.t) : World.t :=
  World.set_xpOrbs (Arr.modify r f (World.xpOrbs w)) w.

Definition modify_particle (r : nat) (f : Particle.t -> Particle.t)
    (w : World.t) : World.t :=
  World.set_particles (Arr.modify r f (World.particles w)) w.

(** [setTimeout(() => { enemy.hp -= amount }, delay)] *)
Definition setTimeout (r : nat) (amount : number) (w : World.t) : World.t :=
  World.set_timers (World.timers w ++ [(r, amount)]) w.

(** The [i]-th pending callback runs: it writes to the enemy it captured,
    whether or not that enemy is still in the array. *)
Definition runTimer (i : nat) (w : World.t) : World.t :=
  match World.timers w !! i with
  | Some (r, amount) =>
      let w := modify_enemy r (fun e => Enemy.set_hp (Enemy.hp e - amount)%num e) w in
      World.set_timers (delete i (World.timers w)) w
  | None => w
  end.

(** [Math.random()] *)
Definition Math_random (w : World.t) : number * World.t :=
  (World.random w (World.randomCalls w),
   World.set_randomCalls (S (World.randomCalls w)) w).

(** ** [Array.prototype.forEach]

    The length is read once; index [k] is visited only if the array still
    has an element there when its turn comes, and the callback receives that
    element and [k].  Elements that a [splice] moved below [k] are skipped. *)
Section ForEach.
Context {A : Type} (arr : World.t -> Arr.t A).
Variable callback : nat -> nat -> World.t -> World.t.

Fixpoint forEach_from (n k : nat) (w : World.t) : World.t :=
  match n with
  | O => w
  | S n' =>
      let w' :=
        match Arr.refs (arr w) !! k with
        | Some r => callback r k w
        | None => w
        end in
      forEach_from n' (S k) w'
  end.

Definition forEach (w : World.t) : World.t :=
  forEach_from (Arr.length (arr w)) 0 w.
End ForEach.

(** Indexing and [splice(i, 1)] on a plain array, for an index computed at
    run time: a negative index reads as absent, and [splice] counts a
    negative start from the end. *)
Definition array_get {A} (l : list A) (i : Z) : option A :=
  if i <? 0 then None else l !! Z.to_nat i.

Definition array_splice1 {A} (i : Z) (l : list A) : list A :=
  let len := Z.of_nat (length l) in
  let start := if i <? 0 then Z.max (len + i) 0 else Z.min i len in
  delete (Z.to_nat start) l.

(** ** [initClawOrbit] *)
Definition initClawOrbit (w : World.t) : World.t :=
  let a := World.abilities w in
  let clawCount := if Abilities.clawOrbit_level a >=? 3 then 4 else 2 in
  let claws :=
    (fun i : Z =>
       Claw.mk (Math_PI * 2 / Num.of_Z clawCount * Num.of_Z i)%num 55
               Num.NaN Num.NaN) <$> seqZ 0 clawCount in
  World.set_abilities (Abilities.set_claws claws a) w.

(** ** [updatePlayer] *)

(** [keys[k]] as a condition: an absent key is falsy. *)
Definition key_down (k : string) (w : World.t) : bool :=
  default false (World.keys w !! k).

Definition updatePlayer (w : World.t) : World.t :=
  let p := player w in
  let p := if key_down "w" w || key_down "arrowup" w
           then Player.set_y (Player.y p - Player.speed p) p else p in
  let p := if key_down "s" w || key_down "arrowdown" w
           then Player.set_y (Player.y p + Player.speed p) p else p in
  let p := if key_down "a" w || key_down "arrowleft" w
           then Player.set_facingLeft true
                  (Player.set_x (Player.x p - Player.speed p) p)
           else p in
  let p := if key_down "d" w || key_down "arrowright" w
           then Player.set_facingLeft false
                  (Player.set_x (Player.x p + Player.speed p) p)
           else p in
  let c := World.canvas w in
  let p := Player.set_x (Z.max 30 (Z.min (Canvas.width c - 30) (Player.x p))) p in
  let p := Player.set_y (Z.max 30 (Z.min (Canvas.height c - 30) (Player.y p))) p in
  set_player p w.

(** ** [catNap] *)
Definition catNap (w : World.t) : World.t :=
  let lvl := level_of CatNap w in
  let healing := Abilities.catNap_healing in
  let healing := if lvl >=? 3 then (healing * 1.5)%num else healing in
  let p := player w in
  let w := set_player (Player.set_hp (Math_min 100 (Player.hp p + healing)%num) p) w in
  if lvl >=? 4
  then set_player (Player.set_invulnerable (Some 180) (player w)) w
  else w.

(** ** [spawnEnemies] *)

(** The cap computed at the top of [spawnEnemies]. *)
Definition maxEnemies (w : World.t) : Z :=
  let baseEnemyCap := 15 in
  let timeCap := time w / 1800 * 5 in
  let levelCap := Player.level (player w) / 3 * 3 in
  Z.min (baseEnemyCap + timeCap + levelCap) 50.

Definition spawnEnemies (w : World.t) : World.t :=
  let maxEnemies := maxEnemies w in
  if Z.of_nat (Arr.length (World.enemies w)) >=? maxEnemies then w else
  let level := Player.level (player w) in
  let waveNumber := time w / 1500 + 1 in
  let currentWaveTime := Z.rem (time w) 1500 in
  let isWaveStart := currentWaveTime <? 600 in
  let waveMultiplier := if isWaveStart then 2.0%num else 1.0%num in
  let baseSpawnRate := 0.008%num in
  let waveScaling := Math_min (Num.of_Z waveNumber * 0.002)%num 0.015 in
  let levelMultiplier := Math_min (Num.of_Z level * 0.002)%num 0.020 in
  let finalSpawnRate :=
    ((baseSpawnRate + waveScaling + levelMultiplier) * waveMultiplier)%num in
  let '(r, w) := Math_random w in
  if negb (r <? finalSpawnRate)%num then w else
  let dogUnlockWave := 2 in
  let crowUnlockWave := 4 in
  let '(selectedType, w) :=
    if (waveNumber >=? crowUnlockWave) && (level >=? 5) then
      let '(rand, w) := Math_random w in
      (if (rand <? 0.4)%num then rat
       else if (rand <? 0.7)%num then dog
       else crow, w)
    else if (waveNumber >=? dogUnlockWave) && (level >=? 2) then
      let '(rand, w) := Math_random w in
      (if (rand <? 0.6)%num then rat else dog, w)
    else (rat, w) in
  let enemyTemplate := enemyTypes selectedType in
  let waveScaling := (1 + Num.of_Z (waveNumber - 1) * 0.12)%num in
  let levelScaling := (1 + Num.of_Z (level - 1) * 0.05)%num in
  let totalScaling := (waveScaling * levelScaling)%num in
  let '(r, w) := Math_random w in
  let side := floorZ (r * 4)%num in
  let width := Num.of_Z (Canvas.width (World.canvas w)) in
  let height := Num.of_Z (Canvas.height (World.canvas w)) in
  let '(x, y, w) :=
    match side with
    | 0 => let '(r, w) := Math_random w in ((r * width)%num, (-20)%num, w)
    | 1 => let '(r, w) := Math_random w in ((width + 20)%num, (r * height)%num, w)
    | 2 => let '(r, w) := Math_random w in ((r * width)%num, (height + 20)%num, w)
    | 3 => let '(r, w) := Math_random w in ((-20)%num, (r * height)%num, w)
    | _ => (Num.NaN, Num.NaN, w)
    end in
  let enemy :=
    Enemy.mk x y
      (Math_floor (EnemyTemplate.hp enemyTemplate * totalScaling)%num)
      (Math_floor (EnemyTemplate.hp enemyTemplate * totalScaling)%num)
      (EnemyTemplate.speed enemyTemplate * Math_min totalScaling 2.5)%num
      (Math_floor (EnemyTemplate.damage enemyTemplate * totalScaling)%num)
      (EnemyTemplate.color enemyTemplate)
      (EnemyTemplate.size enemyTemplate)
      (floorZ (EnemyTemplate.xpValue enemyTemplate * Math_max totalScaling 1.2)%num)
      selectedType waveNumber false in
  World.set_enemies (Arr.push enemy (World.enemies w)) w.

(** ** [dropXP] *)
Definition dropXP (x y : number) (value : Z) (w : World.t) : World.t :=
  let '(r, w) := Math_random w in
  if (r <? 0.5)%num
  then World.set_xpOrbs (Arr.push (XPOrb.mk x y value 600) (World.xpOrbs w)) w
  else w.

(** ** [getHighScore] and [gameOver] *)

(** [localStorage.getItem(k) || '0']: an absent item is [null] and the empty
    string is falsy; both select ['0']. *)
Definition getHighScore (w : World.t) : jsint :=
  parseInt
    match World.localStorage w !! "catto_highscore" with
    | Some (String c s) => String c s
    | Some EmptyString | None => "0"
    end.

(** [n > h] for an integer [n] and a result of [parseInt]; a comparison with
    NaN is false. *)
Definition gt_jsint (n : Z) (h : jsint) : bool :=
  match h with
  | Int m => m <? n
  | IntNaN => false
  end.

Definition gameOver (w : World.t) : World.t :=
  let w := World.set_gameState (GameState.set_gameOver true (World.gameState w)) w in
  let finalScore := kills w in
  let currentHighScore := getHighScore w in
  if gt_jsint finalScore currentHighScore
  then World.set_localStorage
         (<["catto_highscore" := Number_toString finalScore]> (World.localStorage w)) w
  else w.

(** ** [showLevelUpModal], [levelUp] and [selectUpgrade] *)

(** The first loop of [showLevelUpModal]: the upgrades on offer. *)
Definition availableUpgrades (a : Abilities.t) : list Upgrade.t :=
  (fun key =>
     Upgrade.mk key (Abilities.name key)
       (array_get (Abilities.descriptions key) (Abilities.level key a))
       (Abilities.level key a =? 0))
    <$> filter (fun key => Abilities.level key a < Abilities.maxLevel key)
               ability_keys.

(** The [while] loop of [showLevelUpModal].  Every turn pushes one entry on
    [selectedUpgrades], so the loop makes at most [2 - selectedUpgrades.length]
    turns; [turns] counts them down.  An index outside [availableUpgrades]
    pushes [undefined], here [None]. *)
Fixpoint drawUpgrades (turns : nat) (availableUpgrades : list Upgrade.t)
    (selectedUpgrades : list (option Upgrade.t)) (w : World.t)
    : list (option Upgrade.t) * World.t :=
  match turns with
  | O => (selectedUpgrades, w)
  | S turns' =>
      if 0 <? Z.of_nat (length availableUpgrades) then
        let '(r, w) := Math_random w in
        let randomIndex :=
          floorZ (r * Num.of_Z (Z.of_nat (length availableUpgrades)))%num in
        let selectedUpgrades :=
          selectedUpgrades ++ [array_get availableUpgrades randomIndex] in
        let availableUpgrades := array_splice1 randomIndex availableUpgrades in
        drawUpgrades turns' availableUpgrades selectedUpgrades w
      else (selectedUpgrades, w)
  end.

(** The last loop of [showLevelUpModal] makes one button per selected
    upgrade.  It reads [upgrade.name], so it cannot go past an [undefined]
    entry; [Math.random] never produces one (its values are below 1). *)
Fixpoint buttons (selectedUpgrades : list (option Upgrade.t)) : list Upgrade.t :=
  match selectedUpgrades with
  | Some upgrade :: rest => upgrade :: buttons rest
  | None :: _ | [] => []
  end.

Definition showLevelUpModal (w : World.t) : World.t :=
  let w := set_paused true w in
  let availableUpgrades := availableUpgrades (World.abilities w) in
  let '(selectedUpgrades, w) := drawUpgrades 2 availableUpgrades [] w in
  World.set_upgradeChoices (buttons selectedUpgrades) w.

Definition levelUp (w : World.t) : World.t :=
  let p := player w in
  let p := Player.set_level (Player.level p + 1) p in
  let p := Player.set_xp (Player.xp p - Player.xpNext p) p in
  let p :=
    if Player.level p <=? 5
    then Player.set_xpNext (floorZ (Num.of_Z (Player.xpNext p) * 1.12)%num) p
    else if Player.level p <=? 10
    then Player.set_xpNext (floorZ (Num.of_Z (Player.xpNext p) * 1.15)%num) p
    else Player.set_xpNext (floorZ (Num.of_Z (Player.xpNext p) * 1.18)%num) p in
  let p := Player.set_maxHp 100 p in
  let p := Player.set_hp (Math_min 100 (Player.hp p + 20)%num) p in
  showLevelUpModal (set_player p w).

Definition selectUpgrade (abilityKey : AbilityKey) (w : World.t) : World.t :=
  let a := World.abilities w in
  let w :=
    World.set_abilities
      (Abilities.set_level abilityKey (Abilities.level abilityKey a + 1) a) w in
  let w := if decide (abilityKey = ClawOrbit) then initClawOrbit w else w in
  set_paused false w.

(** ** [updateParticles] *)
Definition updateParticles (w : World.t) : World.t :=
  forEach World.particles
    (fun particle index w =>
       let w := modify_particle particle
                  (fun p => Particle.set_life (Particle.life p - 1) p) w in
       match Arr.get particle (World.particles w) with
       | Some p =>
           if Particle.life p <=? 0
           then World.set_particles (Arr.splice index (World.particles w)) w
           else w
       | None => w
       end) w.

(** ** The functions that use [Math.hypot], [Math.cos] or [Math.sin] *)

Section Simulation.
Context {ML : MathLib}.

(** *** Abilities *)

Definition fireWhiskerWhip (w : World.t) : World.t :=
  let lvl := level_of WhiskerWhip w in
  let directions := if lvl >=? 5 then [0%num; Math_PI] else [0%num] in
  fold_left
    (fun w dir =>
       let p := player w in
       World.set_projectiles
         (Arr.push
            (Projectile.mk (Num.of_Z (Player.x p)) (Num.of_Z (Player.y p))
               (Math_cos dir * 4)%num (Math_sin dir * 4)%num
               Abilities.whiskerWhip_damage
               (Some (if lvl >=? 3 then 120 else 80))
               (lvl >=? 4) false false whip 0)
            (World.projectiles w)) w)
    directions w.

Definition fireHairball (w : World.t) : World.t :=
  let lvl := level_of HairballBurst w in
  let count := if lvl >=? 3 then 2%nat else 1%nat in
  fold_left
    (fun w (i : nat) =>
       let '(r, w) := Math_random w in
       let angle := (r * Math_PI * 2)%num in
       let damage := Abilities.hairballBurst_damage in
       let damage := if lvl >=? 2 then (damage * 1.5)%num else damage in
       let p := player w in
       World.set_projectiles
         (Arr.push
            (Projectile.mk (Num.of_Z (Player.x p)) (Num.of_Z (Player.y p))
               (Math_cos angle * 3)%num (Math_sin angle * 3)%num
               damage None false (lvl >=? 4) (lvl >=? 5) hairball 0)
            (World.projectiles w)) w)
    (seq 0 count) w.

Definition pawSlam (w : World.t) : World.t :=
  let lvl := level_of PawSlam w in
  let radius := Abilities.pawSlam_radius in
  let radius := if lvl >=? 3 then (radius * 1.5)%num else radius in
  let damage := Abilities.pawSlam_damage in
  let damage := if lvl >=? 2 then (damage * 1.2)%num else damage in
  let w :=
    forEach World.enemies
      (fun enemy _ w =>
         match Arr.get enemy (World.enemies w) with
         | Some e =>
             let p := player w in
             let dist := Math_hypot (Enemy.x e - Num.of_Z (Player.x p))%num
                                    (Enemy.y e - Num.of_Z (Player.y p))%num in
             if (dist <=? radius)%num then
               let w := modify_enemy enemy
                          (fun e => Enemy.set_hp (Enemy.hp e - damage)%num e) w in
               if lvl >=? 5 then setTimeout enemy (damage * 0.5)%num w else w
             else w
         | None => w
         end) w in
  let p := player w in
  World.set_particles
    (Arr.push (Particle.mk (Player.x p) (Player.y p) radius 30)
              (World.particles w)) w.

Definition updateAbilities (w : World.t) : World.t :=
  (* Claw Orbit *)
  let w :=
    let a := World.abilities w in
    let lvl := Abilities.clawOrbit_level a in
    if lvl >? 0 then
      let speedMultiplier := if lvl >=? 2 then 2%num else 1%num in
      let finalSpeed := if lvl >=? 5 then 4%num else speedMultiplier in
      let rotation :=
        (Abilities.clawOrbit_rotation a
         + Abilities.clawOrbit_speed * finalSpeed * 0.02)%num in
      let p := player w in
      let claws :=
        (fun claw =>
           Claw.mk (Claw.angle claw) (Claw.distance claw)
             (Num.of_Z (Player.x p)
              + Math_cos (rotation + Claw.angle claw) * Claw.distance claw)%num
             (Num.of_Z (Player.y p)
              + Math_sin (rotation + Claw.angle claw) * Claw.distance claw)%num)
          <$> Abilities.clawOrbit_claws a in
      World.set_abilities
        (Abilities.set_claws claws (Abilities.set_rotation rotation a)) w
    else w in
  (* Update other ability cooldowns *)
  let w :=
    World.set_abilities
      (fold_left
         (fun a k =>
            if (Abilities.cooldown k a >? 0)%num
            then Abilities.set_cooldown k (Abilities.cooldown k a - 1)%num a
            else a)
         ability_keys (World.abilities w)) w in
  (* Whisker Whip *)
  let w :=
    let a := World.abilities w in
    if (Abilities.whiskerWhip_level a >? 0)
       && (Abilities.whiskerWhip_cooldown a <=? 0)%num then
      let w := fireWhiskerWhip w in
      let cooldown := Abilities.whiskerWhip_maxCooldown in
      let cooldown :=
        if Abilities.whiskerWhip_level a >=? 2 then (cooldown * 0.7)%num
        else cooldown in
      World.set_abilities
        (Abilities.set_cooldown WhiskerWhip cooldown (World.abilities w)) w
    else w in
  (* Hairball Burst *)
  let w :=
    let a := World.abilities w in
    if (Abilities.hairballBurst_level a >? 0)
       && (Abilities.hairballBurst_cooldown a <=? 0)%num then
      let w := fireHairball w in
      World.set_abilities
        (Abilities.set_cooldown HairballBurst
           Abilities.hairballBurst_maxCooldown (World.abilities w)) w
    else w in
  (* Paw Slam *)
  let w :=
    let a := World.abilities w in
    if (Abilities.pawSlam_level a >? 0)
       && (Abilities.pawSlam_cooldown a <=? 0)%num then
      let w := pawSlam w in
      World.set_abilities
        (Abilities.set_cooldown PawSlam
           Abilities.pawSlam_maxCooldown (World.abilities w)) w
    else w in
  (* Cat Nap *)
  let a := World.abilities w in
  if (Abilities.catNap_level a >? 0)
     && (Abilities.catNap_cooldown a <=? 0)%num then
    let w := catNap w in
    let cooldown := Abilities.catNap_maxCooldown in
    let cooldown := if Abilities.catNap_level a >=? 5 then 1200%num else cooldown in
    World.set_abilities
      (Abilities.set_cooldown CatNap cooldown (World.abilities w)) w
  else w.

(** *** [updateEnemies] *)

(** [!gameState.player.invulnerable || gameState.player.invulnerable <= 0] *)
Definition not_invulnerable (p : Player.t) : bool :=
  match Player.invulnerable p with
  | Some n => (n =? 0) || (n <=? 0)
  | None => true
  end.

(** The callback of [abilities.clawOrbit.claws.forEach] for one enemy. *)
Definition clawHit (enemy : nat) (w : World.t) (claw : Claw.t) : World.t :=
  match Arr.get enemy (World.enemies w) with
  | Some e =>
      let lvl := level_of ClawOrbit w in
      let clawDist := Math_hypot (Claw.x claw - Enemy.x e)%num
                                 (Claw.y claw - Enemy.y e)%num in
      let clawSize := if lvl >=? 4 then 20%num else 16%num in
      if (clawDist <? clawSize + Enemy.size e)%num then
        let damage := Abilities.clawOrbit_damage in
        let damage := if lvl >=? 2 then (damage * 1.25)%num else damage in
        let damage := if lvl >=? 4 then (damage * 1.3)%num else damage in
        let w :=
          if lvl >=? 5 then
            let afterimageDamage :=
              Math_floor (Abilities.clawOrbit_damage * 0.4)%num in
            setTimeout enemy afterimageDamage w
          else w in
        modify_enemy enemy (fun e => Enemy.set_hp (Enemy.hp e - damage)%num e) w
      else w
  | None => w
  end.

(** The callback of [enemies.forEach] in [updateEnemies]. *)
Definition updateEnemy (enemy index : nat) (w : World.t) : World.t :=
  match Arr.get enemy (World.enemies w) with
  | None => w
  | Some e =>
      (* Move towards player *)
      let dx := (Num.of_Z (Player.x (player w)) - Enemy.x e)%num in
      let dy := (Num.of_Z (Player.y (player w)) - Enemy.y e)%num in
      let dist := Math_hypot dx dy in
      let w :=
        if (dist >? 0)%num then
          modify_enemy enemy
            (fun e =>
               let e := Enemy.set_x (Enemy.x e + dx / dist * Enemy.speed e)%num e in
               let e := Enemy.set_y (Enemy.y e + dy / dist * Enemy.speed e)%num e in
               if decide (Enemy.type e = crow)
               then Enemy.set_facingLeft (dx <? 0)%num e
               else e) w
        else w in
      (* Check collision with player *)
      let w :=
        if (dist <? Enemy.size e + 20)%num then
          if not_invulnerable (player w) then
            let damageReduction :=
              if level_of CatNap w >=? 2 then 0.95%num else 1%num in
            let finalDamage :=
              Math_max 1 (Math_floor (Enemy.damage e * damageReduction)%num) in
            let p := player w in
            let p := Player.set_hp (Player.hp p - finalDamage)%num p in
            let p := Player.set_invulnerable (Some 60) p in
            let w := set_player p w in
            let w := World.set_enemies (Arr.splice index (World.enemies w)) w in
            if (Player.hp (player w) <=? 0)%num then gameOver w else w
          else w
        else w in
      (* Check collision with claws *)
      let w :=
        if level_of ClawOrbit w >? 0
        then fold_left (clawHit enemy)
               (Abilities.clawOrbit_claws (World.abilities w)) w
        else w in
      (* Remove dead enemies *)
      match Arr.get enemy (World.enemies w) with
      | Some e =>
          if (Enemy.hp e <=? 0)%num then
            let w := dropXP (Enemy.x e) (Enemy.y e) (Enemy.xpValue e) w in
            let w := World.set_enemies (Arr.splice index (World.enemies w)) w in
            World.set_gameState
              (GameState.set_kills (kills w + 1) (World.gameState w)) w
          else w
      | None => w
      end
  end.

Definition updateEnemies (w : World.t) : World.t :=
  let w := forEach World.enemies updateEnemy w in
  (* Update invulnerability *)
  match Player.invulnerable (player w) with
  | Some n =>
      if n >? 0
      then set_player (Player.set_invulnerable (Some (n - 1)) (player w)) w
      else w
  | None => w
  end.

(** *** [updateProjectiles] *)

(** The callback of the inner [enemies.forEach]: one projectile against
    one enemy. *)
Definition projectileHit (proj projIndex enemy enemyIndex : nat)
    (w : World.t) : World.t :=
  match Arr.get proj (World.projectiles w), Arr.get enemy (World.enemies w) with
  | Some p, Some e =>
      let dist := Math_hypot (Projectile.x p - Enemy.x e)%num
                             (Projectile.y p - Enemy.y e)%num in
      if (dist <? Enemy.size e + 5)%num then
        let w := modify_enemy enemy
                   (fun e => Enemy.set_hp (Enemy.hp e - Projectile.damage p)%num e) w in
        if negb (Projectile.pierce p)
        then World.set_projectiles (Arr.splice projIndex (World.projectiles w)) w
        else w
      else w
  | _, _ => w
  end.

(** [proj.life > proj.range] *)
Definition past_range (p : Projectile.t) : bool :=
  match Projectile.range p with
  | Some range => Projectile.life p >? range
  | None => false
  end.

(** The callback of [projectiles.forEach]. *)
Definition updateProjectile (proj projIndex : nat) (w : World.t) : World.t :=
  let w :=
    modify_projectile proj
      (fun p =>
         let p := Projectile.set_x (Projectile.x p + Projectile.dx p)%num p in
         let p := Projectile.set_y (Projectile.y p + Projectile.dy p)%num p in
         Projectile.set_life (Projectile.life p + 1) p) w in
  (* Check collision with enemies *)
  let w := forEach World.enemies (projectileHit proj projIndex) w in
  (* Remove projectiles that are too far *)
  match Arr.get proj (World.projectiles w) with
  | Some p =>
      let c := World.canvas w in
      if (Projectile.x p <? -50)%num
         || (Projectile.x p >? Num.of_Z (Canvas.width c + 50))%num
         || (Projectile.y p <? -50)%num
         || (Projectile.y p >? Num.of_Z (Canvas.height c + 50))%num
         || past_range p
      then World.set_projectiles (Arr.splice projIndex (World.projectiles w)) w
      else w
  | None => w
  end.

Definition updateProjectiles (w : World.t) : World.t :=
  forEach World.projectiles updateProjectile w.

(** *** [updateXP] *)

(** The callback of [xpOrbs.forEach]. *)
Definition updateXPOrb (orb index : nat) (w : World.t) : World.t :=
  match Arr.get orb (World.xpOrbs w) with
  | None => w
  | Some o =>
      let px := Num.of_Z (Player.x (player w)) in
      let py := Num.of_Z (Player.y (player w)) in
      (* Move towards player if close *)
      let dist := Math_hypot (XPOrb.x o - px)%num (XPOrb.y o - py)%num in
      let w :=
        if (dist <? 30)%num then
          let dx := (px - XPOrb.x o)%num in
          let dy := (py - XPOrb.y o)%num in
          modify_xpOrb orb
            (fun o =>
               let o := XPOrb.set_x (XPOrb.x o + dx * 0.1)%num o in
               XPOrb.set_y (XPOrb.y o + dy * 0.1)%num o) w
        else w in
      (* Collect XP *)
      let w :=
        if (dist <? 20)%num then
          let p := player w in
          let w := set_player (Player.set_xp (Player.xp p + XPOrb.value o) p) w in
          let w := World.set_xpOrbs (Arr.splice index (World.xpOrbs w)) w in
          if Player.xp (player w) >=? Player.xpNext (player w)
          then levelUp w
          else w
        else w in
      let w := modify_xpOrb orb (fun o => XPOrb.set_life (XPOrb.life o - 1) o) w in
      match Arr.get orb (World.xpOrbs w) with
      | Some o =>
          if XPOrb.life o <=? 0
          then World.set_xpOrbs (Arr.splice index (World.xpOrbs w)) w
          else w
      | None => w
      end
  end.

Definition updateXP (w : World.t) : World.t :=
  forEach World.xpOrbs updateXPOrb w.

(** *** [gameLoop]: one animation frame

    [render] and [updateUI] draw on the canvas and write text into the
    page; they assign nothing in the world.  [requestAnimationFrame] asks
    for the next frame, which is the next application of [gameLoop]. *)
Definition gameLoop (w : World.t) : World.t :=
  if GameState.gameOver (World.gameState w) then w else
  if negb (paused w) then
    let w := World.set_gameState
               (GameState.set_time (time w + 1) (World.gameState w)) w in
    let w := updatePlayer w in
    let w := updateAbilities w in
    let w := spawnEnemies w in
    let w := updateEnemies w in
    let w := updateProjectiles w in
    let w := updateXP w in
    updateParticles w
  else w.

(** *** [startGame] *)
Definition startGame (w : World.t) : World.t :=
  (* Reset game state *)
  let w := World.set_gameState GameState.initial w in
  (* Reset abilities *)
  let w :=
    World.set_abilities
      (fold_left
         (fun a k =>
            let a := Abilities.set_level k
                       (if String.eqb (Abilities.name k) "Claw Orbit" then 1 else 0) a in
            Abilities.set_cooldown k 0 a)
         ability_keys (World.abilities w)) w in
  (* Clear arrays *)
  let w := World.set_enemies (Arr.clear (World.enemies w)) w in
  let w := World.set_projectiles (Arr.clear (World.projectiles w)) w in
  let w := World.set_xpOrbs (Arr.clear (World.xpOrbs w)) w in
  let w := World.set_particles (Arr.clear (World.particles w)) w in
  (* Initialize claw orbit *)
  let w := initClawOrbit w in
  gameLoop w.

End Simulation.

(** ** One implementation of [MathLib], to run the functions

    [hypot] as the rounded square root of the rounded sum of squares, and
    [cos], [sin] as the Taylor polynomials of degree 20 and 21 after the
    argument is brought into [-pi, pi].  The theorems below hold for every
    implementation; this one evaluates the examples. *)
Definition hypot_sqrt (a b : number) : number :=
  Num.sqrt (a * a + b * b)%num.

(** [a] less the nearest multiple of [2 pi]. *)
Definition reduce_angle (a : number) : number :=
  (a - Math_floor (a / (2 * Math_PI) + 0.5) * (2 * Math_PI))%num.

Definition cos_taylor (a : number) : number :=
  let a2 := (reduce_angle a * reduce_angle a)%num in
  (1 - a2 / 2 * (1 - a2 / 12 * (1 - a2 / 30 * (1 - a2 / 56
     * (1 - a2 / 90 * (1 - a2 / 132 * (1 - a2 / 182 * (1 - a2 / 240
     * (1 - a2 / 306 * (1 - a2 / 380))))))))))%num.

Definition sin_taylor (a : number) : number :=
  let a2 := (reduce_angle a * reduce_angle a)%num in
  (reduce_angle a
   * (1 - a2 / 6 * (1 - a2 / 20 * (1 - a2 / 42 * (1 - a2 / 72
     * (1 - a2 / 110 * (1 - a2 / 156 * (1 - a2 / 210 * (1 - a2 / 272
     * (1 - a2 / 342 * (1 - a2 / 420)))))))))))%num.

Definition referenceMath : MathLib :=
  {| Math_hypot := hypot_sqrt; Math_cos := cos_taylor; Math_sin := sin_taylor |}.

(** ** Example worlds *)

Module Examples.

Definition canvas : Canvas.t := Canvas.mk 1200 800.

(** The world before the first frame: the literals of the script, an
    empty [localStorage], no key held, and an oracle that always draws
    [0.9]. *)
Definition fresh : World.t :=
  World.mk GameState.initial Abilities.initial
    Arr.empty Arr.empty Arr.empty Arr.empty
    [] ∅ ∅ canvas (fun _ => 0.9%num) 0 [].

(** A Street Rat with unscaled statistics at [(x, y)] and the given [hp]. *)
Definition rat_at (x y hp : number) : Enemy.t :=
  Enemy.mk x y hp 12 0.7 2 "#8B4513" 8 2 rat 1 false.

(** Two claws as [updateAbilities] leaves them at rotation 0 around a
    player at [(600, 400)]. *)
Definition claws : list Claw.t :=
  [Claw.mk 0 55 655 400; Claw.mk Math_PI 55 545 400].

(** A frame in play: a rat that a whip brought to [hp = -13] on the
    previous frame touches the player; a second, healthy rat is far away. *)
Definition contact_world : World.t :=
  World.mk
    (GameState.mk Player.initial 100 0 false false)
    (Abilities.set_claws claws Abilities.initial)
    (Arr.mk [rat_at 610 400 (-13); rat_at 100 100 12] [0%nat; 1%nat])
    Arr.empty Arr.empty Arr.empty
    [] ∅ ∅ canvas (fun _ => 0.9%num) 0 [].

(** A whip without pierce at [(100, 100)] moving right, a hairball far
    from every enemy, and two rats that the whip reaches after its move. *)
Definition whip_world : World.t :=
  World.mk
    (GameState.mk Player.initial 100 0 false false)
    (Abilities.set_claws claws Abilities.initial)
    (Arr.mk [rat_at 104 100 12; rat_at 106 102 12] [0%nat; 1%nat])
    (Arr.mk [Projectile.mk 100 100 4 0 25 (Some 80) false false false whip 0;
             Projectile.mk 500 500 3 0 20 None false false false hairball 0]
            [0%nat; 1%nat])
    Arr.empty Arr.empty
    [] ∅ ∅ canvas (fun _ => 0.9%num) 0 [].

(** A player who reached level 7 along the curve of [levelUp]
    (10, 11, 12, 13, 14, 16, 18) and holds enough experience for level 8. *)
Definition level7 : World.t :=
  set_player (Player.mk 600 400 100 100 7 18 18 3 38 38 false None) fresh.

(** The level-up modal is open: the frame is paused. *)
Definition paused_world : World.t := levelUp level7.

(** The stored high score is not a number. *)
Definition invalid_store : World.t :=
  World.set_localStorage (<["catto_highscore" := "abc"]> ∅) fresh.

(** The player dies with 7 kills over a stored high score of 5. *)
Definition seven_kills : World.t :=
  World.set_localStorage (<["catto_highscore" := "5"]> ∅)
    (World.set_gameState (GameState.mk Player.initial 5000 7 false false) fresh).

(** The player dies with 7 kills while the stored high score is not a
    number. *)
Definition seven_kills_invalid_store : World.t :=
  World.set_localStorage (<["catto_highscore" := "abc"]> ∅)
    (World.set_gameState (GameState.mk Player.initial 5000 7 false false) fresh).

(** An oracle whose every draw is [0.001]: the spawn test succeeds. *)
Definition eager_spawn : World.t :=
  World.mk GameState.initial Abilities.initial
    Arr.empty Arr.empty Arr.empty Arr.empty
    [] ∅ ∅ canvas (fun _ => 0.001%num) 0 [].

(** The up and left keys are held. *)
Definition keys_held : World.t :=
  World.mk GameState.initial Abilities.initial
    Arr.empty Arr.empty Arr.empty Arr.empty
    [] (<["arrowup" := true]> (<["a" := true]> ∅)) ∅ canvas
    (fun _ => 0.9%num) 0 [].

(** Every ability is at its maximum level, and the player holds enough
    experience for the next level. *)
Definition all_maxed : World.t :=
  World.set_abilities (Abilities.mk 5 claws 0 5 0 5 0 5 0 5 0) level7.

(** The frame of [contact_world] with a healthy rat in contact and the
    player invulnerable for 30 more frames. *)
Definition shielded_contact : World.t :=
  World.mk
    (GameState.mk (Player.set_invulnerable (Some 30) Player.initial) 100 0 false false)
    (Abilities.set_claws claws Abilities.initial)
    (Arr.mk [rat_at 610 400 12] [0%nat])
    Arr.empty Arr.empty Arr.empty
    [] ∅ ∅ canvas (fun _ => 0.9%num) 0 [].

(** A healthy rat touches a player who has one hit point left. *)
Definition last_hit : World.t :=
  World.mk
    (GameState.mk (Player.set_hp 1%num Player.initial) 100 0 false false)
    (Abilities.set_claws claws Abilities.initial)
    (Arr.mk [rat_at 610 400 12] [0%nat])
    Arr.empty Arr.empty Arr.empty
    [] ∅ ∅ canvas (fun _ => 0.9%num) 0 [].

(** Cat Nap is at level 4, its cooldown has run out, and a healthy rat
    touches the player. *)
Definition nap_in_contact : World.t :=
  World.mk
    (GameState.mk (Player.set_hp 50%num Player.initial) 100 0 false false)
    (Abilities.mk 1 claws 0 0 0 0 0 0 0 4 0)
    (Arr.mk [rat_at 610 400 12] [0%nat])
    Arr.empty Arr.empty Arr.empty
    [] ∅ ∅ canvas (fun _ => 0.9%num) 0 [].

End Examples.


(** ** The level-up claim in the specification's words

    The specification gives the growth of [xpNext] as [x1.12] up to level 5,
    [x1.18] up to level 10 and [x1.18] beyond, each step floored. *)
Definition spec_xpNext (newLevel xpNext : Z) : Z :=
  if newLevel <=? 5 then floorZ (Num.of_Z xpNext * 1.12)%num
  else if newLevel <=? 10 then floorZ (Num.of_Z xpNext * 1.18)%num
  else floorZ (Num.of_Z xpNext * 1.18)%num.

(** The growth that [levelUp] applies. *)
Definition code_xpNext (newLevel xpNext : Z) : Z :=
  if newLevel <=? 5 then floorZ (Num.of_Z xpNext * 1.12)%num
  else if newLevel <=? 10 then floorZ (Num.of_Z xpNext * 1.15)%num
  else floorZ (Num.of_Z xpNext * 1.18)%num.

(** ** Frames and reachable worlds

    [kept w w']: [w'] has the position and the canvas of [w], and its
    [maxHp] is that of [w] or 100.  Every update function after
    [updatePlayer] keeps the world in this sense. *)
Definition kept (w w' : World.t) : Prop :=
  Player.x (player w') = Player.x (player w)
  /\ Player.y (player w') = Player.y (player w)
  /\ World.canvas w' = World.canvas w
  /\ (Player.maxHp (player w') = Player.maxHp (player w)
      \/ Player.maxHp (player w') = 100).


(** The player is inside the rectangle that [updatePlayer] clamps to. *)
Definition on_canvas (w : World.t) : Prop :=
  30 <= Player.x (player w) <= Canvas.width (World.canvas w) - 30
  /\ 30 <= Player.y (player w) <= Canvas.height (World.canvas w) - 30.

(** [keys[k] = b], the effect of the [keydown] and [keyup] listeners. *)
Definition setKey (k : string) (b : bool) (w : World.t) : World.t :=
  World.mk (World.gameState w) (World.abilities w) (World.enemies w)
    (World.projectiles w) (World.xpOrbs w) (World.particles w)
    (World.timers w) (<[k := b]> (World.keys w)) (World.localStorage w)
    (World.canvas w) (World.random w) (World.randomCalls w)
    (World.upgradeChoices w).

(** The worlds a session can be in: [startGame] from any state of the page,
    then animation frames, clicks on the buttons of the level-up modal,
    [setTimeout] callbacks and key events, in any order. *)
Inductive reachable {ML : MathLib} : World.t -> Prop :=
  | reach_start (w : World.t) : reachable (startGame w)
  | reach_frame (w : World.t) : reachable w -> reachable (gameLoop w)
  | reach_select (w : World.t) (u : Upgrade.t) :
      reachable w -> u ∈ World.upgradeChoices w ->
      reachable (selectUpgrade (Upgrade.key u) w)
  | reach_timer (w : World.t) (i : nat) : reachable w -> reachable (runTimer i w)
  | reach_key (w : World.t) (k : string) (b : bool) :
      reachable w -> reachable (setKey k b w).

(** ** What the callback of [updateEnemies] is judged on *)

(** The player and the [enemies] array: what a contact may change. *)
Definition contact_view (w : World.t) : Player.t * list nat :=
  (player w, Arr.refs (World.enemies w)).

(** The enemy behind [r] has no hit points left. *)
Definition enemy_dead (r : nat) (w : World.t) : bool :=
  match Arr.get r (World.enemies w) with
  | Some e => (Enemy.hp e <=? 0)%num
  | None => false
  end.

(** ** Relations between the world before and after a function

    The update functions of a frame are long, and most facts about them say
    that something is left alone or only moves one way.  Such a fact is a
    reflexive and transitive relation between worlds, shown of every
    assignment and carried through [let], [if], [forEach] and calls. *)
Class Frame (R : World.t -> World.t -> Prop) : Prop := {
  frame_refl : forall w, R w w;
  frame_trans : forall w1 w2 w3, R w1 w2 -> R w2 w3 -> R w1 w3
}.

(** [gameState.gameOver] *)
Definition over (w : World.t) : bool :=
  GameState.gameOver (World.gameState w).

(** [abilities.clawOrbit.claws] *)
Definition claws (w : World.t) : list Claw.t :=
  Abilities.clawOrbit_claws (World.abilities w).

(** The angle and the distance of every claw: what [initClawOrbit] lays
    out. *)
Definition claw_layout (w : World.t) : list (number * number) :=
  (fun claw => (Claw.angle claw, Claw.distance claw)) <$> claws w.

(** [gameState.time++], the first statement of a running frame. *)
Definition tick (w : World.t) : World.t :=
  World.set_gameState (GameState.set_time (time w + 1) (World.gameState w)) w.

(** What no update function of a frame undoes: the clock, the keys, the
    oracle, the ability levels and the layout of the claws stay as they
    are; kills and the player's level do not decrease; the game-over flag
    is not cleared; [localStorage] is as it was unless the game is over;
    and the pause flag and the buttons of the modal are as they were, or
    the flag is set and the buttons are upgrades of the current pool. *)
Definition steady (w w' : World.t) : Prop :=
  time w' = time w
  /\ World.keys w' = World.keys w
  /\ World.random w' = World.random w
  /\ (forall k, level_of k w' = level_of k w)
  /\ claw_layout w' = claw_layout w
  /\ kills w <= kills w'
  /\ Player.level (player w) <= Player.level (player w')
  /\ Player.speed (player w') = Player.speed (player w)
  /\ (over w = true -> over w' = true)
  /\ (over w' = false -> World.localStorage w' = World.localStorage w)
  /\ ((paused w' = paused w /\ World.upgradeChoices w' = World.upgradeChoices w)
      \/ (paused w' = true
          /\ forall u, u ∈ World.upgradeChoices w' ->
                       u ∈ availableUpgrades (World.abilities w'))).

(** Enemies only leave the array: those that remain are in their order. *)
Definition thins (w w' : World.t) : Prop :=
  Arr.refs (World.enemies w') `sublist_of` Arr.refs (World.enemies w).

(** What [spawnEnemies] gives an enemy for good: every field but the
    position, [hp] and [facingLeft]. *)
Definition enemy_stats (e : Enemy.t)
    : number * number * number * string * number * Z * EnemyType * Z :=
  (Enemy.maxHp e, Enemy.speed e, Enemy.damage e, Enemy.color e, Enemy.size e,
   Enemy.xpValue e, Enemy.type e, Enemy.wave e).

(** No enemy object is created, and none has its statistics changed. *)
Definition stats_kept (w w' : World.t) : Prop :=
  enemy_stats <$> Arr.store (World.enemies w')
  = enemy_stats <$> Arr.store (World.enemies w).

(** ** Write sets

    The variables of the script, in the groups in which the functions
    write them. *)
Inductive Var :=
  | v_time
  | v_kills
  | v_paused
  | v_gameOver
  | v_position      (* player.x, player.y, player.facingLeft *)
  | v_health        (* player.hp, player.invulnerable *)
  | v_progress      (* player.maxHp, player.level, player.xp, player.xpNext *)
  | v_body          (* player.speed, player.width, player.height *)
  | v_levels        (* abilities.*.level *)
  | v_claws         (* abilities.clawOrbit.claws and .rotation *)
  | v_cooldowns     (* abilities.*.cooldown *)
  | v_enemies       (* which enemies are in the array, and in what order *)
  | v_enemy_objects (* the fields of the enemy objects *)
  | v_projectiles
  | v_xpOrbs
  | v_particles
  | v_timers
  | v_keys
  | v_localStorage
  | v_canvas
  | v_random
  | v_randomCalls
  | v_upgradeChoices.

#[global] Instance Var_eq_dec : EqDecision Var.
Proof. solve_decision. Defined.

(** The variables of group [v] have in [w'] the values they have in [w]. *)
Definition unchanged (v : Var) (w w' : World.t) : Prop :=
  match v with
  | v_time => time w' = time w
  | v_kills => kills w' = kills w
  | v_paused => paused w' = paused w
  | v_gameOver => over w' = over w
  | v_position =>
      (Player.x (player w'), Player.y (player w'), Player.facingLeft (player w'))
      = (Player.x (player w), Player.y (player w), Player.facingLeft (player w))
  | v_health =>
      (Player.hp (player w'), Player.invulnerable (player w'))
      = (Player.hp (player w), Player.invulnerable (player w))
  | v_progress =>
      (Player.maxHp (player w'), Player.level (player w'), Player.xp (player w'),
       Player.xpNext (player w'))
      = (Player.maxHp (player w), Player.level (player w), Player.xp (player w),
         Player.xpNext (player w))
  | v_body =>
      (Player.speed (player w'), Player.width (player w'), Player.height (player w'))
      = (Player.speed (player w), Player.width (player w), Player.height (player w))
  | v_levels => forall k, level_of k w' = level_of k w
  | v_claws =>
      (claws w', Abilities.clawOrbit_rotation (World.abilities w'))
      = (claws w, Abilities.clawOrbit_rotation (World.abilities w))
  | v_cooldowns =>
      forall k, Abilities.cooldown k (World.abilities w')
                = Abilities.cooldown k (World.abilities w)
  | v_enemies => Arr.refs (World.enemies w') = Arr.refs (World.enemies w)
  | v_enemy_objects => Arr.store (World.enemies w') = Arr.store (World.enemies w)
  | v_projectiles => World.projectiles w' = World.projectiles w
  | v_xpOrbs => World.xpOrbs w' = World.xpOrbs w
  | v_particles => World.particles w' = World.particles w
  | v_timers => World.timers w' = World.timers w
  | v_keys => World.keys w' = World.keys w
  | v_localStorage => World.localStorage w' = World.localStorage w
  | v_canvas => World.canvas w' = World.canvas w
  | v_random => World.random w' = World.random w
  | v_randomCalls => World.randomCalls w' = World.randomCalls w
  | v_upgradeChoices => World.upgradeChoices w' = World.upgradeChoices w
  end.

(** [w'] differs from [w] in the variables of [vs] at most. *)
Definition writes_only (vs : list Var) (w w' : World.t) : Prop :=
  forall v, bool_decide (v ∈ vs) = false -> unchanged v w w'.

(** What [updateAbilities] may write, by the guards [level > 0] of the
    abilities: the cooldowns in any case, and for each ability only what
    its own function writes. *)
Definition abilities_write_set (w : World.t) : list Var :=
  [v_cooldowns]
  ++ (if level_of ClawOrbit w >? 0 then [v_claws] else [])
  ++ (if level_of WhiskerWhip w >? 0 then [v_projectiles] else [])
  ++ (if level_of HairballBurst w >? 0 then [v_projectiles; v_randomCalls] else [])
  ++ (if level_of PawSlam w >? 0 then [v_enemy_objects; v_timers; v_particles] else [])
  ++ (if level_of CatNap w >? 0 then [v_health] else []).

(** The levels are kept and the writes are within that set. *)
Definition fires (w w' : World.t) : Prop :=
  (forall k, level_of k w' = level_of k w)
  /\ writes_only (abilities_write_set w) w w'.

(** ** The contact branch of [updateEnemies] *)

(** The player, the game-over flag and the store: what a contact with an
    enemy may change for the player. *)
Definition vitals (w : World.t) : Player.t * bool * gmap string string :=
  (player w, over w, World.localStorage w).

Section ContactTerms.
Context {ML : MathLib}.

(** [dist < enemy.size + 20], with [dist] the distance to the player. *)
Definition touches (e : Enemy.t) (w : World.t) : bool :=
  (Math_hypot (Num.of_Z (Player.x (player w)) - Enemy.x e)
              (Num.of_Z (Player.y (player w)) - Enemy.y e)
   <? Enemy.size e + 20)%num.

(** [finalDamage]: [Math.max(1, Math.floor(enemy.damage * damageReduction))]. *)
Definition finalDamage (e : Enemy.t) (w : World.t) : number :=
  Math_max 1
    (Math_floor
       (Enemy.damage e
        * (if (level_of CatNap w >=? 2)%Z then 0.95 else 1))%num).

(** The player after a hit of [d]: [hp -= d] and [invulnerable = 60]. *)
Definition hit (d : number) (p : Player.t) : Player.t :=
  Player.set_invulnerable (Some 60) (Player.set_hp (Player.hp p - d)%num p).

(** Between the start of the loop of [updateEnemies] and a later point of
    it: no enemy was added or had its statistics changed, and the player is
    as at the start or has taken the hit of one enemy of the array. *)
Definition hit_once (w w' : World.t) : Prop :=
  stats_kept w w' /\ thins w w' /\ level_of CatNap w' = level_of CatNap w
  /\ (vitals w' = vitals w
      \/ (not_invulnerable (player w) = true
          /\ exists r e, r ∈ Arr.refs (World.enemies w)
               /\ Arr.get r (World.enemies w) = Some e
               /\ player w' = hit (finalDamage e w) (player w))).

End ContactTerms.

(** ** Invariants of a session *)

(** The enemies are within the cap of [spawnEnemies]. *)
Definition within_cap (w : World.t) : Prop :=
  Z.of_nat (Arr.length (World.enemies w)) <= maxEnemies w.



(** * Properties *)

(** ** Facts about numbers *)

Section NumberFacts.

Lemma ltb_leb (a b : number) : (a <? b)%num = true -> (a <=? b)%num = true.
Proof.
  unfold Num.ltb, Num.leb, SFltb, SFleb.
  destruct (SFcompare a b) as [[| |]|]; congruence.
Qed.

Lemma leb_refl (a : number) : Num.is_nan a = false -> (a <=? a)%num = true.
Proof.
  unfold Num.leb, SFleb.
  destruct a as [s|s| |s m e]; simpl; try congruence.
  - destruct s; reflexivity.
  - intros _. destruct s; rewrite Z.compare_refl, Pos.compare_cont_refl; reflexivity.
Qed.

Lemma leb_not_nan_l (a b : number) : (a <=? b)%num = true -> Num.is_nan a = false.
Proof. destruct a; simpl; try reflexivity. unfold Num.leb, SFleb. simpl. congruence. Qed.

(** [Math.min] never exceeds its first argument unless an argument is NaN. *)
Lemma Math_min_leb_l (a b : number) :
  Num.is_nan a = false -> Num.is_nan b = false ->
  (Math_min a b <=? a)%num = true.
Proof.
  intros Ha Hb. unfold Math_min. rewrite Ha, Hb. simpl.
  destruct (a <? b)%num eqn:Hab; [now apply leb_refl|].
  destruct (b <? a)%num eqn:Hba; [now apply ltb_leb|].
  destruct a as [[]| | |], b as [[]| | |]; try (now apply leb_refl); reflexivity.
Qed.

(** Rounding never produces NaN: the mantissa stays non-negative through
    the shifts. *)
Lemma shr_1_nonneg (mrs : shr_record) : 0 <= shr_m mrs -> 0 <= shr_m (shr_1 mrs).
Proof. destruct mrs as [[|[p|p|]|p] r s]; simpl; lia. Qed.

Lemma iter_shr_1_nonneg (p : positive) (mrs : shr_record) :
  0 <= shr_m mrs -> 0 <= shr_m (iter_pos shr_1 p mrs).
Proof.
  revert mrs. induction p as [p IH|p IH|]; intros mrs H; simpl.
  - apply IH, IH, shr_1_nonneg, H.
  - apply IH, IH, H.
  - apply shr_1_nonneg, H.
Qed.

Lemma shr_fexp_nonneg (m e : Z) (l : location) :
  0 <= m -> 0 <= shr_m (fst (shr_fexp Num.prec Num.emax m e l)).
Proof.
  intros H. unfold shr_fexp, shr.
  assert (Hm : 0 <= shr_m (shr_record_of_loc m l)) by (destruct l as [|[]]; exact H).
  destruct (fexp Num.prec Num.emax (Zdigits2 m + e) - e); simpl; auto.
  now apply iter_shr_1_nonneg.
Qed.

Lemma round_nearest_even_nonneg (m : Z) (l : location) :
  0 <= m -> 0 <= round_nearest_even m l.
Proof. destruct l as [|[]]; simpl; try lia. destruct (Z.even m); lia. Qed.

Lemma binary_round_aux_not_nan (sx : bool) (mx ex : Z) (lx : location) :
  0 <= mx -> Num.is_nan (binary_round_aux Num.prec Num.emax sx mx ex lx) = false.
Proof.
  intros H. unfold binary_round_aux.
  pose proof (shr_fexp_nonneg mx ex lx H) as H1.
  destruct (shr_fexp Num.prec Num.emax mx ex lx) as [mrs' e']. simpl in H1.
  pose proof (shr_fexp_nonneg _ e' loc_Exact
                (round_nearest_even_nonneg _ (loc_of_shr_record mrs') H1)) as H2.
  destruct (shr_fexp Num.prec Num.emax _ e' loc_Exact) as [mrs'' e'']. simpl in H2.
  destruct (shr_m mrs''); [reflexivity| |lia].
  destruct (e'' <=? Num.emax - Num.prec); reflexivity.
Qed.

Lemma binary_normalize_not_nan (m e : Z) (szero : bool) :
  Num.is_nan (binary_normalize Num.prec Num.emax m e szero) = false.
Proof.
  unfold binary_normalize, binary_round.
  destruct m as [|p|p]; [reflexivity| |];
    destruct (shl_align _ _ _); apply binary_round_aux_not_nan; lia.
Qed.

(** Adding a finite number to a number gives a number. *)
Lemma add_finite_not_nan (a : number) (s : bool) (m : positive) (e : Z) :
  Num.is_nan a = false -> Num.is_nan (a + S754_finite s m e)%num = false.
Proof.
  destruct a as [sa|sa| |sa ma ea]; simpl; try congruence; intros _.
  apply binary_normalize_not_nan.
Qed.

End NumberFacts.

(** ** Facts about arrays *)

Lemma length_push {A} (x : A) (a : Arr.t A) :
  Arr.length (Arr.push x a) = S (Arr.length a).
Proof. unfold Arr.length, Arr.push. simpl. rewrite length_app. simpl. lia. Qed.

Lemma get_modify {A} (r : nat) (f : A -> A) (a : Arr.t A) (x : A) :
  Arr.get r a = Some x -> Arr.get r (Arr.modify r f a) = Some (f x).
Proof.
  unfold Arr.get, Arr.modify. simpl. intros H.
  now rewrite list_lookup_alter_eq, H.
Qed.

(** ** What the level-up modal leaves alone *)

(** The draws only advance the oracle. *)
Lemma drawUpgrades_world (turns : nat) (available : list Upgrade.t)
    (selected : list (option Upgrade.t)) (w : World.t) :
  exists n, (drawUpgrades turns available selected w).2 = World.set_randomCalls n w.
Proof.
  revert available selected w.
  induction turns as [|turns IH]; intros available selected w; simpl.
  - exists (World.randomCalls w). now destruct w.
  - destruct (0 <? Z.of_nat (length available)).
    + destruct (IH (array_splice1
                      (floorZ (World.random w (World.randomCalls w)
                               * Num.of_Z (Z.of_nat (length available)))%num) available)
                   (selected ++ [array_get available
                      (floorZ (World.random w (World.randomCalls w)
                               * Num.of_Z (Z.of_nat (length available)))%num)])
                   (World.set_randomCalls (S (World.randomCalls w)) w)) as [n Hn].
      exists n. rewrite Hn. reflexivity.
    + exists (World.randomCalls w). now destruct w.
Qed.

Lemma showLevelUpModal_gameState (w : World.t) :
  World.gameState (showLevelUpModal w)
  = GameState.set_paused true (World.gameState w).
Proof.
  unfold showLevelUpModal.
  destruct (drawUpgrades_world 2 (availableUpgrades (World.abilities (set_paused true w)))
              [] (set_paused true w)) as [n Hn].
  destruct (drawUpgrades 2 _ [] (set_paused true w)) as [sel w'].
  simpl in Hn. subst w'. reflexivity.
Qed.

Lemma showLevelUpModal_abilities (w : World.t) :
  World.abilities (showLevelUpModal w) = World.abilities w.
Proof.
  unfold showLevelUpModal.
  destruct (drawUpgrades_world 2 (availableUpgrades (World.abilities (set_paused true w)))
              [] (set_paused true w)) as [n Hn].
  destruct (drawUpgrades 2 _ [] (set_paused true w)) as [sel w'].
  simpl in Hn. subst w'. reflexivity.
Qed.

(** The player after [levelUp], field by field. *)
Lemma levelUp_player (w : World.t) :
  let p := player w in
  let p' := player (levelUp w) in
  Player.level p' = Player.level p + 1
  /\ Player.xp p' = Player.xp p - Player.xpNext p
  /\ Player.xpNext p' = code_xpNext (Player.level p + 1) (Player.xpNext p)
  /\ Player.hp p' = Math_min 100 (Player.hp p + 20)%num
  /\ Player.maxHp p' = 100
  /\ paused (levelUp w) = true.
Proof.
  unfold levelUp, player, paused, code_xpNext.
  rewrite showLevelUpModal_gameState. simpl.
  destruct (Player.level (GameState.player (World.gameState w)) + 1 <=? 5);
    [|destruct (Player.level (GameState.player (World.gameState w)) + 1 <=? 10)];
    simpl; repeat split; reflexivity.
Qed.

(** ** What a frame keeps after [updatePlayer] *)

Lemma kept_refl (w : World.t) : kept w w.
Proof. unfold kept. auto. Qed.

Lemma kept_trans (w1 w2 w3 : World.t) : kept w1 w2 -> kept w2 w3 -> kept w1 w3.
Proof.
  unfold kept. intros (Hx & Hy & Hc & Hm) (Hx' & Hy' & Hc' & Hm').
  rewrite Hx', Hy', Hc'. repeat split; try assumption.
  destruct Hm' as [-> | ->]; auto.
Qed.

Lemma kept_by_eq (w w' : World.t) :
  Player.x (player w') = Player.x (player w) ->
  Player.y (player w') = Player.y (player w) ->
  World.canvas w' = World.canvas w ->
  Player.maxHp (player w') = Player.maxHp (player w) ->
  kept w w'.
Proof. unfold kept. auto. Qed.

Lemma forEach_kept {A} (arr : World.t -> Arr.t A)
    (callback : nat -> nat -> World.t -> World.t) :
  (forall r k w, kept w (callback r k w)) ->
  forall w, kept w (forEach arr callback w).
Proof.
  intros Hcb w. unfold forEach.
  generalize (Arr.length (arr w)) 0%nat. intros n. revert w.
  induction n as [|n IH]; intros w k; simpl; [apply kept_refl|].
  eapply kept_trans; [|apply IH].
  destruct (Arr.refs (arr w) !! k); [apply Hcb|apply kept_refl].
Qed.

Lemma fold_left_kept {B} (f : World.t -> B -> World.t) (l : list B) :
  (forall w b, kept w (f w b)) -> forall w, kept w (fold_left f l w).
Proof.
  intros Hf. induction l as [|b l IH]; intros w; simpl; [apply kept_refl|].
  eapply kept_trans; [apply Hf|apply IH].
Qed.

Lemma kept_let_world (w v : World.t) (f : World.t -> World.t) :
  kept w v -> (forall x, kept x (f x)) -> kept w (f v).
Proof. intros Hv Hf. eapply kept_trans; [exact Hv|apply Hf]. Qed.

(** A step that returns a value together with the next world. *)
Lemma kept_bind {B} (w : World.t) (m : B * World.t) (f : B -> World.t -> World.t) :
  kept w m.2 -> (forall b x, kept x (f b x)) ->
  kept w (let '(b, x) := m in f b x).
Proof. destruct m as [b x]. intros Hm Hf. eapply kept_trans; [exact Hm|apply Hf]. Qed.

Create HintDb kept discriminated.

(** One step of a proof that a function keeps the world: peel the
    outermost operation.  A [let] that binds a world is cut at its bound
    value, so that the worlds of a long body are never copied into one
    another; a call of a function already shown to keep the world is closed
    from the hints. *)
Ltac kept_step :=
  lazymatch goal with
  | |- kept ?w ?w => apply kept_refl
  | |- kept ?w (let x := ?v in @?f x) =>
      lazymatch type of v with
      | World.t => apply (kept_let_world w v f); [|intros ?; cbv beta]
      | _ => let body := eval cbv beta in (f v) in change (kept w body)
      end
  | |- kept _ (if ?b then _ else _) => destruct b
  | |- kept _ (if ?b then _ else _).2 => destruct b
  | |- kept _ (_, _).2 => cbn [snd]
  | |- kept _ (match Math_random _ with _ => _ end) =>
      unfold Math_random; cbv beta iota
  | |- kept _ (match Math_random _ with _ => _ end).2 =>
      unfold Math_random; cbv beta iota
  | |- kept _ (match ?x with _ => _ end).2 => destruct x
  | |- kept _ (match ?m with _ => _ end) =>
      lazymatch type of m with
      | (_ * World.t)%type => eapply kept_bind; [|intros ? ?; cbv beta]
      | _ => destruct m
      end
  | |- kept _ (forEach _ _ _) =>
      eapply kept_trans; [|apply forEach_kept; intros ? ? ?]
  | |- kept _ (fold_left _ _ _) =>
      eapply kept_trans; [|apply fold_left_kept; intros ? ?]
  | |- kept ?w (?f ?w') =>
      first
        [ solve [auto with kept nocore]
        | apply (kept_trans w w' (f w'));
          [|solve [apply kept_by_eq; reflexivity]] ]
  end.

Lemma levelUp_kept (w : World.t) : kept w (levelUp w).
Proof.
  destruct (levelUp_player w) as (_ & _ & _ & _ & Hm & _).
  unfold kept. rewrite Hm.
  unfold levelUp, player. rewrite showLevelUpModal_gameState.
  assert (Hc : forall w, World.canvas (showLevelUpModal w) = World.canvas w).
  { clear. intros w. unfold showLevelUpModal.
    destruct (drawUpgrades_world 2 (availableUpgrades (World.abilities (set_paused true w)))
                [] (set_paused true w)) as [n Hn].
    destruct (drawUpgrades 2 _ [] (set_paused true w)) as [sel w'].
    simpl in Hn. subst w'. reflexivity. }
  rewrite Hc. simpl.
  repeat case_match; simpl; auto.
Qed.

Lemma gameOver_kept (w : World.t) : kept w (gameOver w).
Proof. cbv delta [gameOver]. cbv beta. repeat kept_step. Qed.

Lemma dropXP_kept (x y : number) (value : Z) (w : World.t) :
  kept w (dropXP x y value w).
Proof. cbv delta [dropXP]. cbv beta. repeat kept_step. Qed.

Lemma catNap_kept (w : World.t) : kept w (catNap w).
Proof. cbv delta [catNap]. cbv beta. repeat kept_step. Qed.

Lemma spawnEnemies_kept (w : World.t) : kept w (spawnEnemies w).
Proof. cbv delta [spawnEnemies]. cbv beta. repeat kept_step. Qed.

Lemma updateParticles_kept (w : World.t) : kept w (updateParticles w).
Proof. cbv delta [updateParticles]. cbv beta. repeat kept_step. Qed.

#[local] Hint Resolve levelUp_kept gameOver_kept dropXP_kept catNap_kept
  spawnEnemies_kept updateParticles_kept : kept.

(** On a canvas of at least 60 by 60, whatever keys are held,
    [updatePlayer] leaves the player inside the rectangle. *)
Lemma updatePlayer_on_canvas (w : World.t) :
  60 <= Canvas.width (World.canvas w) ->
  60 <= Canvas.height (World.canvas w) ->
  on_canvas (updatePlayer w).
Proof.
  intros Hw Hh. unfold on_canvas, updatePlayer, player, set_player. cbn. lia.
Qed.

Lemma updatePlayer_canvas_maxHp (w : World.t) :
  World.canvas (updatePlayer w) = World.canvas w
  /\ Player.maxHp (player (updatePlayer w)) = Player.maxHp (player w).
Proof.
  split; [reflexivity|]. unfold updatePlayer.
  destruct (key_down "w" w || key_down "arrowup" w),
    (key_down "s" w || key_down "arrowdown" w),
    (key_down "a" w || key_down "arrowleft" w),
    (key_down "d" w || key_down "arrowright" w); reflexivity.
Qed.

Section FrameKeeps.
Context {ML : MathLib}.

Lemma fireWhiskerWhip_kept (w : World.t) : kept w (fireWhiskerWhip w).
Proof. cbv delta [fireWhiskerWhip]. cbv beta. repeat kept_step. Qed.

Lemma fireHairball_kept (w : World.t) : kept w (fireHairball w).
Proof. cbv delta [fireHairball]. cbv beta. repeat kept_step. Qed.

Lemma pawSlam_kept (w : World.t) : kept w (pawSlam w).
Proof. cbv delta [pawSlam setTimeout]. cbv beta. repeat kept_step. Qed.

#[local] Hint Resolve fireWhiskerWhip_kept fireHairball_kept pawSlam_kept : kept.

Lemma updateAbilities_kept (w : World.t) : kept w (updateAbilities w).
Proof. cbv delta [updateAbilities]. cbv beta. repeat kept_step. Qed.

Lemma clawHit_kept (enemy : nat) (w : World.t) (claw : Claw.t) :
  kept w (clawHit enemy w claw).
Proof. cbv delta [clawHit setTimeout]. cbv beta. repeat kept_step. Qed.

#[local] Hint Resolve clawHit_kept : kept.

Lemma updateEnemy_kept (enemy index : nat) (w : World.t) :
  kept w (updateEnemy enemy index w).
Proof. cbv delta [updateEnemy]. cbv beta. repeat kept_step. Qed.

#[local] Hint Resolve updateEnemy_kept : kept.

Lemma updateEnemies_kept (w : World.t) : kept w (updateEnemies w).
Proof. cbv delta [updateEnemies]. cbv beta. repeat kept_step. Qed.

Lemma projectileHit_kept (proj projIndex enemy enemyIndex : nat) (w : World.t) :
  kept w (projectileHit proj projIndex enemy enemyIndex w).
Proof. cbv delta [projectileHit]. cbv beta. repeat kept_step. Qed.

#[local] Hint Resolve projectileHit_kept : kept.

Lemma updateProjectiles_kept (w : World.t) : kept w (updateProjectiles w).
Proof. cbv delta [updateProjectiles updateProjectile]. cbv beta. repeat kept_step. Qed.

Lemma updateXP_kept (w : World.t) : kept w (updateXP w).
Proof. cbv delta [updateXP updateXPOrb]. cbv beta. repeat kept_step. Qed.

#[local] Hint Resolve updateAbilities_kept updateEnemies_kept
  updateProjectiles_kept updateXP_kept : kept.

(** A running frame, from [updatePlayer] on. *)
Lemma gameLoop_running (w : World.t) :
  GameState.gameOver (World.gameState w) = false ->
  paused w = false ->
  kept (updatePlayer
          (World.set_gameState
             (GameState.set_time (time w + 1) (World.gameState w)) w))
       (gameLoop w).
Proof.
  intros Hg Hp. unfold gameLoop. rewrite Hg, Hp. cbv beta iota zeta.
  simpl negb. cbv iota.
  eapply kept_trans; [|apply updateParticles_kept].
  eapply kept_trans; [|apply updateXP_kept].
  eapply kept_trans; [|apply updateProjectiles_kept].
  eapply kept_trans; [|apply updateEnemies_kept].
  eapply kept_trans; [|apply spawnEnemies_kept].
  apply updateAbilities_kept.
Qed.

Lemma maxHp_kept (w w' : World.t) :
  kept w w' -> Player.maxHp (player w) = 100 -> Player.maxHp (player w') = 100.
Proof. unfold kept. intros (_ & _ & _ & [Hm|Hm]) H; congruence. Qed.

(** A frame that runs ends with [maxHp] as it was or 100, and with the
    player on the canvas. *)
Lemma gameLoop_running_frame (w : World.t) :
  GameState.gameOver (World.gameState w) = false ->
  paused w = false ->
  World.canvas (gameLoop w) = World.canvas w
  /\ (Player.maxHp (player w) = 100 -> Player.maxHp (player (gameLoop w)) = 100)
  /\ (60 <= Canvas.width (World.canvas w) ->
      60 <= Canvas.height (World.canvas w) -> on_canvas (gameLoop w)).
Proof.
  intros Hg Hp. pose proof (gameLoop_running w Hg Hp) as Hk.
  set (w1 := World.set_gameState _ w) in Hk.
  split; [|split].
  - destruct Hk as (_ & _ & Hc & _). exact Hc.
  - intros Hm. apply (maxHp_kept _ _ Hk).
    destruct (updatePlayer_canvas_maxHp w1) as [_ ->]. exact Hm.
  - intros Hw Hh. destruct Hk as (Hx & Hy & Hc & _).
    pose proof (updatePlayer_on_canvas w1 Hw Hh) as Hb.
    unfold on_canvas in *. now rewrite Hx, Hy, Hc.
Qed.

Lemma startGame_frame (w : World.t) :
  exists w1,
    startGame w = gameLoop w1
    /\ GameState.gameOver (World.gameState w1) = false
    /\ paused w1 = false
    /\ Player.maxHp (player w1) = 100
    /\ World.canvas w1 = World.canvas w.
Proof. unfold startGame. eexists. split; [reflexivity|]. repeat split. Qed.

(** Every reachable world has [maxHp = 100], and its player is on the
    canvas when the canvas is at least 60 by 60. *)
Lemma reachable_invariant (w : World.t) :
  reachable w ->
  Player.maxHp (player w) = 100
  /\ (60 <= Canvas.width (World.canvas w) ->
      60 <= Canvas.height (World.canvas w) -> on_canvas w).
Proof.
  induction 1 as [w|w Hr [IHm IHc]|w u Hr [IHm IHc] Hu|w i Hr [IHm IHc]|w k b Hr [IHm IHc]].
  - destruct (startGame_frame w) as (w1 & -> & Hg & Hp & Hm & Hc).
    destruct (gameLoop_running_frame w1 Hg Hp) as (Hc' & Hm' & Hb).
    rewrite Hc'. auto.
  - destruct (GameState.gameOver (World.gameState w)) eqn:Hg;
      [unfold gameLoop; rewrite Hg; auto|].
    destruct (paused w) eqn:Hp; [unfold gameLoop; rewrite Hg, Hp; auto|].
    destruct (gameLoop_running_frame w Hg Hp) as (Hc' & Hm' & Hb).
    rewrite Hc'. auto.
  - assert (Hk : kept w (selectUpgrade (Upgrade.key u) w)).
    { unfold selectUpgrade. cbv beta iota zeta. repeat kept_step. }
    split; [now apply (maxHp_kept w)|].
    destruct Hk as (Hx & Hy & Hc & Hm). unfold on_canvas in *.
    rewrite Hx, Hy, Hc. exact IHc.
  - assert (Hk : kept w (runTimer i w)).
    { unfold runTimer. repeat kept_step. }
    split; [now apply (maxHp_kept w)|].
    destruct Hk as (Hx & Hy & Hc & Hm). unfold on_canvas in *.
    rewrite Hx, Hy, Hc. exact IHc.
  - split; [exact IHm|exact IHc].
Qed.

End FrameKeeps.

(** ** C1: a projectile without pierce *)

Section ProjectileHit.
Context {ML : MathLib}.

(** One hit of [updateProjectiles]: a projectile within [size + 5] of an
    enemy takes its damage from that enemy, and unless it pierces, index
    [projIndex] of [projectiles] is spliced out. *)
Lemma projectileHit_in_range (proj projIndex enemy enemyIndex : nat)
    (w : World.t) (p : Projectile.t) (e : Enemy.t) :
  Arr.get proj (World.projectiles w) = Some p ->
  Arr.get enemy (World.enemies w) = Some e ->
  (Math_hypot (Projectile.x p - Enemy.x e) (Projectile.y p - Enemy.y e)
   <? Enemy.size e + 5)%num = true ->
  let w' := projectileHit proj projIndex enemy enemyIndex w in
  Arr.get enemy (World.enemies w')
  = Some (Enemy.set_hp (Enemy.hp e - Projectile.damage p)%num e)
  /\ Arr.refs (World.projectiles w')
     = if Projectile.pierce p then Arr.refs (World.projectiles w)
       else delete projIndex (Arr.refs (World.projectiles w)).
Proof.
  intros Hp He Hd. unfold projectileHit. rewrite Hp, He, Hd.
  destruct (Projectile.pierce p); simpl; split;
    solve [reflexivity | now erewrite get_modify by exact He].
Qed.

(** Out of range, the hit changes nothing. *)
Lemma projectileHit_out_of_range (proj projIndex enemy enemyIndex : nat)
    (w : World.t) (p : Projectile.t) (e : Enemy.t) :
  Arr.get proj (World.projectiles w) = Some p ->
  Arr.get enemy (World.enemies w) = Some e ->
  (Math_hypot (Projectile.x p - Enemy.x e) (Projectile.y p - Enemy.y e)
   <? Enemy.size e + 5)%num = false ->
  projectileHit proj projIndex enemy enemyIndex w = w.
Proof. intros Hp He Hd. unfold projectileHit. now rewrite Hp, He, Hd. Qed.

End ProjectileHit.

(** C1 fails on the code: a whip without pierce that reaches two rats in
    the same frame takes 25 hp from both (12 to -13), and each hit splices
    index 0 of [projectiles], so the hairball that hit nothing is removed as
    well. *)
Theorem whip_without_pierce_hits_twice :
  let w := Examples.whip_world in
  let w' := @updateProjectiles referenceMath w in
  Arr.refs (World.projectiles w) = [0; 1]%nat
  /\ Projectile.pierce <$> Arr.get 0 (World.projectiles w) = Some false
  /\ Enemy.hp <$> Arr.elems (World.enemies w) = [12; 12]%num
  /\ Enemy.hp <$> Arr.elems (World.enemies w') = [-13; -13]%num
  /\ Arr.refs (World.projectiles w') = []
  /\ Arr.get 1 (World.projectiles w') = Arr.get 1 (World.projectiles w).
Proof. vm_compute. repeat split. Qed.

(** ** C2: contact with the player *)

Section Contact.
Context {ML : MathLib}.

Lemma clawHit_view (enemy : nat) (w : World.t) (claw : Claw.t) :
  contact_view (clawHit enemy w claw) = contact_view w.
Proof.
  unfold clawHit, setTimeout. cbv beta iota zeta.
  repeat case_match; reflexivity.
Qed.

Lemma fold_clawHit_view (enemy : nat) (claws : list Claw.t) (w : World.t) :
  contact_view (fold_left (clawHit enemy) claws w) = contact_view w.
Proof.
  revert w. induction claws as [|claw claws IH]; intros w; simpl; [reflexivity|].
  now rewrite IH, clawHit_view.
Qed.

Lemma dropXP_enemies (x y : number) (value : Z) (w : World.t) :
  World.enemies (dropXP x y value w) = World.enemies w
  /\ World.gameState (dropXP x y value w) = World.gameState w.
Proof.
  unfold dropXP, Math_random. cbv beta iota zeta.
  case_match; split; reflexivity.
Qed.

Lemma gameOver_view (w : World.t) :
  player (gameOver w) = player w /\ World.enemies (gameOver w) = World.enemies w
  /\ World.abilities (gameOver w) = World.abilities w.
Proof. unfold gameOver. case_match; repeat split; reflexivity. Qed.

(** The callback of [updateEnemies] on an enemy in contact with a player who
    is not invulnerable: one [hp] decrement of
    [max(1, floor(damage * damageReduction))], invulnerability set to 60,
    and index [index] of [enemies] spliced out once, or twice when the
    enemy has no hit points left at the death check. *)
Lemma updateEnemy_contact (enemy index : nat) (w : World.t) (e : Enemy.t) :
  Arr.get enemy (World.enemies w) = Some e ->
  (Math_hypot (Num.of_Z (Player.x (player w)) - Enemy.x e)
              (Num.of_Z (Player.y (player w)) - Enemy.y e)
   <? Enemy.size e + 20)%num = true ->
  not_invulnerable (player w) = true ->
  let damageReduction := if level_of CatNap w >=? 2 then 0.95%num else 1%num in
  let finalDamage := Math_max 1 (Math_floor (Enemy.damage e * damageReduction)%num) in
  let w' := updateEnemy enemy index w in
  Player.hp (player w') = (Player.hp (player w) - finalDamage)%num
  /\ Player.invulnerable (player w') = Some 60
  /\ Arr.refs (World.enemies w')
     = if enemy_dead enemy w'
       then delete index (delete index (Arr.refs (World.enemies w)))
       else delete index (Arr.refs (World.enemies w)).
Proof.
  intros He Hd Hi dr fd w'.
  assert (Hw' : w' = updateEnemy enemy index w) by reflexivity. clearbody w'.
  cbv delta [updateEnemy] in Hw'. cbv beta in Hw'.
  rewrite He in Hw'. cbv beta iota in Hw'.
  (* name the worlds of the callback: after the move, after the contact,
     after the claws *)
  repeat lazymatch type of Hw' with
  | _ = (let y := ?v in @?f y) =>
      let y' := fresh y in
      pose (y' := v); change (w' = f y') in Hw'; cbv beta in Hw'
  end.
  rename w0 into moved, w1 into touched, w2 into clawed.
  assert (Hmoved : player moved = player w
                   /\ Arr.refs (World.enemies moved) = Arr.refs (World.enemies w)
                   /\ level_of CatNap moved = level_of CatNap w)
    by (unfold moved; destruct (0 <? dist)%num; repeat split; reflexivity).
  destruct Hmoved as (Hmp & Hmr & Hml).
  assert (Htouched : player touched
                     = Player.set_invulnerable (Some 60)
                         (Player.set_hp (Player.hp (player w) - fd)%num (player w))
                     /\ Arr.refs (World.enemies touched)
                        = delete index (Arr.refs (World.enemies w))).
  { assert (Hd' : (dist <? Enemy.size e + 20)%num = true) by exact Hd.
    unfold touched. rewrite Hd', Hmp, Hi, Hml. cbv zeta.
    destruct (_ <=? 0)%num;
      [match goal with
       | |- context [gameOver ?x] =>
           destruct (gameOver_view x) as (-> & -> & _)
       end|];
      simpl; rewrite Hmr; split; reflexivity. }
  destruct Htouched as (Htp & Htr).
  assert (Hclawed : contact_view clawed = contact_view touched)
    by (unfold clawed; destruct (_ >? 0);
        [apply fold_clawHit_view|reflexivity]).
  unfold contact_view in Hclawed. injection Hclawed as Hcp Hcr.
  clearbody clawed touched moved.
  unfold enemy_dead.
  destruct (Arr.get enemy (World.enemies clawed)) as [e'|] eqn:He'.
  - destruct (Enemy.hp e' <=? 0)%num eqn:Hdead.
    + destruct (dropXP_enemies (Enemy.x e') (Enemy.y e') (Enemy.xpValue e') clawed)
        as [Hde Hdg].
      subst w'. unfold player, kills. simpl. rewrite Hdg, Hde.
      fold (player clawed). rewrite Hcp, Htp. simpl.
      unfold Arr.get, Arr.splice. simpl.
      unfold Arr.get in He'. rewrite He', Hdead, Hcr, Htr. auto.
    + subst w'. rewrite He', Hdead, Hcp, Htp, Hcr, Htr. auto.
  - subst w'. rewrite He', Hcp, Htp, Hcr, Htr. auto.
Qed.

End Contact.

(** C2 fails on the code: a rat at [hp = -13] touches the player; the
    callback splices it out for the contact and then splices the same index
    again for its death, which removes the healthy rat behind it. *)
Theorem contact_removes_two_enemies :
  let w := Examples.contact_world in
  let w' := @updateEnemies referenceMath w in
  Arr.refs (World.enemies w) = [0; 1]%nat
  /\ Player.invulnerable (player w) = None
  /\ Arr.refs (World.enemies (@updateEnemy referenceMath 0 0 w)) = []
  /\ Arr.refs (World.enemies w') = []
  /\ Player.hp (player w') = 98%num
  /\ Player.invulnerable (player w') = Some 59
  /\ kills w' = 1
  /\ Enemy.hp <$> Arr.get 1 (World.enemies w') = Some 12%num.
Proof. vm_compute. repeat split. Qed.

(** ** C3: what [levelUp] does to the player *)

(** C3, as stated, fails: from level 7 with [xpNext = 18] the code sets
    [xpNext] to [floor(18 * 1.15) = 20] at level 8, where the stated tier
    [x1.18] gives [floor(18 * 1.18) = 21]. *)
Lemma levelUp_mid_tier_counterexample :
  let w := Examples.level7 in
  Player.level (player (levelUp w)) = 8
  /\ Player.xpNext (player (levelUp w)) = 20
  /\ spec_xpNext 8 (Player.xpNext (player w)) = 21
  /\ Player.xpNext (player (levelUp w))
     <> spec_xpNext (Player.level (player (levelUp w))) (Player.xpNext (player w)).
Proof. vm_compute. repeat split; congruence. Qed.

(** C3 (amended): every call of [levelUp] increments the level, subtracts
    [xpNext] from [xp] and keeps the remainder, replaces [xpNext] by
    [floor(xpNext * 1.12)] when the new level is at most 5, by
    [floor(xpNext * 1.15)] when it is 6 to 10 and by [floor(xpNext * 1.18)]
    beyond (products in double precision), heals 20 hp capped at 100, and
    sets the pause flag. *)
Theorem levelUp_effect (w : World.t) :
  let p := player w in
  let p' := player (levelUp w) in
  let newLevel := Player.level p + 1 in
  Player.level p' = newLevel
  /\ Player.xp p' = Player.xp p - Player.xpNext p
  /\ Player.xpNext p' =
       (if newLevel <=? 5 then floorZ (Num.of_Z (Player.xpNext p) * 1.12)%num
        else if newLevel <=? 10 then floorZ (Num.of_Z (Player.xpNext p) * 1.15)%num
        else floorZ (Num.of_Z (Player.xpNext p) * 1.18)%num)
  /\ Player.hp p' = Math_min 100 (Player.hp p + 20)%num
  /\ paused (levelUp w) = true.
Proof.
  destruct (levelUp_player w) as (Hl & Hx & Hn & Hh & _ & Hp).
  repeat split; assumption.
Qed.

(** ** C4: the upgrade offer and its selection *)

Lemma NoDup_of_submseteq {A} (l k : list A) : NoDup k -> l ⊆+ k -> NoDup l.
Proof.
  intros Hk Hl. apply submseteq_Permutation in Hl as [k' Hk'].
  rewrite Hk' in Hk. now apply NoDup_app in Hk as [? _].
Qed.

(** One turn of the loop moves at most one upgrade from [availableUpgrades]
    to [selectedUpgrades]. *)
Lemma draw_turn {A} (available : list A) (i : Z) :
  from_option (fun u => [u]) [] (array_get available i)
    ++ array_splice1 i available ⊆+ available.
Proof.
  unfold array_get, array_splice1.
  destruct (Z.ltb_spec i 0) as [Hneg|Hpos]; simpl.
  - apply sublist_submseteq, sublist_delete.
  - destruct (Z.le_gt_cases (Z.of_nat (length available)) i) as [Hge|Hlt].
    + rewrite lookup_ge_None_2 by lia. simpl.
      apply sublist_submseteq, sublist_delete.
    + rewrite Z.min_l by lia.
      destruct (available !! Z.to_nat i) as [u|] eqn:Hu; simpl.
      * now rewrite <- (delete_Permutation available (Z.to_nat i) u Hu).
      * apply sublist_submseteq, sublist_delete.
Qed.

Lemma omap_id_snoc {A} (l : list (option A)) (x : option A) :
  omap id (l ++ [x]) = omap id l ++ from_option (fun u => [u]) [] x.
Proof. rewrite omap_app. now destruct x. Qed.

(** The upgrades selected by the loop are drawn from the pool without
    replacement, and there are at most [turns] more of them than before. *)
Lemma drawUpgrades_draws (turns : nat) (available : list Upgrade.t)
    (selected : list (option Upgrade.t)) (w : World.t) :
  omap id (drawUpgrades turns available selected w).1
    ⊆+ omap id selected ++ available
  /\ (length (drawUpgrades turns available selected w).1
      <= length selected + turns)%nat.
Proof.
  revert available selected w.
  induction turns as [|turns IH]; intros available selected w; simpl.
  - split; [apply submseteq_inserts_r; reflexivity|lia].
  - destruct (0 <? Z.of_nat (length available)); simpl.
    + match goal with
      | |- context [drawUpgrades turns ?a ?s ?w'] =>
          destruct (IH a s w') as [Hsub Hlen]
      end.
      split.
      * etrans; [exact Hsub|].
        rewrite omap_id_snoc, <- (assoc_L (++)).
        apply submseteq_skips_l, draw_turn.
      * rewrite length_app in Hlen. simpl in Hlen. lia.
    + split; [apply submseteq_inserts_r; reflexivity|lia].
Qed.

Lemma buttons_sublist (selected : list (option Upgrade.t)) :
  buttons selected `sublist_of` omap id selected.
Proof.
  induction selected as [|[u|] rest IH]; simpl.
  - constructor.
  - now constructor.
  - apply sublist_nil_l.
Qed.

Lemma buttons_length (selected : list (option Upgrade.t)) :
  (length (buttons selected) <= length selected)%nat.
Proof. induction selected as [|[u|] rest IH]; simpl; lia. Qed.

(** The keys of the pool: the abilities below their maximum level, once
    each. *)
Lemma availableUpgrades_keys (a : Abilities.t) :
  Upgrade.key <$> availableUpgrades a
  = filter (fun key => Abilities.level key a < Abilities.maxLevel key) ability_keys.
Proof.
  unfold availableUpgrades. rewrite <- list_fmap_compose.
  apply list_fmap_id.
Qed.

Lemma ability_keys_NoDup : NoDup ability_keys.
Proof. apply (bool_decide_unpack _). reflexivity. Qed.

Lemma ability_keys_complete (k : AbilityKey) : k ∈ ability_keys.
Proof. destruct k; apply (bool_decide_unpack _); reflexivity. Qed.

(** The buttons shown by [showLevelUpModal]. *)
Lemma showLevelUpModal_choices (w : World.t) :
  World.upgradeChoices (showLevelUpModal w)
    ⊆+ availableUpgrades (World.abilities w)
  /\ (length (World.upgradeChoices (showLevelUpModal w)) <= 2)%nat.
Proof.
  unfold showLevelUpModal.
  pose proof (drawUpgrades_draws 2 (availableUpgrades (World.abilities (set_paused true w)))
                [] (set_paused true w)) as [Hsub Hlen].
  destruct (drawUpgrades 2 _ [] (set_paused true w)) as [sel w'].
  simpl in *. split.
  - etrans; [apply sublist_submseteq, buttons_sublist|exact Hsub].
  - pose proof (buttons_length sel). lia.
Qed.

Lemma selectUpgrade_levels (abilityKey k : AbilityKey) (w : World.t) :
  level_of k (selectUpgrade abilityKey w)
  = if decide (k = abilityKey) then level_of k w + 1 else level_of k w.
Proof.
  unfold selectUpgrade, level_of.
  destruct abilityKey, k; reflexivity.
Qed.

(** C4: the pool of [showLevelUpModal] holds exactly the abilities whose
    level is below 5; the offer has at most 2 entries, all from the pool and
    no ability twice; [selectUpgrade] adds exactly 1 to the level of the
    chosen ability and leaves every other level as it was. *)
Theorem upgrade_offer_and_selection (w : World.t) :
  let pool := availableUpgrades (World.abilities w) in
  let offer := World.upgradeChoices (showLevelUpModal w) in
  (forall k, k ∈ Upgrade.key <$> pool <-> level_of k w < 5)
  /\ (forall k, Abilities.maxLevel k = 5)
  /\ (length offer <= 2)%nat
  /\ NoDup (Upgrade.key <$> offer)
  /\ (forall u, u ∈ offer -> u ∈ pool)
  /\ (forall k, level_of k (selectUpgrade k w) = level_of k w + 1)
  /\ (forall k k', k' <> k -> level_of k' (selectUpgrade k w) = level_of k' w).
Proof.
  intros pool offer.
  destruct (showLevelUpModal_choices w) as [Hsub Hlen].
  split; [|split; [|split; [|split; [|split; [|split]]]]].
  - intros k. subst pool. rewrite availableUpgrades_keys, list_elem_of_filter.
    unfold Abilities.maxLevel, level_of.
    split; [now intros [? _]|intros H; split; [exact H|apply ability_keys_complete]].
  - reflexivity.
  - exact Hlen.
  - apply (NoDup_of_submseteq _ (Upgrade.key <$> pool)).
    + subst pool. rewrite availableUpgrades_keys.
      apply NoDup_filter, ability_keys_NoDup.
    + now apply fmap_submseteq.
  - intros u Hu. eapply elem_of_submseteq; [exact Hu|exact Hsub].
  - intros k. rewrite selectUpgrade_levels. now rewrite decide_True.
  - intros k k' Hne. rewrite selectUpgrade_levels. now rewrite decide_False.
Qed.

(** ** C5: the population cap *)

(** [spawnEnemies] only draws from the oracle and pushes at most one enemy,
    and none when the cap is reached. *)
Lemma spawnEnemies_effect (w : World.t) :
  World.gameState (spawnEnemies w) = World.gameState w
  /\ (World.enemies (spawnEnemies w) = World.enemies w
      \/ (Z.of_nat (Arr.length (World.enemies w)) < maxEnemies w
          /\ exists e, World.enemies (spawnEnemies w) = Arr.push e (World.enemies w))).
Proof.
  unfold spawnEnemies, Math_random.
  destruct (Z.geb_spec (Z.of_nat (Arr.length (World.enemies w))) (maxEnemies w)) as [Hge|Hlt];
    [now split; [|left]|].
  cbv beta iota zeta.
  destruct (negb _); [now split; [|left]|].
  split.
  - destruct ((_ >=? 4) && _); [|destruct ((_ >=? 2) && _)];
      cbv beta iota zeta; destruct (floorZ _) as [|[[|[]|]|[|[]|]|]|];
      reflexivity.
  - right. split; [exact Hlt|].
    destruct ((_ >=? 4) && _); [|destruct ((_ >=? 2) && _)];
      cbv beta iota zeta; destruct (floorZ _) as [|[[|[]|]|[|[]|]|]|];
      eexists; reflexivity.
Qed.

(** C5: if the enemy count is within
    [min(15 + 5 * floor(time / 1800) + 3 * floor(level / 3), 50)] before
    [spawnEnemies], it is within it afterwards, and the call adds at most
    one enemy. *)
Theorem spawnEnemies_respects_cap (w : World.t) :
  let cap (w : World.t) :=
    Z.min (15 + 5 * (time w / 1800) + 3 * (Player.level (player w) / 3)) 50 in
  let count (w : World.t) := Z.of_nat (Arr.length (World.enemies w)) in
  count w <= cap w ->
  count (spawnEnemies w) <= cap (spawnEnemies w)
  /\ (count (spawnEnemies w) = count w \/ count (spawnEnemies w) = count w + 1).
Proof.
  intros cap count Hle. subst cap count. cbv beta in *.
  destruct (spawnEnemies_effect w) as [Hg [He|[Hlt [e He]]]];
    unfold time, player; rewrite Hg, He.
  - split; [exact Hle|now left].
  - rewrite length_push. unfold maxEnemies, time, player in Hlt.
    split; [lia|right; lia].
Qed.

Lemma spawnEnemies_respects_cap_witness :
  let w := Examples.eager_spawn in
  let cap (w : World.t) :=
    Z.min (15 + 5 * (time w / 1800) + 3 * (Player.level (player w) / 3)) 50 in
  let count (w : World.t) := Z.of_nat (Arr.length (World.enemies w)) in
  count w <= cap w
  /\ count (spawnEnemies w) = 1
  /\ count (spawnEnemies w) <= cap (spawnEnemies w)
  /\ (count (spawnEnemies w) = count w \/ count (spawnEnemies w) = count w + 1).
Proof.
  split; [vm_compute; discriminate|].
  split; [vm_compute; reflexivity|].
  apply (spawnEnemies_respects_cap Examples.eager_spawn). vm_compute. discriminate.
Defined.

(** ** C6: heals never take [hp] above [maxHp] *)

Lemma catNap_healing_finite (lvl : Z) :
  exists s m e,
    (if lvl >=? 3 then (Abilities.catNap_healing * 1.5)%num
     else Abilities.catNap_healing) = S754_finite s m e.
Proof. destruct (lvl >=? 3); do 3 eexists; vm_compute; reflexivity. Qed.

Lemma catNap_player (w : World.t) :
  let p := player w in
  let p' := player (catNap w) in
  let healing :=
    if level_of CatNap w >=? 3 then (Abilities.catNap_healing * 1.5)%num
    else Abilities.catNap_healing in
  Player.hp p' = Math_min 100 (Player.hp p + healing)%num
  /\ Player.maxHp p' = Player.maxHp p.
Proof.
  unfold catNap.
  destruct (level_of CatNap w >=? 4); split; reflexivity.
Qed.

Lemma heal_capped (hp : number) (s : bool) (m : positive) (e : Z) :
  Num.is_nan hp = false ->
  (Math_min 100 (hp + S754_finite s m e)%num <=? Num.of_Z 100)%num = true.
Proof.
  intros H. change (Num.of_Z 100) with 100%num.
  apply Math_min_leb_l; [reflexivity|].
  now apply add_finite_not_nan.
Qed.

(** C6: in a world with [hp <= 100] and [maxHp = 100] (every reachable world
    has [maxHp = 100], by [reachable_invariant], and every step of a frame
    keeps it), the Cat Nap heal and the level-up heal both leave
    [hp <= maxHp] and [maxHp = 100]. *)
Theorem heal_keeps_hp_within_maxHp (w : World.t) :
  (Player.hp (player w) <=? 100)%num = true ->
  Player.maxHp (player w) = 100 ->
  ((Player.hp (player (catNap w))
    <=? Num.of_Z (Player.maxHp (player (catNap w))))%num = true
   /\ Player.maxHp (player (catNap w)) = 100)
  /\ ((Player.hp (player (levelUp w))
       <=? Num.of_Z (Player.maxHp (player (levelUp w))))%num = true
      /\ Player.maxHp (player (levelUp w)) = 100).
Proof.
  intros Hhp Hmax. apply leb_not_nan_l in Hhp.
  split.
  - destruct (catNap_player w) as [Hh Hm]. rewrite Hm, Hmax, Hh.
    destruct (catNap_healing_finite (level_of CatNap w)) as (s & m & e & ->).
    split; [now apply heal_capped | reflexivity].
  - destruct (levelUp_player w) as (_ & _ & _ & Hh & Hm & _). rewrite Hm, Hh.
    split; [now apply heal_capped | reflexivity].
Qed.

Lemma heal_keeps_hp_within_maxHp_witness :
  let w := @startGame referenceMath Examples.fresh in
  ((Player.hp (player w) <=? 100)%num = true /\ Player.maxHp (player w) = 100)
  /\ ((Player.hp (player (catNap w))
       <=? Num.of_Z (Player.maxHp (player (catNap w))))%num = true
      /\ Player.maxHp (player (catNap w)) = 100)
  /\ ((Player.hp (player (levelUp w))
       <=? Num.of_Z (Player.maxHp (player (levelUp w))))%num = true
      /\ Player.maxHp (player (levelUp w)) = 100).
Proof.
  split; [split; vm_compute; reflexivity|].
  apply (heal_keeps_hp_within_maxHp (@startGame referenceMath Examples.fresh));
    vm_compute; reflexivity.
Defined.

(** In particular, in every reachable world with [hp <= 100]. *)
Lemma heal_in_reachable_world {ML : MathLib} (w : World.t) :
  reachable w ->
  (Player.hp (player w) <=? 100)%num = true ->
  (Player.hp (player (catNap w)) <=? 100)%num = true
  /\ (Player.hp (player (levelUp w)) <=? 100)%num = true.
Proof.
  intros Hr Hhp. destruct (reachable_invariant w Hr) as [Hm _].
  destruct (catNap_player w) as [Hc _].
  destruct (levelUp_player w) as (_ & _ & _ & Hl & _).
  apply leb_not_nan_l in Hhp. rewrite Hc, Hl.
  destruct (catNap_healing_finite (level_of CatNap w)) as (s & m & e & ->).
  split; now apply heal_capped.
Qed.

(** ** C7 and C8: the persisted high score *)

(** *** [parseInt] reads back what [String] prints *)

Lemma parse_digits_from_pos (d : Decimal.uint) (p : positive) :
  parse_digits 10 (NilEmpty.string_of_uint d) (Some (Z.pos p))
  = Some (Z.pos (Pos.of_uint_acc d p)).
Proof.
  revert p. induction d as [|d IH|d IH|d IH|d IH|d IH|d IH|d IH|d IH|d IH|d IH];
    intros p; [reflexivity|..];
    cbn [NilEmpty.string_of_uint parse_digits];
    match goal with
    | |- context [digit_value ?c] =>
        let v := eval vm_compute in (digit_value c) in
        change (digit_value c) with v
    end; cbn [Z.ltb Z.compare Pos.compare Pos.compare_cont default from_option id];
    cbn [Pos.of_uint_acc]; rewrite <- IH; do 2 f_equal; lia.
Qed.

Lemma parse_digits_from_zero (d : Decimal.uint) :
  parse_digits 10 (NilEmpty.string_of_uint d) (Some 0)
  = Some (Z.of_N (Pos.of_uint d)).
Proof.
  induction d as [|d IH|d IH|d IH|d IH|d IH|d IH|d IH|d IH|d IH|d IH];
    [reflexivity|exact IH|..];
    cbn [NilEmpty.string_of_uint parse_digits];
    match goal with
    | |- context [digit_value ?c] =>
        let v := eval vm_compute in (digit_value c) in
        change (digit_value c) with v
    end; cbn [Z.ltb Z.compare Pos.compare Pos.compare_cont default from_option id
         Z.mul Z.add Pos.of_uint Z.of_N];
    apply parse_digits_from_pos.
Qed.

Lemma parse_digits_uint (d : Decimal.uint) :
  d <> Decimal.Nil ->
  parse_digits 10 (NilEmpty.string_of_uint d) None
  = Some (Z.of_N (Pos.of_uint d)).
Proof.
  destruct d as [|d|d|d|d|d|d|d|d|d|d]; intros H; [congruence|..];
    cbn [NilEmpty.string_of_uint parse_digits];
    match goal with
    | |- context [digit_value ?c] =>
        let v := eval vm_compute in (digit_value c) in
        change (digit_value c) with v
    end; cbn [Z.ltb Z.compare Pos.compare Pos.compare_cont default from_option id
         Z.mul Z.add Pos.of_uint Z.of_N];
    [apply parse_digits_from_zero | apply parse_digits_from_pos ..].
Qed.

(** A string of decimal digits has no white space, sign or [0x] in front. *)
Lemma parseInt_uint (d : Decimal.uint) :
  d <> Decimal.Nil ->
  parseInt (NilEmpty.string_of_uint d) = Int (Z.of_N (Pos.of_uint d))
  /\ parseInt (String "-" (NilEmpty.string_of_uint d))
     = Int (- Z.of_N (Pos.of_uint d)).
Proof.
  intros H. pose proof (parse_digits_uint d H) as Hd.
  assert (Hs : forall n : Z, 1 * n = n /\ -1 * n = - n) by (intros n; lia).
  destruct d as [|d|d|d|d|d|d|d|d|d|d]; [congruence|destruct d|..];
    unfold parseInt; cbn [NilEmpty.string_of_uint trim_start] in *;
    repeat match goal with
      | |- context [is_whitespace ?c] =>
          let v := eval vm_compute in (is_whitespace c) in
          change (is_whitespace c) with v
      end;
    cbv beta iota zeta; rewrite Hd;
    split; f_equal; apply Hs.
Qed.

Lemma parseInt_Number_toString (z : Z) : parseInt (Number_toString z) = Int z.
Proof.
  destruct z as [|p|p]; [reflexivity|..]; unfold Number_toString; simpl;
    pose proof (DecimalPos.Unsigned.to_uint_nonnil p) as Hn;
    pose proof (DecimalPos.Unsigned.of_to p) as Hp;
    destruct (parseInt_uint (Pos.to_uint p) Hn) as [H1 H2];
    rewrite Hp in H1, H2.
  - unfold NilZero.string_of_uint.
    destruct (Pos.to_uint p); [congruence|exact H1..].
  - unfold NilZero.string_of_uint.
    destruct (Pos.to_uint p); [congruence|exact H2..].
Qed.

Lemma Number_toString_nonempty (z : Z) :
  exists c s, Number_toString z = String c s.
Proof.
  destruct z as [|p|p]; unfold Number_toString; simpl; [now eexists _, _| |].
  - pose proof (DecimalPos.Unsigned.to_uint_nonnil p) as Hn.
    unfold NilZero.string_of_uint.
    destruct (Pos.to_uint p); [congruence|now eexists _, _..].
  - now eexists _, _.
Qed.

Lemma getHighScore_stored (w : World.t) (z : Z) :
  World.localStorage w !! "catto_highscore" = Some (Number_toString z) ->
  getHighScore w = Int z.
Proof.
  intros H. unfold getHighScore. rewrite H.
  destruct (Number_toString_nonempty z) as (c & s & Hcs).
  rewrite Hcs, <- Hcs. apply parseInt_Number_toString.
Qed.

(** With nothing stored, the high score reads as 0. *)
Lemma getHighScore_absent (w : World.t) :
  World.localStorage w !! "catto_highscore" = None -> getHighScore w = Int 0.
Proof. intros H. unfold getHighScore. now rewrite H. Qed.

(** When the stored high score reads as a number, the score read after
    [gameOver] is the larger of that number and the kill count; the store
    is written exactly when the kill count is strictly larger, with the
    kill count, and is left as it was otherwise. *)
Lemma gameOver_persists_max (w : World.t) (previous : Z) :
  getHighScore w = Int previous ->
  getHighScore (gameOver w) = Int (Z.max previous (kills w))
  /\ (previous < kills w ->
      World.localStorage (gameOver w)
      = <["catto_highscore" := Number_toString (kills w)]> (World.localStorage w))
  /\ (kills w <= previous ->
      World.localStorage (gameOver w) = World.localStorage w).
Proof.
  intros Hprev. unfold gameOver.
  set (w1 := World.set_gameState _ w).
  assert (H1 : getHighScore w1 = Int previous) by exact Hprev.
  assert (Hk : kills w1 = kills w) by reflexivity.
  rewrite H1, Hk. unfold gt_jsint.
  destruct (Z.ltb_spec previous (kills w)) as [Hlt|Hge].
  - split; [|split; [reflexivity|lia]].
    rewrite Z.max_r by lia.
    apply getHighScore_stored. simpl. apply lookup_insert_eq.
  - split; [|split; [lia|reflexivity]].
    rewrite Z.max_l by lia. exact Hprev.
Qed.

Lemma gameOver_persists_max_witness :
  let w := Examples.seven_kills in
  getHighScore w = Int 5
  /\ getHighScore (gameOver w) = Int (Z.max 5 (kills w))
  /\ (5 < kills w ->
      World.localStorage (gameOver w)
      = <["catto_highscore" := Number_toString (kills w)]> (World.localStorage w))
  /\ (kills w <= 5 ->
      World.localStorage (gameOver w) = World.localStorage w).
Proof.
  split; [reflexivity|].
  apply (gameOver_persists_max Examples.seven_kills 5). reflexivity.
Defined.

(** C8 fails on the code: a stored value that is not a number makes
    [getHighScore] return NaN, not 0. *)
Theorem getHighScore_invalid_is_NaN :
  World.localStorage Examples.invalid_store !! "catto_highscore" = Some "abc"
  /\ getHighScore Examples.invalid_store = IntNaN.
Proof. split; reflexivity. Qed.

(** After that, no kill count is ever stored. *)
Lemma gameOver_invalid_store_stuck (w : World.t) :
  getHighScore w = IntNaN ->
  World.localStorage (gameOver w) = World.localStorage w.
Proof.
  intros H. unfold gameOver.
  set (w1 := World.set_gameState _ w).
  assert (H1 : getHighScore w1 = IntNaN) by exact H.
  now rewrite H1.
Qed.

(** C7 fails on the code: for every Game Over the persisted high score
    should become the larger of the previous one and the kill count.  With
    a stored value that is not a number (which [getHighScore] documents as
    reading 0) and 7 kills, [finalScore > currentHighScore] compares 7 with
    NaN and is false: nothing is written, the store still holds ["abc"],
    and the score read back is NaN, not [max 0 7 = 7].  The same run on an
    empty store does write ["7"]. *)
Theorem gameOver_does_not_replace_invalid_high_score :
  let w := Examples.seven_kills_invalid_store in
  World.localStorage w !! "catto_highscore" = Some "abc"
  /\ kills w = 7
  /\ getHighScore w = IntNaN
  /\ GameState.gameOver (World.gameState (gameOver w)) = true
  /\ World.localStorage (gameOver w) !! "catto_highscore" = Some "abc"
  /\ World.localStorage (gameOver w) = World.localStorage w
  /\ getHighScore (gameOver w) = IntNaN
  /\ getHighScore (gameOver w) <> Int (Z.max 0 (kills w))
  /\ World.localStorage
       (gameOver (World.set_localStorage ∅ w)) !! "catto_highscore"
     = Some "7".
Proof.
  assert (Hn : getHighScore Examples.seven_kills_invalid_store = IntNaN)
    by reflexivity.
  assert (Hs : World.localStorage (gameOver Examples.seven_kills_invalid_store)
               = World.localStorage Examples.seven_kills_invalid_store).
  { unfold gameOver. cbv zeta.
    change (getHighScore (World.set_gameState _ Examples.seven_kills_invalid_store))
      with (getHighScore Examples.seven_kills_invalid_store).
    now rewrite Hn. }
  assert (Hg : getHighScore (gameOver Examples.seven_kills_invalid_store) = IntNaN).
  { unfold getHighScore at 1. now rewrite Hs. }
  cbv zeta. rewrite Hs, Hg.
  repeat split; try reflexivity; discriminate.
Qed.

(** ** C9: a paused frame *)

(** C9: while the pause flag is set and the game is not over, [gameLoop]
    returns the world it was given: time, player, abilities, enemies,
    projectiles, orbs, particles and everything else are unchanged. *)
Theorem paused_frame_changes_nothing {ML : MathLib} (w : World.t) :
  paused w = true ->
  GameState.gameOver (World.gameState w) = false ->
  gameLoop w = w.
Proof. intros Hp Hg. unfold gameLoop. now rewrite Hg, Hp. Qed.

Lemma paused_frame_changes_nothing_witness :
  let w := Examples.paused_world in
  (paused w = true /\ GameState.gameOver (World.gameState w) = false)
  /\ @gameLoop referenceMath w = w.
Proof.
  split; [split; vm_compute; reflexivity|].
  apply (@paused_frame_changes_nothing referenceMath Examples.paused_world);
    vm_compute; reflexivity.
Defined.

(** ** C10: the player stays on the canvas *)

(** C10: on a canvas of at least 60 by 60, [updatePlayer] leaves the player
    in [30, canvas.width - 30] x [30, canvas.height - 30] whatever keys are
    held; every frame that runs ends with the player there, and so the
    player is there in every reachable world. *)
Theorem player_stays_on_canvas {ML : MathLib} (w : World.t) :
  60 <= Canvas.width (World.canvas w) ->
  60 <= Canvas.height (World.canvas w) ->
  on_canvas (updatePlayer w)
  /\ (GameState.gameOver (World.gameState w) = false -> paused w = false ->
      on_canvas (gameLoop w))
  /\ (reachable w -> on_canvas w).
Proof.
  intros Hw Hh. split; [|split].
  - now apply updatePlayer_on_canvas.
  - intros Hg Hp. now apply gameLoop_running_frame.
  - intros Hr. now apply reachable_invariant.
Qed.

Lemma player_stays_on_canvas_witness :
  let w := Examples.keys_held in
  (60 <= Canvas.width (World.canvas w) /\ 60 <= Canvas.height (World.canvas w))
  /\ Player.x (player (updatePlayer w)) = 597
  /\ Player.y (player (updatePlayer w)) = 397
  /\ on_canvas (updatePlayer w)
  /\ (GameState.gameOver (World.gameState w) = false -> paused w = false ->
      on_canvas (@gameLoop referenceMath w))
  /\ (@reachable referenceMath w -> on_canvas w).
Proof.
  split; [split; vm_compute; discriminate|].
  split; [reflexivity|]. split; [reflexivity|].
  apply (@player_stays_on_canvas referenceMath Examples.keys_held);
    vm_compute; discriminate.
Defined.

(** * Further properties of the frame

    The lemmas of this part carry a relation through the body of each
    update function. *)
Section FrameLemmas.
Context (R : World.t -> World.t -> Prop) `{!Frame R}.

Lemma forEach_frame {A} (arr : World.t -> Arr.t A)
    (callback : nat -> nat -> World.t -> World.t) :
  (forall r k w, R w (callback r k w)) ->
  forall w, R w (forEach arr callback w).
Proof.
  intros Hcb w. unfold forEach.
  generalize (Arr.length (arr w)) 0%nat. intros n. revert w.
  induction n as [|n IH]; intros w k; simpl; [apply frame_refl|].
  eapply frame_trans; [|apply IH].
  destruct (Arr.refs (arr w) !! k); [apply Hcb|apply frame_refl].
Qed.

Lemma fold_left_frame {B} (f : World.t -> B -> World.t) (l : list B) :
  (forall w b, R w (f w b)) -> forall w, R w (fold_left f l w).
Proof.
  intros Hf. induction l as [|b l IH]; intros w; simpl; [apply frame_refl|].
  eapply frame_trans; [apply Hf|apply IH].
Qed.

Lemma frame_let (w v : World.t) (f : World.t -> World.t) :
  R w v -> (forall x, R x (f x)) -> R w (f v).
Proof. intros Hv Hf. eapply frame_trans; [exact Hv|apply Hf]. Qed.

Lemma frame_bind {B} (w : World.t) (m : B * World.t) (f : B -> World.t -> World.t) :
  R w m.2 -> (forall b x, R x (f b x)) -> R w (let '(b, x) := m in f b x).
Proof. destruct m as [b x]. intros Hm Hf. eapply frame_trans; [exact Hm|apply Hf]. Qed.

End FrameLemmas.

Create HintDb frame discriminated.

(** One step of a proof that a function is in a relation with its
    argument: peel the outermost operation.  A [let] that binds a world is
    cut at its bound value; a call of a function already shown to be in
    the relation is closed from the hints; an assignment is left to
    [leaf]. *)

Ltac frame_step leaf :=
  lazymatch goal with
  | |- ?R ?w ?w => apply (frame_refl (R:=R))
  | |- ?R ?w (let x := ?v in @?f x) =>
      lazymatch type of v with
      | World.t => apply (frame_let R w v f); [|intros ?; cbv beta]
      | _ => let body := eval cbv beta in (f v) in change (R w body)
      end
  | |- _ _ (if ?b then _ else _) => destruct b eqn:?
  | |- _ _ (if ?b then _ else _).2 => destruct b eqn:?
  | |- _ _ (_, _).2 => cbn [snd]
  | |- _ _ (match Math_random _ with _ => _ end) =>
      unfold Math_random; cbv beta iota
  | |- _ _ (match Math_random _ with _ => _ end).2 =>
      unfold Math_random; cbv beta iota
  | |- _ _ (match ?x with _ => _ end).2 => destruct x eqn:?
  | |- ?R ?w (match ?m with _ => _ end) =>
      lazymatch type of m with
      | (_ * World.t)%type => eapply (frame_bind R); [|intros ? ?; cbv beta]
      | _ => destruct m eqn:?
      end
  | |- ?R _ (forEach _ _ _) =>
      eapply (frame_trans (R:=R)); [|apply (forEach_frame R); intros ? ? ?]
  | |- ?R _ (fold_left _ _ _) =>
      eapply (frame_trans (R:=R)); [|apply (fold_left_frame R); intros ? ?]
  | |- ?R ?w (?f ?w') =>
      first
        [ solve [auto with frame nocore]
        | apply (frame_trans (R:=R) w w' (f w'));
          [|solve [auto with frame nocore | leaf]] ]
  end.

Lemma availableUpgrades_ext (a b : Abilities.t) :
  (forall k, Abilities.level k a = Abilities.level k b) ->
  availableUpgrades a = availableUpgrades b.
Proof.
  intros H. unfold availableUpgrades.
  rewrite (list_filter_iff _ (fun key => Abilities.level key b < Abilities.maxLevel key))
    by (intros k; now rewrite H).
  apply list_fmap_ext. intros i k _. now rewrite H.
Qed.

#[global] Instance steady_frame : Frame steady.
Proof.
  split.
  - intros w. unfold steady. repeat split; auto; lia.
  - intros w1 w2 w3 (Ht & Hk & Hr & Hl & Hc & Hki & Hlv & Hs & Ho & Hls & Hp)
      (Ht' & Hk' & Hr' & Hl' & Hc' & Hki' & Hlv' & Hs' & Ho' & Hls' & Hp').
    unfold steady.
    split; [congruence|]. split; [congruence|]. split; [congruence|].
    split; [intros k; now rewrite Hl', Hl|].
    split; [congruence|]. split; [lia|]. split; [lia|]. split; [congruence|].
    split; [auto|].
    split.
    { intros H3. rewrite Hls' by exact H3. apply Hls.
      destruct (over w2) eqn:H2; [|reflexivity].
      rewrite Ho' in H3; [discriminate|reflexivity]. }
    destruct Hp' as [[Hp1 Hp2]|[Hp1 Hp2]]; [|now right].
    destruct Hp as [[Hq1 Hq2]|[Hq1 Hq2]]; [left; split; congruence|].
    right. split; [congruence|]. intros u Hu. rewrite Hp2 in Hu.
    rewrite (availableUpgrades_ext _ (World.abilities w2)); [now apply Hq2|].
    exact Hl'.
Qed.

Ltac steady_leaf :=
  unfold steady, time, kills, over, paused, player, level_of, claw_layout, claws;
  cbn;
  repeat split;
  try reflexivity; try lia; try congruence;
  try (intros k; destruct k; reflexivity);
  try (left; split; reflexivity);
  try (rewrite <- list_fmap_compose; reflexivity).

Lemma dropXP_steady (x y : number) (value : Z) (w : World.t) :
  steady w (dropXP x y value w).
Proof. cbv delta [dropXP]. cbv beta. repeat frame_step steady_leaf. Qed.

Lemma catNap_steady (w : World.t) : steady w (catNap w).
Proof. cbv delta [catNap]. cbv beta. repeat frame_step steady_leaf. Qed.

Lemma gameOver_steady (w : World.t) : steady w (gameOver w).
Proof. unfold gameOver. cbv zeta. destruct (gt_jsint _ _); steady_leaf. Qed.

Lemma spawnEnemies_steady (w : World.t) : steady w (spawnEnemies w).
Proof. cbv delta [spawnEnemies]. cbv beta. repeat frame_step steady_leaf. Qed.

Lemma updateParticles_steady (w : World.t) : steady w (updateParticles w).
Proof. cbv delta [updateParticles]. cbv beta. repeat frame_step steady_leaf. Qed.

Lemma updatePlayer_steady (w : World.t) : steady w (updatePlayer w).
Proof.
  unfold updatePlayer.
  destruct (key_down "w" w || key_down "arrowup" w),
    (key_down "s" w || key_down "arrowdown" w),
    (key_down "a" w || key_down "arrowleft" w),
    (key_down "d" w || key_down "arrowright" w); steady_leaf.
Qed.

Lemma showLevelUpModal_world (w : World.t) :
  exists n,
    showLevelUpModal w
    = World.set_upgradeChoices (World.upgradeChoices (showLevelUpModal w))
        (World.set_randomCalls n (set_paused true w)).
Proof.
  unfold showLevelUpModal.
  destruct (drawUpgrades_world 2 (availableUpgrades (World.abilities (set_paused true w)))
              [] (set_paused true w)) as [n Hn].
  destruct (drawUpgrades 2 _ [] (set_paused true w)) as [sel w'].
  simpl in Hn. subst w'. exists n. reflexivity.
Qed.

Lemma showLevelUpModal_steady (w : World.t) : steady w (showLevelUpModal w).
Proof.
  destruct (showLevelUpModal_world w) as [n Hn].
  destruct (showLevelUpModal_choices w) as [Hsub _].
  revert Hn Hsub. generalize (showLevelUpModal w). intros w' Hn Hsub.
  unfold steady, time, kills, over, paused, player, level_of, claw_layout, claws.
  rewrite Hn. cbn.
  repeat split; try reflexivity; try lia; try congruence.
  right. split; [reflexivity|].
  intros u Hu. eapply elem_of_submseteq; [exact Hu|exact Hsub].
Qed.

Lemma levelUp_steady (w : World.t) : steady w (levelUp w).
Proof.
  unfold levelUp.
  eapply frame_trans; [|apply showLevelUpModal_steady].
  repeat case_match; steady_leaf.
Qed.

#[global] Hint Resolve dropXP_steady catNap_steady gameOver_steady
  spawnEnemies_steady updateParticles_steady updatePlayer_steady
  levelUp_steady : frame.

(** The loop of [updateAbilities] over [Object.values(abilities)] writes
    cooldowns only. *)
Lemma cooldowns_tick (a : Abilities.t) :
  let a' :=
    fold_left
      (fun a k =>
         if (Abilities.cooldown k a >? 0)%num
         then Abilities.set_cooldown k (Abilities.cooldown k a - 1)%num a
         else a)
      ability_keys a in
  (forall k, Abilities.level k a' = Abilities.level k a)
  /\ Abilities.clawOrbit_claws a' = Abilities.clawOrbit_claws a
  /\ Abilities.clawOrbit_rotation a' = Abilities.clawOrbit_rotation a.
Proof.
  unfold ability_keys. cbn [fold_left].
  repeat match goal with
         | |- context [if ?b then _ else _] => destruct b
         end;
    (split; [intros k; destruct k; reflexivity|split; reflexivity]).
Qed.

Lemma cooldowns_steady (w : World.t) :
  steady w
    (World.set_abilities
       (fold_left
          (fun a k =>
             if (Abilities.cooldown k a >? 0)%num
             then Abilities.set_cooldown k (Abilities.cooldown k a - 1)%num a
             else a)
          ability_keys (World.abilities w)) w).
Proof.
  destruct (cooldowns_tick (World.abilities w)) as (Hl & Hc & _).
  cbv zeta in Hl, Hc. revert Hl Hc. generalize (fold_left
          (fun a k =>
             if (Abilities.cooldown k a >? 0)%num
             then Abilities.set_cooldown k (Abilities.cooldown k a - 1)%num a
             else a)
          ability_keys (World.abilities w)). intros a Hl Hc.
  unfold steady, time, kills, over, paused, player, level_of, claw_layout, claws. cbn.
  rewrite Hc. repeat split; try reflexivity; try lia; try congruence; auto.
Qed.

#[global] Hint Resolve cooldowns_steady : frame.

Section SteadySimulation.
Context {ML : MathLib}.

Lemma fireWhiskerWhip_steady (w : World.t) : steady w (fireWhiskerWhip w).
Proof. cbv delta [fireWhiskerWhip]. cbv beta. repeat frame_step steady_leaf. Qed.

Lemma fireHairball_steady (w : World.t) : steady w (fireHairball w).
Proof. cbv delta [fireHairball]. cbv beta. repeat frame_step steady_leaf. Qed.

Lemma pawSlam_steady (w : World.t) : steady w (pawSlam w).
Proof. cbv delta [pawSlam setTimeout]. cbv beta. repeat frame_step steady_leaf. Qed.

#[local] Hint Resolve fireWhiskerWhip_steady fireHairball_steady pawSlam_steady : frame.

Lemma updateAbilities_steady (w : World.t) : steady w (updateAbilities w).
Proof. cbv delta [updateAbilities]. cbv beta. repeat frame_step steady_leaf. Qed.

Lemma clawHit_steady (enemy : nat) (w : World.t) (claw : Claw.t) :
  steady w (clawHit enemy w claw).
Proof. cbv delta [clawHit setTimeout]. cbv beta. repeat frame_step steady_leaf. Qed.

#[local] Hint Resolve clawHit_steady : frame.

Lemma updateEnemy_steady (enemy index : nat) (w : World.t) :
  steady w (updateEnemy enemy index w).
Proof. cbv delta [updateEnemy]. cbv beta. repeat frame_step steady_leaf. Qed.

#[local] Hint Resolve updateEnemy_steady : frame.

Lemma updateEnemies_steady (w : World.t) : steady w (updateEnemies w).
Proof. cbv delta [updateEnemies]. cbv beta. repeat frame_step steady_leaf. Qed.

Lemma projectileHit_steady (proj projIndex enemy enemyIndex : nat) (w : World.t) :
  steady w (projectileHit proj projIndex enemy enemyIndex w).
Proof. cbv delta [projectileHit]. cbv beta. repeat frame_step steady_leaf. Qed.

#[local] Hint Resolve projectileHit_steady : frame.

Lemma updateProjectiles_steady (w : World.t) : steady w (updateProjectiles w).
Proof. cbv delta [updateProjectiles updateProjectile]. cbv beta. repeat frame_step steady_leaf. Qed.

Lemma updateXP_steady (w : World.t) : steady w (updateXP w).
Proof. cbv delta [updateXP updateXPOrb]. cbv beta. repeat frame_step steady_leaf. Qed.

#[local] Hint Resolve updateAbilities_steady updateEnemies_steady
  updateProjectiles_steady updateXP_steady : frame.

(** A running frame after the clock has advanced. *)
Lemma gameLoop_steady (w : World.t) :
  over w = false -> paused w = false ->
  steady (World.set_gameState
            (GameState.set_time (time w + 1) (World.gameState w)) w)
         (gameLoop w).
Proof.
  intros Hg Hp. unfold gameLoop. unfold over in Hg. rewrite Hg, Hp.
  cbv beta iota zeta. simpl negb. cbv iota.
  eapply frame_trans; [|apply updateParticles_steady].
  eapply frame_trans; [|apply updateXP_steady].
  eapply frame_trans; [|apply updateProjectiles_steady].
  eapply frame_trans; [|apply updateEnemies_steady].
  eapply frame_trans; [|apply spawnEnemies_steady].
  eapply frame_trans; [|apply updateAbilities_steady].
  apply updatePlayer_steady.
Qed.

End SteadySimulation.


#[global] Instance thins_frame : Frame thins.
Proof.
  split.
  - intros w. unfold thins. reflexivity.
  - intros w1 w2 w3 H1 H2. unfold thins in *. now transitivity (Arr.refs (World.enemies w2)).
Qed.

Ltac thins_leaf :=
  unfold thins; cbn;
  first [ reflexivity | apply sublist_delete ].

Lemma showLevelUpModal_thins (w : World.t) : thins w (showLevelUpModal w).
Proof.
  destruct (showLevelUpModal_world w) as [n Hn]. rewrite Hn. thins_leaf.
Qed.

Lemma levelUp_thins (w : World.t) : thins w (levelUp w).
Proof.
  unfold levelUp. eapply frame_trans; [|apply showLevelUpModal_thins].
  thins_leaf.
Qed.

Lemma dropXP_thins (x y : number) (value : Z) (w : World.t) :
  thins w (dropXP x y value w).
Proof. cbv delta [dropXP]. cbv beta. repeat frame_step thins_leaf. Qed.

Lemma catNap_thins (w : World.t) : thins w (catNap w).
Proof. cbv delta [catNap]. cbv beta. repeat frame_step thins_leaf. Qed.

Lemma gameOver_thins (w : World.t) : thins w (gameOver w).
Proof. cbv delta [gameOver]. cbv beta. repeat frame_step thins_leaf. Qed.

Lemma updateParticles_thins (w : World.t) : thins w (updateParticles w).
Proof. cbv delta [updateParticles]. cbv beta. repeat frame_step thins_leaf. Qed.

Lemma updatePlayer_thins (w : World.t) : thins w (updatePlayer w).
Proof. unfold updatePlayer. thins_leaf. Qed.

#[global] Hint Resolve levelUp_thins dropXP_thins catNap_thins gameOver_thins
  updateParticles_thins updatePlayer_thins : frame.

Section ThinsSimulation.
Context {ML : MathLib}.

Lemma fireWhiskerWhip_thins (w : World.t) : thins w (fireWhiskerWhip w).
Proof. cbv delta [fireWhiskerWhip]. cbv beta. repeat frame_step thins_leaf. Qed.

Lemma fireHairball_thins (w : World.t) : thins w (fireHairball w).
Proof. cbv delta [fireHairball]. cbv beta. repeat frame_step thins_leaf. Qed.

Lemma pawSlam_thins (w : World.t) : thins w (pawSlam w).
Proof. cbv delta [pawSlam setTimeout]. cbv beta. repeat frame_step thins_leaf. Qed.

#[local] Hint Resolve fireWhiskerWhip_thins fireHairball_thins pawSlam_thins : frame.

Lemma updateAbilities_thins (w : World.t) : thins w (updateAbilities w).
Proof. cbv delta [updateAbilities]. cbv beta. repeat frame_step thins_leaf. Qed.

Lemma clawHit_thins (enemy : nat) (w : World.t) (claw : Claw.t) :
  thins w (clawHit enemy w claw).
Proof. cbv delta [clawHit setTimeout]. cbv beta. repeat frame_step thins_leaf. Qed.

#[local] Hint Resolve clawHit_thins : frame.

Lemma updateEnemy_thins (enemy index : nat) (w : World.t) :
  thins w (updateEnemy enemy index w).
Proof. cbv delta [updateEnemy]. cbv beta. repeat frame_step thins_leaf. Qed.

#[local] Hint Resolve updateEnemy_thins : frame.

Lemma updateEnemies_thins (w : World.t) : thins w (updateEnemies w).
Proof. cbv delta [updateEnemies]. cbv beta. repeat frame_step thins_leaf. Qed.

Lemma projectileHit_thins (proj projIndex enemy enemyIndex : nat) (w : World.t) :
  thins w (projectileHit proj projIndex enemy enemyIndex w).
Proof. cbv delta [projectileHit]. cbv beta. repeat frame_step thins_leaf. Qed.

#[local] Hint Resolve projectileHit_thins : frame.

Lemma updateProjectiles_thins (w : World.t) : thins w (updateProjectiles w).
Proof. cbv delta [updateProjectiles updateProjectile]. cbv beta. repeat frame_step thins_leaf. Qed.

Lemma updateXP_thins (w : World.t) : thins w (updateXP w).
Proof. cbv delta [updateXP updateXPOrb]. cbv beta. repeat frame_step thins_leaf. Qed.

End ThinsSimulation.

(** ** The statistics of enemies *)
#[global] Instance stats_kept_frame : Frame stats_kept.
Proof.
  split.
  - intros w. reflexivity.
  - intros w1 w2 w3 H1 H2. unfold stats_kept in *. congruence.
Qed.

Lemma stats_alter (f : Enemy.t -> Enemy.t) (r : nat) (l : list Enemy.t) :
  (forall e, enemy_stats (f e) = enemy_stats e) ->
  enemy_stats <$> alter f r l = enemy_stats <$> l.
Proof.
  intros Hf. revert r. induction l as [|e l IH]; intros [|r]; csimpl; try reflexivity.
  - now rewrite Hf.
  - f_equal. apply IH.
Qed.

Ltac stats_leaf :=
  unfold stats_kept, modify_enemy; cbn;
  first
    [ reflexivity
    | apply stats_alter; intros ?; cbv beta zeta; repeat case_match; reflexivity ].

Lemma showLevelUpModal_stats (w : World.t) : stats_kept w (showLevelUpModal w).
Proof.
  destruct (showLevelUpModal_world w) as [n Hn]. rewrite Hn. stats_leaf.
Qed.

Lemma levelUp_stats (w : World.t) : stats_kept w (levelUp w).
Proof.
  unfold levelUp. eapply frame_trans; [|apply showLevelUpModal_stats].
  stats_leaf.
Qed.

Lemma dropXP_stats (x y : number) (value : Z) (w : World.t) :
  stats_kept w (dropXP x y value w).
Proof. cbv delta [dropXP]. cbv beta. repeat frame_step stats_leaf. Qed.

Lemma catNap_stats (w : World.t) : stats_kept w (catNap w).
Proof. cbv delta [catNap]. cbv beta. repeat frame_step stats_leaf. Qed.

Lemma gameOver_stats (w : World.t) : stats_kept w (gameOver w).
Proof. cbv delta [gameOver]. cbv beta. repeat frame_step stats_leaf. Qed.

Lemma updateParticles_stats (w : World.t) : stats_kept w (updateParticles w).
Proof. cbv delta [updateParticles]. cbv beta. repeat frame_step stats_leaf. Qed.

Lemma updatePlayer_stats (w : World.t) : stats_kept w (updatePlayer w).
Proof. unfold updatePlayer. stats_leaf. Qed.

#[global] Hint Resolve levelUp_stats dropXP_stats catNap_stats gameOver_stats
  updateParticles_stats updatePlayer_stats : frame.

Section StatsSimulation.
Context {ML : MathLib}.

Lemma fireWhiskerWhip_stats (w : World.t) : stats_kept w (fireWhiskerWhip w).
Proof. cbv delta [fireWhiskerWhip]. cbv beta. repeat frame_step stats_leaf. Qed.

Lemma fireHairball_stats (w : World.t) : stats_kept w (fireHairball w).
Proof. cbv delta [fireHairball]. cbv beta. repeat frame_step stats_leaf. Qed.

Lemma pawSlam_stats (w : World.t) : stats_kept w (pawSlam w).
Proof. cbv delta [pawSlam setTimeout]. cbv beta. repeat frame_step stats_leaf. Qed.

#[local] Hint Resolve fireWhiskerWhip_stats fireHairball_stats pawSlam_stats : frame.

Lemma updateAbilities_stats (w : World.t) : stats_kept w (updateAbilities w).
Proof. cbv delta [updateAbilities]. cbv beta. repeat frame_step stats_leaf. Qed.

Lemma clawHit_stats (enemy : nat) (w : World.t) (claw : Claw.t) :
  stats_kept w (clawHit enemy w claw).
Proof. cbv delta [clawHit setTimeout]. cbv beta. repeat frame_step stats_leaf. Qed.

#[local] Hint Resolve clawHit_stats : frame.

Lemma updateEnemy_stats (enemy index : nat) (w : World.t) :
  stats_kept w (updateEnemy enemy index w).
Proof. cbv delta [updateEnemy]. cbv beta. repeat frame_step stats_leaf. Qed.

#[local] Hint Resolve updateEnemy_stats : frame.

Lemma updateEnemies_stats (w : World.t) : stats_kept w (updateEnemies w).
Proof. cbv delta [updateEnemies]. cbv beta. repeat frame_step stats_leaf. Qed.

Lemma projectileHit_stats (proj projIndex enemy enemyIndex : nat) (w : World.t) :
  stats_kept w (projectileHit proj projIndex enemy enemyIndex w).
Proof. cbv delta [projectileHit]. cbv beta. repeat frame_step stats_leaf. Qed.

#[local] Hint Resolve projectileHit_stats : frame.

Lemma updateProjectiles_stats (w : World.t) : stats_kept w (updateProjectiles w).
Proof. cbv delta [updateProjectiles updateProjectile]. cbv beta. repeat frame_step stats_leaf. Qed.

Lemma updateXP_stats (w : World.t) : stats_kept w (updateXP w).
Proof. cbv delta [updateXP updateXPOrb]. cbv beta. repeat frame_step stats_leaf. Qed.

End StatsSimulation.

(** ** Write sets of the update functions *)
Lemma unchanged_refl (v : Var) (w : World.t) : unchanged v w w.
Proof. destruct v; simpl; reflexivity. Qed.

Lemma unchanged_trans (v : Var) (w1 w2 w3 : World.t) :
  unchanged v w1 w2 -> unchanged v w2 w3 -> unchanged v w1 w3.
Proof.
  destruct v; simpl; congruence.
Qed.

#[global] Instance writes_only_frame (vs : list Var) : Frame (writes_only vs).
Proof.
  split.
  - intros w v _. apply unchanged_refl.
  - intros w1 w2 w3 H1 H2 v Hv. eapply unchanged_trans; [apply H1|apply H2]; exact Hv.
Qed.

Lemma writes_weaken (vs vs' : list Var) (w w' : World.t) :
  forallb (fun v => bool_decide (v ∈ vs')) vs = true ->
  writes_only vs w w' -> writes_only vs' w w'.
Proof.
  intros Hsub H v Hv. apply H.
  destruct (bool_decide (v ∈ vs)) eqn:Hm; [|reflexivity].
  apply bool_decide_eq_true in Hm.
  rewrite forallb_forall in Hsub. specialize (Hsub v).
  rewrite <- list_elem_of_In in Hsub. rewrite (Hsub Hm) in Hv. discriminate.
Qed.

Ltac writes_leaf :=
  let v := fresh "v" in
  let Hv := fresh "Hv" in
  intros v Hv; destruct v;
  first [ reflexivity
        | discriminate Hv
        | intros []; reflexivity ].

Ltac writes_from lemma :=
  eapply writes_weaken; [|apply lemma]; reflexivity.

Lemma dropXP_writes (x y : number) (value : Z) (w : World.t) :
  writes_only [v_xpOrbs; v_randomCalls] w (dropXP x y value w).
Proof. cbv delta [dropXP]. cbv beta. repeat frame_step writes_leaf. Qed.

Lemma catNap_writes (w : World.t) : writes_only [v_health] w (catNap w).
Proof. cbv delta [catNap]. cbv beta. repeat frame_step writes_leaf. Qed.

Lemma gameOver_writes (w : World.t) :
  writes_only [v_gameOver; v_localStorage] w (gameOver w).
Proof. cbv delta [gameOver]. cbv beta. repeat frame_step writes_leaf. Qed.

Lemma spawnEnemies_writes (w : World.t) :
  writes_only [v_enemies; v_enemy_objects; v_randomCalls] w (spawnEnemies w).
Proof. cbv delta [spawnEnemies]. cbv beta. repeat frame_step writes_leaf. Qed.


Lemma updatePlayer_writes (w : World.t) :
  writes_only [v_position] w (updatePlayer w).
Proof.
  unfold updatePlayer.
  destruct (key_down "w" w || key_down "arrowup" w),
    (key_down "s" w || key_down "arrowdown" w),
    (key_down "a" w || key_down "arrowleft" w),
    (key_down "d" w || key_down "arrowright" w); writes_leaf.
Qed.

Lemma showLevelUpModal_writes (w : World.t) :
  writes_only [v_paused; v_randomCalls; v_upgradeChoices] w (showLevelUpModal w).
Proof.
  destruct (showLevelUpModal_world w) as [n Hn]. rewrite Hn. writes_leaf.
Qed.

Lemma levelUp_writes (w : World.t) :
  writes_only [v_progress; v_health; v_paused; v_randomCalls; v_upgradeChoices]
    w (levelUp w).
Proof.
  unfold levelUp.
  eapply frame_trans; [|writes_from showLevelUpModal_writes].
  repeat case_match; writes_leaf.
Qed.

#[global] Hint Extern 1 (writes_only _ ?w (dropXP _ _ _ ?w)) =>
  writes_from dropXP_writes : frame.
#[global] Hint Extern 1 (writes_only _ ?w (catNap ?w)) =>
  writes_from catNap_writes : frame.
#[global] Hint Extern 1 (writes_only _ ?w (gameOver ?w)) =>
  writes_from gameOver_writes : frame.
#[global] Hint Extern 1 (writes_only _ ?w (levelUp ?w)) =>
  writes_from levelUp_writes : frame.

Lemma cooldowns_writes (w : World.t) :
  writes_only [v_cooldowns] w
    (World.set_abilities
       (fold_left
          (fun a k =>
             if (Abilities.cooldown k a >? 0)%num
             then Abilities.set_cooldown k (Abilities.cooldown k a - 1)%num a
             else a)
          ability_keys (World.abilities w)) w).
Proof.
  destruct (cooldowns_tick (World.abilities w)) as (Hl & Hc & Hr).
  cbv zeta in Hl, Hc, Hr. revert Hl Hc Hr. generalize (fold_left
          (fun a k =>
             if (Abilities.cooldown k a >? 0)%num
             then Abilities.set_cooldown k (Abilities.cooldown k a - 1)%num a
             else a)
          ability_keys (World.abilities w)). intros a Hl Hc Hr.
  intros v Hv; destruct v; try reflexivity; try discriminate Hv.
  - exact Hl.
  - unfold unchanged, claws. simpl. now rewrite Hc, Hr.
Qed.

#[global] Hint Extern 1 (writes_only _ ?w (World.set_abilities (fold_left _ ability_keys _) ?w)) =>
  writes_from cooldowns_writes : frame.

Section WritesSimulation.
Context {ML : MathLib}.

Lemma fireWhiskerWhip_writes (w : World.t) :
  writes_only [v_projectiles] w (fireWhiskerWhip w).
Proof. cbv delta [fireWhiskerWhip]. cbv beta. repeat frame_step writes_leaf. Qed.

Lemma fireHairball_writes (w : World.t) :
  writes_only [v_projectiles; v_randomCalls] w (fireHairball w).
Proof. cbv delta [fireHairball]. cbv beta. repeat frame_step writes_leaf. Qed.

Lemma pawSlam_writes (w : World.t) :
  writes_only [v_enemy_objects; v_timers; v_particles] w (pawSlam w).
Proof. cbv delta [pawSlam setTimeout]. cbv beta. repeat frame_step writes_leaf. Qed.

#[local] Hint Extern 1 (writes_only _ ?w (fireWhiskerWhip ?w)) =>
  writes_from fireWhiskerWhip_writes : frame.
#[local] Hint Extern 1 (writes_only _ ?w (fireHairball ?w)) =>
  writes_from fireHairball_writes : frame.
#[local] Hint Extern 1 (writes_only _ ?w (pawSlam ?w)) =>
  writes_from pawSlam_writes : frame.

Lemma updateAbilities_writes (w : World.t) :
  writes_only [v_claws; v_cooldowns; v_projectiles; v_randomCalls;
               v_enemy_objects; v_timers; v_particles; v_health]
    w (updateAbilities w).
Proof. cbv delta [updateAbilities]. cbv beta. repeat frame_step writes_leaf. Qed.

Lemma clawHit_writes (enemy : nat) (w : World.t) (claw : Claw.t) :
  writes_only [v_enemy_objects; v_timers] w (clawHit enemy w claw).
Proof. cbv delta [clawHit setTimeout]. cbv beta. repeat frame_step writes_leaf. Qed.

#[local] Hint Extern 1 (writes_only _ ?w (clawHit _ ?w _)) =>
  writes_from clawHit_writes : frame.

Lemma updateEnemy_writes (enemy index : nat) (w : World.t) :
  writes_only [v_enemies; v_enemy_objects; v_health; v_gameOver; v_kills;
               v_xpOrbs; v_timers; v_randomCalls; v_localStorage]
    w (updateEnemy enemy index w).
Proof. cbv delta [updateEnemy]. cbv beta. repeat frame_step writes_leaf. Qed.

#[local] Hint Extern 1 (writes_only _ ?w (updateEnemy _ _ ?w)) =>
  writes_from updateEnemy_writes : frame.

Lemma updateEnemies_writes (w : World.t) :
  writes_only [v_enemies; v_enemy_objects; v_health; v_gameOver; v_kills;
               v_xpOrbs; v_timers; v_randomCalls; v_localStorage]
    w (updateEnemies w).
Proof. cbv delta [updateEnemies]. cbv beta. repeat frame_step writes_leaf. Qed.

Lemma projectileHit_writes (proj projIndex enemy enemyIndex : nat) (w : World.t) :
  writes_only [v_projectiles; v_enemy_objects] w
    (projectileHit proj projIndex enemy enemyIndex w).
Proof. cbv delta [projectileHit]. cbv beta. repeat frame_step writes_leaf. Qed.

#[local] Hint Extern 1 (writes_only _ ?w (projectileHit _ _ _ _ ?w)) =>
  writes_from projectileHit_writes : frame.

Lemma updateProjectiles_writes (w : World.t) :
  writes_only [v_projectiles; v_enemy_objects] w (updateProjectiles w).
Proof. cbv delta [updateProjectiles updateProjectile]. cbv beta. repeat frame_step writes_leaf. Qed.

Lemma updateXP_writes (w : World.t) :
  writes_only [v_xpOrbs; v_progress; v_health; v_paused; v_randomCalls;
               v_upgradeChoices]
    w (updateXP w).
Proof. cbv delta [updateXP updateXPOrb]. cbv beta. repeat frame_step writes_leaf. Qed.

End WritesSimulation.

(** ** What [updateAbilities] writes, ability by ability *)
#[global] Instance fires_frame : Frame fires.
Proof.
  split.
  - intros w. split; [reflexivity|apply frame_refl].
  - intros w1 w2 w3 [Hl1 Hw1] [Hl2 Hw2]. split.
    + intros k. now rewrite Hl2.
    + assert (He : abilities_write_set w2 = abilities_write_set w1)
        by (unfold abilities_write_set; now rewrite !Hl1).
      rewrite He in Hw2. exact (frame_trans _ _ _ Hw1 Hw2).
Qed.

(** The guard of an ability that fired tells that its level is above 0. *)
Ltac use_guards :=
  unfold abilities_write_set, level_of; cbn [Abilities.level];
  repeat match goal with
         | H : (?l >? 0) && _ = true |- _ => apply andb_prop in H as [H _]
         | H : (?l >? 0) = true |- context [?l >? 0] => rewrite H
         end.

Ltac split_guards :=
  repeat match goal with
         | |- context [if ?b then _ else _] => destruct b
         end.

Ltac fires_leaf :=
  split;
  [ intros []; reflexivity
  | use_guards;
    let v := fresh "v" in
    let Hv := fresh "Hv" in
    intros v Hv; destruct v;
    first [ reflexivity
          | intros []; reflexivity
          | revert Hv; split_guards; discriminate ] ].

Ltac fires_from lemma lemma' :=
  split;
  [ now destruct lemma' as (_ & _ & _ & ? & _)
  | use_guards; eapply writes_weaken; [|apply lemma]; split_guards; reflexivity ].

Lemma cooldowns_fires (w : World.t) :
  fires w
    (World.set_abilities
       (fold_left
          (fun a k =>
             if (Abilities.cooldown k a >? 0)%num
             then Abilities.set_cooldown k (Abilities.cooldown k a - 1)%num a
             else a)
          ability_keys (World.abilities w)) w).
Proof. fires_from cooldowns_writes (cooldowns_steady w). Qed.

#[global] Hint Resolve cooldowns_fires : frame.

Section Fires.
Context {ML : MathLib}.

#[local] Hint Extern 1 (fires ?w (fireWhiskerWhip ?w)) =>
  fires_from fireWhiskerWhip_writes (fireWhiskerWhip_steady w) : frame.
#[local] Hint Extern 1 (fires ?w (fireHairball ?w)) =>
  fires_from fireHairball_writes (fireHairball_steady w) : frame.
#[local] Hint Extern 1 (fires ?w (pawSlam ?w)) =>
  fires_from pawSlam_writes (pawSlam_steady w) : frame.
#[local] Hint Extern 1 (fires ?w (catNap ?w)) =>
  fires_from catNap_writes (catNap_steady w) : frame.

Lemma updateAbilities_fires (w : World.t) : fires w (updateAbilities w).
Proof. cbv delta [updateAbilities]. cbv beta. repeat frame_step fires_leaf. Qed.

End Fires.

(** ** A frame as a whole *)
Section Frames.
Context {ML : MathLib}.

(** A frame either returns the world it was given, or advances the clock
    and runs the update functions in order. *)
Lemma gameLoop_cases (w : World.t) :
  (over w || paused w = true /\ gameLoop w = w)
  \/ (over w || paused w = false
      /\ gameLoop w
         = updateParticles (updateXP (updateProjectiles (updateEnemies
             (spawnEnemies (updateAbilities (updatePlayer (tick w)))))))).
Proof.
  unfold gameLoop. fold (over w). destruct (over w); [now left|].
  destruct (paused w); [now left|]. now right.
Qed.

(** The updates before [spawnEnemies] and those after it. *)
Lemma before_spawn (w : World.t) :
  steady w (updateAbilities (updatePlayer w))
  /\ thins w (updateAbilities (updatePlayer w)).
Proof.
  split.
  - apply (frame_trans _ (updatePlayer w));
      [apply updatePlayer_steady|apply updateAbilities_steady].
  - apply (frame_trans _ (updatePlayer w));
      [apply updatePlayer_thins|apply updateAbilities_thins].
Qed.

Lemma after_spawn (w : World.t) :
  steady w (updateParticles (updateXP (updateProjectiles (updateEnemies w))))
  /\ thins w (updateParticles (updateXP (updateProjectiles (updateEnemies w)))).
Proof.
  split.
  - apply (frame_trans _ (updateXP (updateProjectiles (updateEnemies w))));
      [|apply updateParticles_steady].
    apply (frame_trans _ (updateProjectiles (updateEnemies w)));
      [|apply updateXP_steady].
    apply (frame_trans _ (updateEnemies w));
      [apply updateEnemies_steady|apply updateProjectiles_steady].
  - apply (frame_trans _ (updateXP (updateProjectiles (updateEnemies w))));
      [|apply updateParticles_thins].
    apply (frame_trans _ (updateProjectiles (updateEnemies w)));
      [|apply updateXP_thins].
    apply (frame_trans _ (updateEnemies w));
      [apply updateEnemies_thins|apply updateProjectiles_thins].
Qed.

Lemma gameLoop_frame (w : World.t) :
  over w || paused w = false -> steady (tick w) (gameLoop w).
Proof.
  intros H. destruct (gameLoop_cases w) as [[H' _]|[_ ->]]; [congruence|].
  destruct (before_spawn (tick w)) as [H1 _].
  destruct (after_spawn (spawnEnemies (updateAbilities (updatePlayer (tick w))))) as [H3 _].
  apply (frame_trans _ _ _ H1).
  apply (frame_trans _ _ _ (spawnEnemies_steady _)). exact H3.
Qed.

(** X1: a frame that runs (the game is not over and not paused) advances
    [gameState.time] by exactly one; a frame that does not run leaves it.
    No update function writes the clock. *)
Theorem gameLoop_clock (w : World.t) :
  time (gameLoop w) = if over w || paused w then time w else time w + 1.
Proof.
  destruct (gameLoop_cases w) as [[-> ->]|[H _]]; [reflexivity|].
  rewrite H. now destruct (gameLoop_frame w H) as (Ht & _).
Qed.

(** X2: no frame lowers the kill count or the player's level. *)
Theorem gameLoop_never_takes_back (w : World.t) :
  kills w <= kills (gameLoop w)
  /\ Player.level (player w) <= Player.level (player (gameLoop w)).
Proof.
  destruct (gameLoop_cases w) as [[_ ->]|[H _]]; [split; lia|].
  destruct (gameLoop_frame w H) as (_ & _ & _ & _ & _ & Hk & Hl & _).
  split; [exact Hk|exact Hl].
Qed.

Lemma frame_keeps_abilities (w : World.t) :
  (forall k, level_of k (gameLoop w) = level_of k w)
  /\ claw_layout (gameLoop w) = claw_layout w.
Proof.
  destruct (gameLoop_cases w) as [[_ ->]|[H _]]; [split; reflexivity|].
  destruct (gameLoop_frame w H) as (_ & _ & _ & Hl & Hc & _).
  split; [exact Hl|exact Hc].
Qed.

(** X3: no frame changes the level of an ability or the layout of the
    claws (their number, angles and distances): levels change in
    [selectUpgrade] only, and a frame only moves the claws around the
    player. *)
Theorem gameLoop_keeps_abilities (w : World.t) :
  (forall k, level_of k (gameLoop w) = level_of k w)
  /\ claw_layout (gameLoop w) = claw_layout w.
Proof. exact (frame_keeps_abilities w). Qed.

(** X4: a frame after which the game is not over has left [localStorage]
    as it was: the high score is written at game over only. *)
Theorem gameLoop_store_written_at_game_over_only (w : World.t) :
  over (gameLoop w) = false ->
  World.localStorage (gameLoop w) = World.localStorage w.
Proof.
  intros Ho.
  destruct (gameLoop_cases w) as [[_ ->]|[H _]]; [reflexivity|].
  destruct (gameLoop_frame w H) as (_ & _ & _ & _ & _ & _ & _ & _ & _ & Hs & _).
  now apply Hs.
Qed.

(** The world that [startGame] hands to its first frame. *)
Lemma startGame_first_frame (w : World.t) :
  exists w1,
    startGame w = gameLoop w1
    /\ World.gameState w1 = GameState.initial
    /\ Arr.refs (World.enemies w1) = []
    /\ Arr.refs (World.projectiles w1) = []
    /\ Arr.refs (World.xpOrbs w1) = []
    /\ Arr.refs (World.particles w1) = []
    /\ (forall k, level_of k w1 = if decide (k = ClawOrbit) then 1 else 0)
    /\ claw_layout w1 = [(Math_PI * 2 / 2 * 0, 55); (Math_PI * 2 / 2 * 1, 55)]%num
    /\ World.keys w1 = World.keys w
    /\ World.canvas w1 = World.canvas w
    /\ World.localStorage w1 = World.localStorage w
    /\ World.random w1 = World.random w
    /\ World.randomCalls w1 = World.randomCalls w.
Proof.
  unfold startGame. eexists. split; [reflexivity|].
  repeat split; try reflexivity.
  intros k; destruct k; reflexivity.
Qed.

Lemma maxEnemies_mono (w w' : World.t) :
  time w <= time w' ->
  Player.level (player w) <= Player.level (player w') ->
  maxEnemies w <= maxEnemies w'.
Proof.
  intros Ht Hl. unfold maxEnemies.
  pose proof (Z.div_le_mono _ _ 1800 ltac:(lia) Ht).
  pose proof (Z.div_le_mono _ _ 3 ltac:(lia) Hl).
  lia.
Qed.

Lemma thins_length (w w' : World.t) :
  thins w w' ->
  Z.of_nat (Arr.length (World.enemies w')) <= Z.of_nat (Arr.length (World.enemies w)).
Proof. unfold thins, Arr.length. intros H. apply sublist_length in H. lia. Qed.

Lemma steady_cap (w w' : World.t) : steady w w' -> maxEnemies w <= maxEnemies w'.
Proof.
  intros (Ht & _ & _ & _ & _ & _ & Hl & _). apply maxEnemies_mono; [lia|exact Hl].
Qed.

Lemma gameLoop_within_cap (w : World.t) : within_cap w -> within_cap (gameLoop w).
Proof.
  intros Hw.
  destruct (gameLoop_cases w) as [[_ ->]|[_ ->]]; [exact Hw|].
  unfold within_cap in *.
  destruct (before_spawn (tick w)) as [Hs1 Ht1].
  revert Hs1 Ht1.
  generalize (updateAbilities (updatePlayer (tick w))). intros w2 Hs1 Ht1.
  destruct (after_spawn (spawnEnemies w2)) as [Hs3 Ht3].
  revert Hs3 Ht3.
  generalize (updateParticles (updateXP (updateProjectiles (updateEnemies (spawnEnemies w2))))).
  intros w4 Hs3 Ht3.
  assert (H2 : Z.of_nat (Arr.length (World.enemies w2)) <= maxEnemies w2).
  { pose proof (thins_length _ _ Ht1). pose proof (steady_cap _ _ Hs1).
    assert (maxEnemies w <= maxEnemies (tick w))
      by (apply maxEnemies_mono; [unfold tick, time; simpl; lia|reflexivity]).
    assert (Arr.length (World.enemies (tick w)) = Arr.length (World.enemies w)) by reflexivity.
    lia. }
  assert (H3 : Z.of_nat (Arr.length (World.enemies (spawnEnemies w2)))
               <= maxEnemies (spawnEnemies w2)).
  { destruct (spawnEnemies_effect w2) as [Hg [He|[Hlt [e He]]]];
      unfold maxEnemies, time, player in *; rewrite Hg, He; [exact H2|].
    rewrite length_push. lia. }
  pose proof (thins_length _ _ Ht3). pose proof (steady_cap _ _ Hs3). lia.
Qed.

(** In every reachable world the enemies are within the cap of
    [spawnEnemies], hence at most 50. *)
(** X5: in every reachable world the number of enemies is within the cap
    that [spawnEnemies] computes for that world,
    [min(15 + 5 * floor(time / 1800) + 3 * floor(level / 3), 50)], and so
    never above 50: only [spawnEnemies] adds an enemy, and the cap never
    goes down because the clock and the level never do. *)
Theorem enemies_never_exceed_cap (w : World.t) :
  reachable w ->
  Z.of_nat (Arr.length (World.enemies w)) <= maxEnemies w
  /\ (Arr.length (World.enemies w) <= 50)%nat.
Proof.
  intros Hr.
  assert (H : within_cap w).
  { induction Hr as [w|w Hr IH|w u Hr IH Hu|w i Hr IH|w k b Hr IH].
    - destruct (startGame_first_frame w) as (w1 & -> & Hg & He & _).
      apply gameLoop_within_cap. unfold within_cap, maxEnemies, time, player, Arr.length.
      rewrite Hg, He. vm_compute. discriminate.
    - now apply gameLoop_within_cap.
    - unfold within_cap, selectUpgrade in *. destruct (decide _); exact IH.
    - unfold within_cap, runTimer in *. destruct (_ !! i) as [[r a]|]; exact IH.
    - exact IH. }
  split; [exact H|]. unfold within_cap, maxEnemies in H. lia.
Qed.

(** ** Ability levels in a session *)





(** ** The claws *)

Lemma initClawOrbit_layout (w w' : World.t) :
  level_of ClawOrbit w' = level_of ClawOrbit w ->
  claw_layout (initClawOrbit w') = claw_layout (initClawOrbit w).
Proof.
  unfold level_of, claw_layout, claws, initClawOrbit. simpl. intros ->. reflexivity.
Qed.

(** X7: in every reachable world the claws are laid out as
    [initClawOrbit] lays them out for the current level of Claw Orbit: two
    claws below level 3 and four from level 3 on, at the angles and the
    distance of [initClawOrbit].  [selectUpgrade] calls [initClawOrbit]
    whenever that level changes, and nothing else changes the layout. *)
Theorem claws_match_level (w : World.t) :
  reachable w ->
  claw_layout w = claw_layout (initClawOrbit w)
  /\ length (claws w) = if level_of ClawOrbit w >=? 3 then 4%nat else 2%nat.
Proof.
  intros Hr.
  assert (H : claw_layout w = claw_layout (initClawOrbit w)).
  { induction Hr as [w|w Hr IH|w u Hr IH Hu|w i Hr IH|w k b Hr IH].
    - destruct (startGame_first_frame w) as (w1 & -> & _ & _ & _ & _ & _ & Hl & Hc & _).
      destruct (frame_keeps_abilities w1) as [Hl' Hc'].
      rewrite Hc', (initClawOrbit_layout w1) by apply Hl'.
      rewrite Hc. unfold claw_layout, claws, initClawOrbit. 
      pose proof (Hl ClawOrbit) as H1. unfold level_of in H1. simpl in H1. rewrite H1.
      reflexivity.
    - destruct (frame_keeps_abilities w) as [Hl' Hc'].
      rewrite Hc', (initClawOrbit_layout w) by apply Hl'. exact IH.
    - unfold selectUpgrade. destruct (decide (Upgrade.key u = ClawOrbit)) as [->|Hne].
      + reflexivity.
      + destruct (Upgrade.key u); try congruence; exact IH.
    - unfold runTimer. destruct (_ !! i) as [[r a]|]; exact IH.
    - exact IH. }
  split; [exact H|].
  apply (f_equal length) in H. unfold claw_layout in H. rewrite !length_fmap in H.
  rewrite H. unfold claws, initClawOrbit, level_of. simpl. rewrite length_fmap.
  destruct (_ >=? 3); reflexivity.
Qed.

(** ** Every ability at its maximum *)

(** X8: when every ability is at its maximum level, [levelUp] still sets
    the pause flag, but the pool is empty: no draw is made, the modal has
    no button, and the next frame returns the world as it is.  With no
    button there is no call of [selectUpgrade] to clear the flag. *)
Theorem levelUp_with_every_ability_maxed (w : World.t) :
  (forall k, Abilities.maxLevel k <= level_of k w) ->
  World.upgradeChoices (levelUp w) = []
  /\ paused (levelUp w) = true
  /\ World.randomCalls (levelUp w) = World.randomCalls w
  /\ gameLoop (levelUp w) = levelUp w.
Proof.
  intros H.
  assert (Ha : forall w0, World.abilities w0 = World.abilities w ->
                 availableUpgrades (World.abilities w0) = []).
  { intros w0 ->. unfold availableUpgrades, ability_keys.
    pose proof (H ClawOrbit). pose proof (H WhiskerWhip). pose proof (H HairballBurst).
    pose proof (H PawSlam). pose proof (H CatNap).
    unfold level_of, Abilities.maxLevel in *.
    rewrite !filter_cons, filter_nil.
    repeat case_decide; try reflexivity; lia. }
  assert (Hc : World.upgradeChoices (levelUp w) = []
               /\ World.randomCalls (levelUp w) = World.randomCalls w).
  { unfold levelUp, showLevelUpModal. cbv zeta. rewrite Ha by reflexivity.
    simpl. split; reflexivity. }
  destruct (levelUp_player w) as (_ & _ & _ & _ & _ & Hp).
  destruct Hc as [Hc Hn]. repeat split; try assumption.
  destruct (gameLoop_cases (levelUp w)) as [[_ ->]|[Hf _]]; [reflexivity|].
  rewrite Hp, orb_true_r in Hf. discriminate.
Qed.

End Frames.

Lemma levelUp_with_every_ability_maxed_witness :
  let w := Examples.all_maxed in
  (forall k, Abilities.maxLevel k <= level_of k w)
  /\ World.upgradeChoices (levelUp w) = []
  /\ paused (levelUp w) = true
  /\ World.randomCalls (levelUp w) = World.randomCalls w
  /\ @gameLoop referenceMath (levelUp w) = levelUp w.
Proof.
  split; [intros k; destruct k; vm_compute; discriminate|].
  apply (@levelUp_with_every_ability_maxed referenceMath Examples.all_maxed).
  intros k; destruct k; vm_compute; discriminate.
Defined.

Lemma claws_match_level_witness :
  let w := @startGame referenceMath Examples.fresh in
  @reachable referenceMath w
  /\ claw_layout w = claw_layout (initClawOrbit w)
  /\ length (claws w) = if level_of ClawOrbit w >=? 3 then 4%nat else 2%nat.
Proof.
  split; [apply reach_start|].
  apply (@claws_match_level referenceMath (@startGame referenceMath Examples.fresh)).
  apply reach_start.
Defined.


Lemma enemies_never_exceed_cap_witness :
  let w := @startGame referenceMath Examples.eager_spawn in
  @reachable referenceMath w
  /\ Arr.length (World.enemies w) = 1%nat
  /\ Z.of_nat (Arr.length (World.enemies w)) <= maxEnemies w
  /\ (Arr.length (World.enemies w) <= 50)%nat.
Proof.
  split; [apply reach_start|]. split; [vm_compute; reflexivity|].
  apply (@enemies_never_exceed_cap referenceMath
           (@startGame referenceMath Examples.eager_spawn)).
  apply reach_start.
Defined.

Lemma gameLoop_store_written_at_game_over_only_witness :
  let w := Examples.fresh in
  over (@gameLoop referenceMath w) = false
  /\ World.localStorage (@gameLoop referenceMath w) = World.localStorage w.
Proof.
  split; [vm_compute; reflexivity|].
  apply (@gameLoop_store_written_at_game_over_only referenceMath Examples.fresh).
  vm_compute. reflexivity.
Defined.

(** ** The player in [updateEnemies] *)
Section Contact2.
Context {ML : MathLib}.

Lemma clawHit_vitals (enemy : nat) (w : World.t) (claw : Claw.t) :
  vitals (clawHit enemy w claw) = vitals w.
Proof.
  unfold clawHit, setTimeout. cbv beta iota zeta.
  repeat case_match; reflexivity.
Qed.

Lemma fold_clawHit_vitals (enemy : nat) (claws : list Claw.t) (w : World.t) :
  vitals (fold_left (clawHit enemy) claws w) = vitals w.
Proof.
  revert w. induction claws as [|claw claws IH]; intros w; simpl; [reflexivity|].
  now rewrite IH, clawHit_vitals.
Qed.

Lemma dropXP_vitals (x y : number) (value : Z) (w : World.t) :
  vitals (dropXP x y value w) = vitals w.
Proof.
  unfold dropXP, Math_random. cbv beta iota zeta. case_match; reflexivity.
Qed.

Lemma gameOver_vitals (w w' : World.t) :
  World.gameState w' = World.gameState w ->
  World.localStorage w' = World.localStorage w ->
  vitals (gameOver w') = vitals (gameOver w).
Proof.
  intros Hg Hl. unfold gameOver. cbv zeta.
  unfold kills, getHighScore. simpl. rewrite Hg, Hl.
  destruct (gt_jsint _ _); unfold vitals, player, over; simpl; now rewrite ?Hg, ?Hl.
Qed.

Lemma updateEnemy_vitals (enemy index : nat) (w : World.t) :
  vitals (updateEnemy enemy index w) =
  match Arr.get enemy (World.enemies w) with
  | Some e =>
      if touches e w && not_invulnerable (player w) then
        let p' := hit (finalDamage e w) (player w) in
        if (Player.hp p' <=? 0)%num then vitals (gameOver (set_player p' w))
        else (p', over w, World.localStorage w)
      else vitals w
  | None => vitals w
  end.
Proof.
  set (w' := updateEnemy enemy index w).
  assert (Hw' : w' = updateEnemy enemy index w) by reflexivity. clearbody w'.
  cbv delta [updateEnemy] in Hw'. cbv beta in Hw'.
  destruct (Arr.get enemy (World.enemies w)) as [e|] eqn:He; [|now subst w'].
  cbv beta iota in Hw'.
  repeat lazymatch type of Hw' with
  | _ = (let y := ?v in @?f y) =>
      let y' := fresh y in
      pose (y' := v); change (w' = f y') in Hw'; cbv beta in Hw'
  end.
  rename w0 into moved, w1 into touched, w2 into clawed.
  assert (Hmoved : World.gameState moved = World.gameState w
                   /\ World.localStorage moved = World.localStorage w
                   /\ level_of CatNap moved = level_of CatNap w)
    by (unfold moved; destruct (0 <? dist)%num; repeat split; reflexivity).
  destruct Hmoved as (Hmg & Hml & Hmc).
  assert (Hmp : player moved = player w) by (unfold player; now rewrite Hmg).
  assert (Htouched :
    vitals touched =
    if touches e w && not_invulnerable (player w) then
      let p' := hit (finalDamage e w) (player w) in
      if (Player.hp p' <=? 0)%num then vitals (gameOver (set_player p' w))
      else (p', over w, World.localStorage w)
    else vitals w).
  { unfold touched. change (dist <? Enemy.size e + 20)%num with (touches e w).
    rewrite Hmp, Hmc.
    destruct (touches e w); simpl andb;
      [|unfold vitals, over; now rewrite Hmp, Hmg, Hml].
    destruct (not_invulnerable (player w));
      [|unfold vitals, over; now rewrite Hmp, Hmg, Hml].
    cbv zeta. unfold hit, finalDamage.
    set (p' := Player.set_invulnerable (Some 60) _).
    change (player (World.set_enemies
                      (Arr.splice index (World.enemies (set_player p' moved)))
                      (set_player p' moved)))
      with p'.
    destruct (Player.hp p' <=? 0)%num.
    - apply gameOver_vitals; simpl; [now rewrite Hmg|exact Hml].
    - unfold vitals, over, player. simpl. now rewrite Hmg, Hml. }
  assert (Hclawed : vitals clawed = vitals touched)
    by (unfold clawed; destruct (_ >? 0);
        [apply fold_clawHit_vitals|reflexivity]).
  rewrite <- Htouched, <- Hclawed.
  clearbody clawed touched moved.
  destruct (Arr.get enemy (World.enemies clawed)) as [e'|] eqn:He'; [|now subst w'].
  destruct (Enemy.hp e' <=? 0)%num; [|now subst w'].
  subst w'.
  rewrite <- (dropXP_vitals (Enemy.x e') (Enemy.y e') (Enemy.xpValue e') clawed).
  reflexivity.
Qed.

Lemma forEach_invariant {A} (arr : World.t -> Arr.t A)
    (callback : nat -> nat -> World.t -> World.t) (I : World.t -> Prop) :
  (forall r k w, Arr.refs (arr w) !! k = Some r -> I w -> I (callback r k w)) ->
  forall w, I w -> I (forEach arr callback w).
Proof.
  intros Hcb w. unfold forEach.
  generalize (Arr.length (arr w)) 0%nat. intros n. revert w.
  induction n as [|n IH]; intros w k Hw; simpl; [exact Hw|].
  apply IH. destruct (Arr.refs (arr w) !! k) eqn:Hr; [now apply (Hcb _ k)|exact Hw].
Qed.

Lemma not_invulnerable_false (p : Player.t) (n : Z) :
  Player.invulnerable p = Some n -> 0 < n -> not_invulnerable p = false.
Proof.
  intros H Hn. unfold not_invulnerable. rewrite H.
  destruct (Z.eqb_spec n 0); [lia|]. destruct (Z.leb_spec n 0); [lia|reflexivity].
Qed.

(** While the player is invulnerable, the loop of [updateEnemies] leaves
    the player, the game-over flag and the store alone. *)
Lemma shielded_loop (w : World.t) (n : Z) :
  Player.invulnerable (player w) = Some n -> 0 < n ->
  vitals (forEach World.enemies updateEnemy w) = vitals w.
Proof.
  intros Hi Hn.
  apply (forEach_invariant World.enemies updateEnemy (fun w' => vitals w' = vitals w));
    [|reflexivity].
  intros r k w' _ Hw'. rewrite updateEnemy_vitals.
  assert (Hp : player w' = player w) by (unfold vitals in Hw'; congruence).
  destruct (Arr.get r (World.enemies w')); [|exact Hw'].
  now rewrite Hp, (not_invulnerable_false _ n Hi Hn), andb_false_r.
Qed.

Lemma updateEnemies_countdown (w : World.t) :
  let w1 := forEach World.enemies updateEnemy w in
  player (updateEnemies w)
  = match Player.invulnerable (player w1) with
    | Some n => if n >? 0 then Player.set_invulnerable (Some (n - 1)) (player w1)
                else player w1
    | None => player w1
    end
  /\ over (updateEnemies w) = over w1
  /\ World.localStorage (updateEnemies w) = World.localStorage w1.
Proof.
  unfold updateEnemies. cbv zeta.
  destruct (Player.invulnerable _) as [n|]; [destruct (n >? 0)|]; repeat split.
Qed.

(** X9: while [invulnerable] is above 0, [updateEnemies] takes no hit
    point from the player whatever enemies touch the player: the player is
    as before but for [invulnerable], which is one less, and the game-over
    flag and [localStorage] are untouched. *)
Theorem invulnerable_player_is_not_hit (w : World.t) (n : Z) :
  Player.invulnerable (player w) = Some n -> 0 < n ->
  player (updateEnemies w) = Player.set_invulnerable (Some (n - 1)) (player w)
  /\ over (updateEnemies w) = over w
  /\ World.localStorage (updateEnemies w) = World.localStorage w.
Proof.
  intros Hi Hn. pose proof (shielded_loop w n Hi Hn) as Hv.
  destruct (updateEnemies_countdown w) as (Hp & Ho & Hl). cbv zeta in *.
  unfold vitals in Hv. injection Hv as Hv1 Hv2 Hv3.
  rewrite Hp, Ho, Hl, Hv1, Hv2, Hv3, Hi.
  destruct (Z.gtb_spec n 0); [auto|lia].
Qed.

(** X10: from level 4, [catNap] makes the player invulnerable for 180
    frames, so the [updateEnemies] that follows takes no hit point: [hp] is
    as [catNap] left it, [invulnerable] is 179 and the game-over flag is
    unchanged. *)
Theorem catNap_shields_the_next_contacts (w : World.t) :
  4 <= level_of CatNap w ->
  Player.hp (player (updateEnemies (catNap w))) = Player.hp (player (catNap w))
  /\ Player.invulnerable (player (updateEnemies (catNap w))) = Some 179
  /\ over (updateEnemies (catNap w)) = over w.
Proof.
  intros Hl.
  assert (Hi : Player.invulnerable (player (catNap w)) = Some 180
               /\ over (catNap w) = over w).
  { unfold catNap. cbv zeta. destruct (Z.geb_spec (level_of CatNap w) 4); [|lia].
    split; reflexivity. }
  destruct Hi as [Hi Ho].
  pose proof (shielded_loop (catNap w) 180 Hi ltac:(lia)) as Hv.
  destruct (updateEnemies_countdown (catNap w)) as (Hp & Ho' & _). cbv zeta in *.
  unfold vitals in Hv. injection Hv as Hv1 Hv2 _.
  rewrite Hp, Ho', Hv1, Hv2, Hi. simpl. auto.
Qed.

End Contact2.

Lemma catNap_shields_the_next_contacts_witness :
  let w := Examples.nap_in_contact in
  4 <= level_of CatNap w
  /\ Player.hp (player (catNap w)) = 80%num
  /\ Player.hp (player (@updateEnemies referenceMath (catNap w)))
     = Player.hp (player (catNap w))
  /\ Player.invulnerable (player (@updateEnemies referenceMath (catNap w))) = Some 179
  /\ over (@updateEnemies referenceMath (catNap w)) = over w.
Proof.
  split; [vm_compute; discriminate|]. split; [vm_compute; reflexivity|].
  apply (@catNap_shields_the_next_contacts referenceMath Examples.nap_in_contact).
  vm_compute. discriminate.
Defined.

Lemma invulnerable_player_is_not_hit_witness :
  let w := Examples.shielded_contact in
  (Player.invulnerable (player w) = Some 30 /\ 0 < 30)
  /\ player (@updateEnemies referenceMath w)
     = Player.set_invulnerable (Some (30 - 1)) (player w)
  /\ over (@updateEnemies referenceMath w) = over w
  /\ World.localStorage (@updateEnemies referenceMath w) = World.localStorage w.
Proof.
  split; [split; [reflexivity|lia]|].
  apply (@invulnerable_player_is_not_hit referenceMath Examples.shielded_contact 30);
    [reflexivity|lia].
Defined.

Section Hits.
Context {ML : MathLib}.

Lemma gameOver_vitals_fields (w : World.t) :
  exists s, vitals (gameOver w) = (player w, true, s).
Proof. unfold gameOver. cbv zeta. destruct (gt_jsint _ _); eexists; reflexivity. Qed.

Lemma stats_kept_lookup (w w' : World.t) (r : nat) (e' : Enemy.t) :
  stats_kept w w' ->
  Arr.get r (World.enemies w') = Some e' ->
  exists e, Arr.get r (World.enemies w) = Some e /\ enemy_stats e = enemy_stats e'.
Proof.
  unfold stats_kept, Arr.get. intros Hs He'.
  assert (H : (enemy_stats <$> Arr.store (World.enemies w)) !! r = Some (enemy_stats e')).
  { rewrite <- Hs, list_lookup_fmap, He'. reflexivity. }
  rewrite list_lookup_fmap in H.
  destruct (Arr.store (World.enemies w) !! r) as [e|]; [|discriminate].
  exists e. split; [reflexivity|]. simpl in H. congruence.
Qed.

Lemma finalDamage_stats (e e' : Enemy.t) (w w' : World.t) :
  enemy_stats e = enemy_stats e' ->
  level_of CatNap w' = level_of CatNap w ->
  finalDamage e' w' = finalDamage e w.
Proof.
  unfold enemy_stats, finalDamage. intros He ->. injection He as _ _ -> _. reflexivity.
Qed.

Lemma updateEnemies_loop_hit_once (w : World.t) :
  hit_once w (forEach World.enemies updateEnemy w).
Proof.
  apply (forEach_invariant World.enemies updateEnemy (hit_once w)).
  2:{ split; [apply frame_refl|split; [apply frame_refl|split; [reflexivity|now left]]]. }
  intros r k w' Hr (Hs & Ht & Hc & Hv).
  split; [exact (frame_trans _ _ _ Hs (updateEnemy_stats r k w'))|].
  split; [exact (frame_trans _ _ _ Ht (updateEnemy_thins r k w'))|].
  split.
  { destruct (updateEnemy_steady r k w') as (_ & _ & _ & Hl & _). now rewrite Hl. }
  assert (Hcase :
    vitals (updateEnemy r k w') = vitals w'
    \/ exists e', Arr.get r (World.enemies w') = Some e'
         /\ not_invulnerable (player w') = true
         /\ player (updateEnemy r k w') = hit (finalDamage e' w') (player w')).
  { pose proof (updateEnemy_vitals r k w') as Hv'.
    destruct (Arr.get r (World.enemies w')) as [e'|]; [|now left].
    destruct (touches e' w' && not_invulnerable (player w')) eqn:Hb; [|now left].
    apply andb_prop in Hb as [_ Hb]. right. exists e'.
    split; [reflexivity|]. split; [exact Hb|].
    cbv zeta in Hv'.
    destruct (gameOver_vitals_fields
                (set_player (hit (finalDamage e' w') (player w')) w')) as [s Hs'].
    rewrite Hs' in Hv'. unfold vitals in Hv'.
    destruct (_ <=? 0)%num; now injection Hv'. }
  destruct Hcase as [Hsame|(e' & He' & Hb & Hp')].
  { destruct Hv as [Hv|(Hn & r0 & e0 & Hr0 & He0 & Hp0)]; [left; congruence|].
    right. split; [exact Hn|]. exists r0, e0. repeat split; try assumption.
    unfold vitals in Hsame. congruence. }
  destruct Hv as [Hv|(Hn & r0 & e0 & Hr0 & He0 & Hp0)].
  - right. assert (Hp : player w' = player w) by (unfold vitals in Hv; congruence).
    split; [congruence|].
    destruct (stats_kept_lookup w w' r e' Hs He') as (e & He & Hst).
    exists r, e. split.
    { apply (elem_of_sublist (Arr.refs (World.enemies w'))); [|exact Ht].
      now apply list_elem_of_lookup_2 with k. }
    split; [exact He|].
    now rewrite Hp', (finalDamage_stats e e' w w' Hst Hc), Hp.
  - rewrite Hp0 in Hb. discriminate Hb.
Qed.

(** X11: one call of [updateEnemies] takes hit points from the player at
    most once.  Either [hp] is as before, or the player was not
    invulnerable, [hp] went down by the [finalDamage] of one enemy of the
    array and [invulnerable] ends at 59 (60 set by the hit, less the
    countdown at the end of the call). *)
Theorem at_most_one_hit_per_frame (w : World.t) :
  Player.hp (player (updateEnemies w)) = Player.hp (player w)
  \/ (not_invulnerable (player w) = true
      /\ Player.invulnerable (player (updateEnemies w)) = Some 59
      /\ exists r e, r ∈ Arr.refs (World.enemies w)
           /\ Arr.get r (World.enemies w) = Some e
           /\ Player.hp (player (updateEnemies w))
              = (Player.hp (player w) - finalDamage e w)%num).
Proof.
  destruct (updateEnemies_countdown w) as (Hp & _). cbv zeta in Hp. rewrite Hp.
  destruct (updateEnemies_loop_hit_once w) as (_ & _ & _ & [Hv|(Hn & r & e & Hr & He & Hh)]).
  - left. unfold vitals in Hv. injection Hv as -> _ _.
    destruct (Player.invulnerable (player w)) as [n|]; [destruct (n >? 0)|]; reflexivity.
  - right. split; [exact Hn|]. rewrite Hh. simpl.
    split; [reflexivity|]. exists r, e. repeat split; assumption.
Qed.

(** X12: [updateEnemies] keeps "the game is over whenever [hp <= 0]": if
    that holds before the call and [hp <= 0] after it, the game-over flag
    is set after it. *)
Theorem hp_at_zero_ends_the_game (w : World.t) :
  ((Player.hp (player w) <=? 0)%num = true -> over w = true) ->
  (Player.hp (player (updateEnemies w)) <=? 0)%num = true ->
  over (updateEnemies w) = true.
Proof.
  intros H0.
  destruct (updateEnemies_countdown w) as (Hp & Ho & _). cbv zeta in Hp, Ho.
  rewrite Ho.
  assert (Hhp : Player.hp (player (updateEnemies w))
                = Player.hp (player (forEach World.enemies updateEnemy w))).
  { rewrite Hp. destruct (Player.invulnerable _) as [n|]; [destruct (n >? 0)|]; reflexivity. }
  rewrite Hhp. clear Hp Ho Hhp.
  apply (forEach_invariant World.enemies updateEnemy
           (fun w' => (Player.hp (player w') <=? 0)%num = true -> over w' = true));
    [|exact H0].
  intros r k w' _ Hw'.
  pose proof (updateEnemy_vitals r k w') as Hv.
  destruct (Arr.get r (World.enemies w')) as [e'|].
  2:{ unfold vitals in Hv. injection Hv as -> -> _. exact Hw'. }
  destruct (touches e' w' && not_invulnerable (player w')).
  2:{ unfold vitals in Hv. injection Hv as -> -> _. exact Hw'. }
  cbv zeta in Hv.
  destruct (Player.hp (hit (finalDamage e' w') (player w')) <=? 0)%num eqn:Hd.
  - destruct (gameOver_vitals_fields
                (set_player (hit (finalDamage e' w') (player w')) w')) as [s Hs].
    rewrite Hs in Hv. unfold vitals in Hv. injection Hv as _ -> _. reflexivity.
  - unfold vitals in Hv. injection Hv as -> _ _. congruence.
Qed.

End Hits.

Lemma hp_at_zero_ends_the_game_witness :
  let w := Examples.last_hit in
  ((Player.hp (player w) <=? 0)%num = false /\ over w = false)
  /\ Player.hp (player (@updateEnemies referenceMath w)) = (-1)%num
  /\ over (@updateEnemies referenceMath w) = true.
Proof.
  split; [split; vm_compute; reflexivity|]. split; [vm_compute; reflexivity|].
  apply (@hp_at_zero_ends_the_game referenceMath Examples.last_hit).
  - vm_compute. discriminate.
  - vm_compute. reflexivity.
Defined.

(** ** [gameOver], [spawnEnemies] and [updatePlayer] on their own *)
(** X13: [gameOver] is idempotent: a second call changes nothing, since
    the score that the first call stored reads back as the kill count. *)
Theorem gameOver_twice_is_gameOver_once (w : World.t) :
  gameOver (gameOver w) = gameOver w.
Proof.
  unfold gameOver at 2 3. cbv zeta.
  set (w1 := World.set_gameState _ w).
  destruct (gt_jsint (kills w1) (getHighScore w1)) eqn:Hgt.
  - set (w2 := World.set_localStorage _ w1).
    unfold gameOver. cbv zeta.
    change (World.set_gameState (GameState.set_gameOver true (World.gameState w2)) w2)
      with w2.
    assert (Hs : World.localStorage w2 !! "catto_highscore" = Some (Number_toString (kills w1))).
    { unfold w2. simpl. apply lookup_insert_eq. }
    rewrite (getHighScore_stored w2 (kills w1) Hs).
    change (kills w2) with (kills w1). unfold gt_jsint.
    now rewrite Z.ltb_irrefl.
  - unfold gameOver. cbv zeta.
    change (World.set_gameState (GameState.set_gameOver true (World.gameState w1)) w1)
      with w1.
    now rewrite Hgt.
Qed.

(** X14: [spawnEnemies] adds no enemy or pushes exactly one.  A dog is
    spawned only from wave 2 (frame 1500) and player level 2, a crow only
    from wave 4 (frame 4500) and player level 5.  The new enemy has
    [hp = maxHp], the number of the current wave, the size and the colour
    of its type, and faces right. *)
Theorem spawnEnemies_unlocks_types_by_wave_and_level (w : World.t) :
  World.enemies (spawnEnemies w) = World.enemies w
  \/ exists e,
       World.enemies (spawnEnemies w) = Arr.push e (World.enemies w)
       /\ (Enemy.type e = dog -> 1500 <= time w /\ 2 <= Player.level (player w))
       /\ (Enemy.type e = crow -> 4500 <= time w /\ 5 <= Player.level (player w))
       /\ Enemy.hp e = Enemy.maxHp e
       /\ Enemy.wave e = time w / 1500 + 1
       /\ Enemy.size e = EnemyTemplate.size (enemyTypes (Enemy.type e))
       /\ Enemy.color e = EnemyTemplate.color (enemyTypes (Enemy.type e))
       /\ Enemy.facingLeft e = false.
Proof.
  unfold spawnEnemies, Math_random.
  destruct (Z.geb_spec (Z.of_nat (Arr.length (World.enemies w))) (maxEnemies w)) as [Hge|Hlt];
    [now left|].
  cbv beta iota zeta.
  destruct (negb _); [now left|].
  right.
  assert (H4 : forall a, a / 1500 + 1 >= 4 -> 4500 <= a).
  { intros a Ha. destruct (Z.le_gt_cases 4500 a) as [|Hlt']; [assumption|].
    assert (a / 1500 < 3) by (apply Z.div_lt_upper_bound; lia). lia. }
  assert (H2 : forall a, a / 1500 + 1 >= 2 -> 1500 <= a).
  { intros a Ha. destruct (Z.le_gt_cases 1500 a) as [|Hlt']; [assumption|].
    assert (a / 1500 < 1) by (apply Z.div_lt_upper_bound; lia). lia. }
  assert (Hc : forall a l, (a / 1500 + 1 >=? 4) && (l >=? 5) = true -> (4500 <= a /\ 5 <= l)).
  { intros a l H. apply andb_prop in H as [Ha Hl]. split; [apply H4|]; lia. }
  assert (Hd : forall a l, (a / 1500 + 1 >=? 2) && (l >=? 2) = true -> (1500 <= a /\ 2 <= l)).
  { intros a l H. apply andb_prop in H as [Ha Hl]. split; [apply H2|]; lia. }
  destruct ((time w / 1500 + 1 >=? 4) && (Player.level (player w) >=? 5)) eqn:Ec;
    [apply Hc in Ec
    |destruct ((time w / 1500 + 1 >=? 2) && (Player.level (player w) >=? 2)) eqn:Ed;
     [apply Hd in Ed|]];
    cbv beta iota zeta;
    repeat match goal with
           | |- context [if ?b then rat else _] => destruct b
           | |- context [if ?b then dog else _] => destruct b
           end;
    destruct (floorZ _) as [|[[|[]|]|[|[]|]|]|];
    eexists; (split; [reflexivity|]); simpl;
    (split; [intros ?; try discriminate; lia|]);
    (split; [intros ?; try discriminate; lia|]);
    repeat split.
Qed.

(** X15: for a player on the canvas and a speed that is not negative,
    [updatePlayer] moves the player by at most [speed] along each axis;
    opposite keys held together (or neither) leave that coordinate as it
    is; the player faces right if a right key is held, else left if a left
    key is held, else as before; and [hp] is untouched. *)
Theorem updatePlayer_moves_by_speed (w : World.t) :
  on_canvas w -> 0 <= Player.speed (player w) ->
  let up := key_down "w" w || key_down "arrowup" w in
  let down := key_down "s" w || key_down "arrowdown" w in
  let left := key_down "a" w || key_down "arrowleft" w in
  let right := key_down "d" w || key_down "arrowright" w in
  let p := player w in
  let p' := player (updatePlayer w) in
  Z.abs (Player.x p' - Player.x p) <= Player.speed p
  /\ Z.abs (Player.y p' - Player.y p) <= Player.speed p
  /\ (left = right -> Player.x p' = Player.x p)
  /\ (up = down -> Player.y p' = Player.y p)
  /\ Player.facingLeft p'
     = (if right then false else if left then true else Player.facingLeft p)
  /\ Player.hp p' = Player.hp p.
Proof.
  intros [Hx Hy] Hs. cbv zeta. unfold updatePlayer.
  destruct (key_down "w" w || key_down "arrowup" w),
    (key_down "s" w || key_down "arrowdown" w),
    (key_down "a" w || key_down "arrowleft" w),
    (key_down "d" w || key_down "arrowright" w);
    unfold player in *; cbn; repeat split;
    first [lia | reflexivity | discriminate | intros _; lia].
Qed.

Lemma updatePlayer_moves_by_speed_witness :
  let w := Examples.keys_held in
  let up := key_down "w" w || key_down "arrowup" w in
  let down := key_down "s" w || key_down "arrowdown" w in
  let left := key_down "a" w || key_down "arrowleft" w in
  let right := key_down "d" w || key_down "arrowright" w in
  let p := player w in
  let p' := player (updatePlayer w) in
  (on_canvas w /\ 0 <= Player.speed (player w))
  /\ Z.abs (Player.x p' - Player.x p) <= Player.speed p
  /\ Z.abs (Player.y p' - Player.y p) <= Player.speed p
  /\ (left = right -> Player.x p' = Player.x p)
  /\ (up = down -> Player.y p' = Player.y p)
  /\ Player.facingLeft p'
     = (if right then false else if left then true else Player.facingLeft p)
  /\ Player.hp p' = Player.hp p.
Proof.
  split; [split; [split; vm_compute; split; discriminate|vm_compute; discriminate]|].
  apply (updatePlayer_moves_by_speed Examples.keys_held).
  - split; vm_compute; split; discriminate.
  - vm_compute. discriminate.
Defined.

(** ** What each update function leaves alone *)
Lemma unchanged_gameState (w w' : World.t) :
  unchanged v_time w w' -> unchanged v_kills w w' -> unchanged v_paused w w' ->
  unchanged v_gameOver w w' -> unchanged v_position w w' ->
  unchanged v_health w w' -> unchanged v_progress w w' -> unchanged v_body w w' ->
  World.gameState w' = World.gameState w.
Proof.
  unfold unchanged, time, kills, paused, over, player.
  destruct (World.gameState w) as [[] ? ? ? ?], (World.gameState w') as [[] ? ? ? ?].
  simpl. intros -> -> -> -> H1 H2 H3 H4.
  injection H1 as -> -> ->. injection H2 as -> ->.
  injection H3 as -> -> -> ->. injection H4 as -> -> ->. reflexivity.
Qed.

Lemma unchanged_abilities (w w' : World.t) :
  unchanged v_levels w w' -> unchanged v_claws w w' -> unchanged v_cooldowns w w' ->
  World.abilities w' = World.abilities w.
Proof.
  unfold unchanged, level_of, claws. intros Hl Hc Hd.
  pose proof (Hl ClawOrbit). pose proof (Hl WhiskerWhip). pose proof (Hl HairballBurst).
  pose proof (Hl PawSlam). pose proof (Hl CatNap).
  pose proof (Hd WhiskerWhip). pose proof (Hd HairballBurst).
  pose proof (Hd PawSlam). pose proof (Hd CatNap).
  revert Hc. destruct (World.abilities w), (World.abilities w'). simpl in *.
  intros Hc. injection Hc as -> ->. subst. reflexivity.
Qed.

Section WriteSets.
Context {ML : MathLib}.

(** X16: [updateProjectiles] changes the projectiles and the fields of
    enemy objects only.  It leaves the game state (player, kills, flags),
    the [enemies] array, the experience orbs, the abilities, the timers and
    the oracle as they are: an enemy that a projectile brings to
    [hp <= 0] stays in the array, and is removed and counted by the next
    [updateEnemies]. *)
Theorem updateProjectiles_settles_nothing (w : World.t) :
  let w' := updateProjectiles w in
  World.gameState w' = World.gameState w
  /\ Arr.refs (World.enemies w') = Arr.refs (World.enemies w)
  /\ World.xpOrbs w' = World.xpOrbs w
  /\ World.abilities w' = World.abilities w
  /\ World.timers w' = World.timers w
  /\ World.randomCalls w' = World.randomCalls w.
Proof.
  pose proof (updateProjectiles_writes w) as H. cbv zeta.
  split; [apply unchanged_gameState; now apply H|].
  split; [now apply (H v_enemies)|].
  split; [now apply (H v_xpOrbs)|].
  split; [apply unchanged_abilities; now apply H|].
  split; [now apply (H v_timers)|now apply (H v_randomCalls)].
Qed.


(** X18: [updatePlayer] writes the player's position and facing only;
    [spawnEnemies] the enemies and the oracle only; [updateEnemies] the
    enemies, the player's [hp] and [invulnerable], the game-over flag, the
    kill count, the experience orbs, the timers, the oracle and
    [localStorage], and nothing else. *)
Theorem early_updates_write_sets (w : World.t) :
  writes_only [v_position] w (updatePlayer w)
  /\ writes_only [v_enemies; v_enemy_objects; v_randomCalls] w (spawnEnemies w)
  /\ writes_only [v_enemies; v_enemy_objects; v_health; v_gameOver; v_kills;
                  v_xpOrbs; v_timers; v_randomCalls; v_localStorage]
       w (updateEnemies w).
Proof.
  split; [apply updatePlayer_writes|].
  split; [apply spawnEnemies_writes|apply updateEnemies_writes].
Qed.

(** With no ability chosen but Claw Orbit, [updateAbilities] writes the
    [abilities] object only. *)
Lemma updateAbilities_idle (w : World.t) :
  (forall k, k <> ClawOrbit -> level_of k w <= 0) ->
  World.gameState (updateAbilities w) = World.gameState w
  /\ World.enemies (updateAbilities w) = World.enemies w
  /\ World.projectiles (updateAbilities w) = World.projectiles w
  /\ World.particles (updateAbilities w) = World.particles w
  /\ World.timers (updateAbilities w) = World.timers w
  /\ World.randomCalls (updateAbilities w) = World.randomCalls w.
Proof.
  destruct (updateAbilities_fires w) as [_ H].
  intros Hz.
  assert (Hs : forall v, bool_decide (v ∈ [v_cooldowns; v_claws]) = false ->
                 unchanged v w (updateAbilities w)).
  { intros v Hv. apply H. unfold abilities_write_set.
    pose proof (Hz WhiskerWhip ltac:(discriminate)) as H1.
    pose proof (Hz HairballBurst ltac:(discriminate)) as H2.
    pose proof (Hz PawSlam ltac:(discriminate)) as H3.
    pose proof (Hz CatNap ltac:(discriminate)) as H4.
    destruct (Z.gtb_spec (level_of WhiskerWhip w) 0); [lia|].
    destruct (Z.gtb_spec (level_of HairballBurst w) 0); [lia|].
    destruct (Z.gtb_spec (level_of PawSlam w) 0); [lia|].
    destruct (Z.gtb_spec (level_of CatNap w) 0); [lia|].
    destruct (level_of ClawOrbit w >? 0); destruct v; first [reflexivity|discriminate Hv]. }
  split; [apply unchanged_gameState; now apply Hs|].
  split.
  { pose proof (Hs v_enemies eq_refl) as Hr. pose proof (Hs v_enemy_objects eq_refl) as Ho.
    unfold unchanged in Hr, Ho. revert Hr Ho.
    generalize (World.enemies (updateAbilities w)). intros [s1 r1].
    destruct (World.enemies w) as [s0 r0]. simpl. congruence. }
  split; [now apply (Hs v_projectiles)|].
  split; [now apply (Hs v_particles)|].
  split; [now apply (Hs v_timers)|now apply (Hs v_randomCalls)].
Qed.

(** X19: [updateAbilities] writes the cooldowns and, for each ability,
    what that ability's own function writes and only when its level is
    above 0: the claws for Claw Orbit, [projectiles] for Whisker Whip,
    [projectiles] and the oracle for Hairball Burst, the enemy objects, the
    timers and [particles] for Paw Slam, the player's [hp] and
    [invulnerable] for Cat Nap.  With no ability chosen but Claw Orbit it
    leaves the game state, the arrays, the timers and the oracle as they
    are. *)
Theorem updateAbilities_fires_chosen_abilities_only (w : World.t) :
  writes_only (abilities_write_set w) w (updateAbilities w)
  /\ ((forall k, k <> ClawOrbit -> level_of k w <= 0) ->
      World.gameState (updateAbilities w) = World.gameState w
      /\ World.enemies (updateAbilities w) = World.enemies w
      /\ World.projectiles (updateAbilities w) = World.projectiles w
      /\ World.particles (updateAbilities w) = World.particles w
      /\ World.timers (updateAbilities w) = World.timers w
      /\ World.randomCalls (updateAbilities w) = World.randomCalls w).
Proof.
  split; [now destruct (updateAbilities_fires w)|apply updateAbilities_idle].
Qed.

End WriteSets.

(** ** Enemy objects, and the first frame of a run *)
Lemma forEach_empty {A} (arr : World.t -> Arr.t A)
    (callback : nat -> nat -> World.t -> World.t) (w : World.t) :
  Arr.refs (arr w) = [] -> forEach arr callback w = w.
Proof. intros H. unfold forEach, Arr.length. now rewrite H. Qed.

Section Start.
Context {ML : MathLib}.

Lemma stats_kept_lookup_fwd (w w' : World.t) (r : nat) (e : Enemy.t) :
  stats_kept w w' ->
  Arr.get r (World.enemies w) = Some e ->
  exists e', Arr.get r (World.enemies w') = Some e' /\ enemy_stats e' = enemy_stats e.
Proof.
  unfold stats_kept, Arr.get. intros Hs He.
  assert (H : (enemy_stats <$> Arr.store (World.enemies w')) !! r = Some (enemy_stats e)).
  { rewrite Hs, list_lookup_fmap, He. reflexivity. }
  rewrite list_lookup_fmap in H.
  destruct (Arr.store (World.enemies w') !! r) as [e'|]; [|discriminate].
  exists e'. split; [reflexivity|]. simpl in H. congruence.
Qed.

(** X20: an enemy object keeps through every frame, and through every
    [setTimeout] callback, the [maxHp], [speed], [damage], [color], [size],
    [xpValue], [type] and [wave] it has: after [spawnEnemies] only the
    position, [hp] and [facingLeft] of an enemy are written. *)
Theorem enemy_statistics_are_fixed_at_spawn (w : World.t) (r : nat) (e : Enemy.t) :
  Arr.get r (World.enemies w) = Some e ->
  (exists e', Arr.get r (World.enemies (gameLoop w)) = Some e'
              /\ enemy_stats e' = enemy_stats e)
  /\ (forall i, exists e', Arr.get r (World.enemies (runTimer i w)) = Some e'
                           /\ enemy_stats e' = enemy_stats e).
Proof.
  intros He. split.
  - destruct (gameLoop_cases w) as [[_ ->]|[_ ->]]; [now exists e|].
    assert (H1 : stats_kept (tick w) (updateAbilities (updatePlayer (tick w)))).
    { apply (frame_trans _ (updatePlayer (tick w)));
        [apply updatePlayer_stats|apply updateAbilities_stats]. }
    destruct (stats_kept_lookup_fwd _ _ r e H1 He) as (e1 & He1 & Hs1).
    revert He1. generalize (updateAbilities (updatePlayer (tick w))). intros w2 He1.
    assert (He2 : Arr.get r (World.enemies (spawnEnemies w2)) = Some e1).
    { destruct (spawnEnemies_effect w2) as [_ [->|[_ [x ->]]]]; [exact He1|].
      unfold Arr.get, Arr.push in *. simpl. now apply lookup_app_l_Some. }
    revert He2. generalize (spawnEnemies w2). intros w3 He2.
    assert (H3 : stats_kept w3 (updateParticles (updateXP (updateProjectiles (updateEnemies w3))))).
    { apply (frame_trans _ (updateXP (updateProjectiles (updateEnemies w3))));
        [|apply updateParticles_stats].
      apply (frame_trans _ (updateProjectiles (updateEnemies w3)));
        [|apply updateXP_stats].
      apply (frame_trans _ (updateEnemies w3));
        [apply updateEnemies_stats|apply updateProjectiles_stats]. }
    destruct (stats_kept_lookup_fwd _ _ r e1 H3 He2) as (e3 & He3 & Hs3).
    exists e3. split; [exact He3|congruence].
  - intros i. apply (stats_kept_lookup_fwd w); [|exact He].
    unfold runTimer. destruct (_ !! i) as [[r' a]|]; [|reflexivity].
    unfold stats_kept, modify_enemy. cbn. apply stats_alter. reflexivity.
Qed.

(** X21: [startGame] runs the first frame itself.  From any state of the
    page it returns with the clock at 1, Claw Orbit at level 1 with two
    claws and every other ability at level 0, at most one enemy, no
    projectile and no particle, the keys and the canvas as they were, and
    [localStorage] as it was unless that first frame ended the game. *)
Theorem startGame_begins_a_new_run (w : World.t) :
  let w' := startGame w in
  time w' = 1
  /\ (forall k, level_of k w' = if decide (k = ClawOrbit) then 1 else 0)
  /\ length (claws w') = 2%nat
  /\ (Arr.length (World.enemies w') <= 1)%nat
  /\ Arr.refs (World.projectiles w') = []
  /\ Arr.refs (World.particles w') = []
  /\ World.keys w' = World.keys w
  /\ World.canvas w' = World.canvas w
  /\ (over w' = false -> World.localStorage w' = World.localStorage w).
Proof.
  cbv zeta.
  destruct (startGame_first_frame w)
    as (w1 & -> & Hg & He & Hp & _ & Hq & Hl & Hc & Hk & Hcv & Hs & _).
  assert (Ho : over w1 || paused w1 = false) by (unfold over, paused; now rewrite Hg).
  destruct (gameLoop_frame w1 Ho) as (Ht & Hk' & _ & Hl' & Hc' & _ & _ & _ & _ & Hs' & _).
  split; [rewrite Ht; unfold tick, time; simpl; now rewrite Hg|].
  split; [intros k; now rewrite Hl', <- Hl|].
  split.
  { apply (f_equal length) in Hc'. unfold claw_layout in Hc'.
    rewrite !length_fmap in Hc'. rewrite Hc'.
    apply (f_equal length) in Hc. unfold claw_layout in Hc.
    now rewrite !length_fmap in Hc. }
  destruct (gameLoop_cases w1) as [[Hx _]|[_ Heq]]; [congruence|].
  destruct (updateAbilities_idle (updatePlayer (tick w1))) as (_ & Hz1 & Hz2 & Hz3 & _).
  { intros k Hk0. change (level_of k (updatePlayer (tick w1))) with (level_of k w1).
    rewrite Hl. destruct (decide (k = ClawOrbit)); [contradiction|lia]. }
  set (w2 := updateAbilities (updatePlayer (tick w1))) in *.
  assert (H2e : Arr.refs (World.enemies w2) = []) by (rewrite Hz1; exact He).
  assert (H2p : Arr.refs (World.projectiles w2) = []) by (rewrite Hz2; exact Hp).
  assert (H2q : Arr.refs (World.particles w2) = []) by (rewrite Hz3; exact Hq).
  clearbody w2.
  pose proof (spawnEnemies_writes w2) as Hw3.
  assert (H3e : (Arr.length (World.enemies (spawnEnemies w2)) <= 1)%nat).
  { destruct (spawnEnemies_effect w2) as [_ [->|[_ [x ->]]]].
    - unfold Arr.length. rewrite H2e. simpl. lia.
    - rewrite length_push. unfold Arr.length. rewrite H2e. simpl. lia. }
  assert (H3p : Arr.refs (World.projectiles (spawnEnemies w2)) = [])
    by (rewrite (Hw3 v_projectiles eq_refl); exact H2p).
  assert (H3q : Arr.refs (World.particles (spawnEnemies w2)) = [])
    by (rewrite (Hw3 v_particles eq_refl); exact H2q).
  revert H3e H3p H3q Heq. generalize (spawnEnemies w2). intros w3 H3e H3p H3q Heq.
  pose proof (updateEnemies_writes w3) as Hw4.
  pose proof (updateEnemies_thins w3) as Ht4.
  assert (H4p : Arr.refs (World.projectiles (updateEnemies w3)) = [])
    by (rewrite (Hw4 v_projectiles eq_refl); exact H3p).
  assert (H4q : Arr.refs (World.particles (updateEnemies w3)) = [])
    by (rewrite (Hw4 v_particles eq_refl); exact H3q).
  revert Ht4 H4p H4q Heq. generalize (updateEnemies w3). intros w4 Ht4 H4p H4q Heq.
  assert (H5 : updateProjectiles w4 = w4) by (now apply forEach_empty).
  rewrite H5 in Heq.
  pose proof (updateXP_writes w4) as Hw6.
  pose proof (updateXP_thins w4) as Ht6.
  assert (H6p : Arr.refs (World.projectiles (updateXP w4)) = [])
    by (rewrite (Hw6 v_projectiles eq_refl); exact H4p).
  assert (H6q : Arr.refs (World.particles (updateXP w4)) = [])
    by (rewrite (Hw6 v_particles eq_refl); exact H4q).
  revert Ht6 H6p H6q Heq. generalize (updateXP w4). intros w6 Ht6 H6p H6q Heq.
  assert (H7 : updateParticles w6 = w6) by (now apply forEach_empty).
  rewrite H7 in Heq. rewrite Heq.
  split.
  { apply sublist_length in Ht4, Ht6. unfold Arr.length in *. lia. }
  split; [exact H6p|]. split; [exact H6q|].
  rewrite <- Heq.
  split; [now rewrite Hk'|].
  split.
  { destruct (gameLoop_running_frame w1) as (Hcv' & _).
    - unfold over in Ho. now apply orb_false_elim in Ho as [-> _].
    - now apply orb_false_elim in Ho as [_ ->].
    - now rewrite Hcv'. }
  intros Hov. now rewrite Hs'.
Qed.

End Start.

Lemma enemy_statistics_are_fixed_at_spawn_witness :
  let w := Examples.contact_world in
  let e := Examples.rat_at 100 100 12 in
  Arr.get 1 (World.enemies w) = Some e
  /\ (exists e', Arr.get 1 (World.enemies (@gameLoop referenceMath w)) = Some e'
                 /\ enemy_stats e' = enemy_stats e)
  /\ (forall i, exists e', Arr.get 1 (World.enemies (runTimer i w)) = Some e'
                           /\ enemy_stats e' = enemy_stats e).
Proof.
  split; [reflexivity|].
  apply (@enemy_statistics_are_fixed_at_spawn referenceMath Examples.contact_world 1).
  reflexivity.
Defined.
